(** * Company Intelligence: name normalisation and first-occurrence dedupe

    A shallow embedding of [company_intelligence.py]: the normaliser
    [normalise_company_name] (lines 24-40), the frame operations
    [add_normalised_column] (lines 44-49) and [dedupe_by_normalised_name]
    (lines 51-54), and [run] (lines 74-96) with [read_csv], [write_outputs]
    and [_ensure_parent] (lines 56-70) over an abstract file system.

    Python text is a sequence of Unicode code points; the regular
    expressions of the module are run by a small backtracking matcher with
    the priorities of Python's [re] (greedy first, leftmost match wins). *)

From Stdlib Require Import NArith ZArith String Ascii List Lia Bool Sorted DecimalString.
From stdpp Require Import base option list gmap.

Import ListNotations.
Local Open Scope bool_scope.

(** ** Text *)

Definition codepoint := N.
Definition pystr := list codepoint.

(** An ASCII literal as Python text. *)
Definition str (s : string) : pystr := map N_of_ascii (list_ascii_of_string s).

Definition chr (s : string) : codepoint :=
  match s with
  | String a _ => N_of_ascii a
  | EmptyString => 0%N
  end.

(** [str.isspace] on one code point, which is also what [\s] matches in a
    text pattern: the complete list of Python's Unicode whitespace. *)
Definition isspace (c : codepoint) : bool :=
  ((0x9 <=? c) && (c <=? 0xD) || (0x1C <=? c) && (c <=? 0x20)
   || (c =? 0x85) || (c =? 0xA0) || (c =? 0x1680)
   || (0x2000 <=? c) && (c <=? 0x200A)
   || (c =? 0x2028) || (c =? 0x2029) || (c =? 0x202F) || (c =? 0x205F)
   || (c =? 0x3000))%N.

Definition ascii_isupper (c : codepoint) : bool := ((65 <=? c) && (c <=? 90))%N.
Definition ascii_islower (c : codepoint) : bool := ((97 <=? c) && (c <=? 122))%N.
Definition ascii_isdigit (c : codepoint) : bool := ((48 <=? c) && (c <=? 57))%N.
Definition ascii_isalnum (c : codepoint) : bool :=
  ascii_isdigit c || ascii_isupper c || ascii_islower c.
Definition ascii_upper (c : codepoint) : codepoint :=
  if ascii_islower c then (c - 32)%N else c.

(** The part of the Unicode character database the module consults outside
    ASCII: which code points are alphanumeric (for [\b]) and the full
    upper-case mapping of [str.upper], which may be several code points
    long. Inside ASCII both are fixed below. *)
Record unicode_db := UnicodeDb {
  isalnum_hi : codepoint -> bool;
  upper_hi : codepoint -> pystr
}.

(** The database with no cased and no alphanumeric code point outside ASCII. *)
Definition ascii_db : unicode_db :=
  {| isalnum_hi := fun _ => false; upper_hi := fun c => [c] |}.

Section Normaliser.

Context (U : unicode_db).

Definition isalnum (c : codepoint) : bool :=
  if (c <? 128)%N then ascii_isalnum c else isalnum_hi U c.

(** [\w] of a text pattern: alphanumeric or underscore. *)
Definition isword (c : codepoint) : bool := isalnum c || (c =? 95)%N.

Definition toupper (c : codepoint) : pystr :=
  if (c <? 128)%N then [ascii_upper c] else upper_hi U c.

(** [s.upper()] *)
Definition upper (s : pystr) : pystr := flat_map toupper s.

(** [s.replace(a, b)] for one-character [a] and [b]. *)
Definition replace (a b : codepoint) (s : pystr) : pystr :=
  map (fun c => if (c =? a)%N then b else c) s.

Fixpoint lstrip (p : codepoint -> bool) (s : pystr) : pystr :=
  match s with
  | c :: t => if p c then lstrip p t else s
  | [] => []
  end.

Definition rstrip (p : codepoint -> bool) (s : pystr) : pystr :=
  rev (lstrip p (rev s)).

(** [s.strip()] *)
Definition strip (s : pystr) : pystr := rstrip isspace (lstrip isspace s).

Definition inb (cs : pystr) (c : codepoint) : bool := existsb (N.eqb c) cs.

(** [s.strip(chars)] *)
Definition strip_chars (chars : pystr) (s : pystr) : pystr :=
  rstrip (inb chars) (lstrip (inb chars) s).

(** ** Regular expressions

    The fragment of [re] syntax the module uses. A pattern is a sequence
    of atoms; at most one atom is a capture group. *)

Inductive cls :=
| Space                  (* \s *)
| NotChr (c : codepoint) (* [^c] *).

Definition in_cls (k : cls) (c : codepoint) : bool :=
  match k with
  | Space => isspace c
  | NotChr d => negb (c =? d)%N
  end.

Inductive atom :=
| Chr (c : codepoint)    (* the literal c *)
| Opt (c : codepoint)    (* c? *)
| Star (k : cls)         (* k* *)
| Plus (k : cls)         (* k+ *)
| PlusGrp (k : cls)      (* (k+), the capture group *)
| WordB                  (* \b *)
| WordBOrEnd             (* (?:\b|$) *).

Definition pattern := list atom.

Definition isword_opt (c : option codepoint) : bool :=
  match c with Some c => isword c | None => false end.

(** [\b] between the character before the position ([None] at the start
    of the text) and the rest of the text. *)
Definition word_boundary (prev : option codepoint) (s : pystr) : bool :=
  xorb (isword_opt prev) (isword_opt (head s)).

(** [$] without [re.MULTILINE]: the end of the text, or just before a
    newline that ends it. *)
Definition at_end (s : pystr) : bool :=
  match s with
  | [] => true
  | [c] => (c =? 10)%N
  | _ => false
  end.

(** A match of a pattern at the head of [s]: its length and the text of
    the capture group. *)
Definition matched := option (nat * pystr).

Definition advance (r : matched) : matched :=
  match r with Some (n, g) => Some (S n, g) | None => None end.

Definition capture (c : codepoint) (r : matched) : matched :=
  match r with Some (n, g) => Some (S n, c :: g) | None => None end.

(** [k*] followed by the rest of the pattern [cont]: the longest run
    first, then each shorter one. With [cap] the run is captured. *)
Fixpoint greedy (cap : bool) (k : cls) (cont : option codepoint -> pystr -> matched)
    (prev : option codepoint) (s : pystr) : matched :=
  match s with
  | c :: t =>
      if in_cls k c then
        match greedy cap k cont (Some c) t with
        | Some r => (if cap then capture c else advance) (Some r)
        | None => cont prev s
        end
      else cont prev s
  | [] => cont prev s
  end.

Fixpoint re_match (p : pattern) (prev : option codepoint) (s : pystr) : matched :=
  match p with
  | [] => Some (0, [])
  | a :: p' =>
      match a with
      | Chr c =>
          match s with
          | d :: t => if (d =? c)%N then advance (re_match p' (Some d) t) else None
          | [] => None
          end
      | Opt c =>
          match s with
          | d :: t =>
              if (d =? c)%N then
                match re_match p' (Some d) t with
                | Some r => advance (Some r)
                | None => re_match p' prev s
                end
              else re_match p' prev s
          | [] => re_match p' prev s
          end
      | Star k => greedy false k (re_match p') prev s
      | Plus k =>
          match s with
          | d :: t =>
              if in_cls k d then advance (greedy false k (re_match p') (Some d) t)
              else None
          | [] => None
          end
      | PlusGrp k =>
          match s with
          | d :: t =>
              if in_cls k d then capture d (greedy true k (re_match p') (Some d) t)
              else None
          | [] => None
          end
      | WordB => if word_boundary prev s then re_match p' prev s else None
      | WordBOrEnd =>
          if word_boundary prev s || at_end s then re_match p' prev s else None
      end
  end.

(** [re.sub]: scan from the left; at a position where the pattern matches,
    emit the replacement (a function of the capture group) and skip the
    match; elsewhere copy the character. [prev] is the character of the
    subject before the position and [skip] counts what is left of the
    current match. No pattern of this module matches the empty text
    (lemma [re_match_nonempty] below), so the rule of [re.sub] for empty
    matches never applies and a match of length 0 is read as no match. *)
Fixpoint sub_from (p : pattern) (repl : pystr -> pystr)
    (prev : option codepoint) (skip : nat) (s : pystr) : pystr :=
  match s with
  | [] => []
  | c :: t =>
      match skip with
      | S k => sub_from p repl (Some c) k t
      | O =>
          match re_match p prev s with
          | Some (S k, g) => repl g ++ sub_from p repl (Some c) k t
          | _ => c :: sub_from p repl (Some c) 0 t
          end
      end
  end.

Definition re_sub (p : pattern) (repl : pystr -> pystr) (s : pystr) : pystr :=
  sub_from p repl None 0 s.

Definition lit (s : string) : pattern := map Chr (str s).

(** r"\s+" *)
Definition WS_RUN : pattern := [Plus Space].

(** r"\s*\(([^)]+)\)\s*" *)
Definition PAREN_GROUP : pattern :=
  [Star Space; Chr (chr "("); PlusGrp (NotChr (chr ")")); Chr (chr ")"); Star Space].

Definition dot : codepoint := chr ".".

Definition _SUFFIXES : list pattern :=
  [ [WordB] ++ lit "LTD" ++ [WordB];
    [WordB] ++ lit "LIMITED" ++ [WordB];
    [WordB] ++ lit "LLP" ++ [WordB];
    [WordB] ++ lit "PLC" ++ [WordB];
    [WordB] ++ lit "INC" ++ [WordB];
    [WordB] ++ lit "CORP" ++ [WordB];
    [WordB; Chr (chr "L"); Opt dot; Chr (chr "L"); Opt dot; Chr (chr "P"); Opt dot; WordBOrEnd];
    [WordB; Chr (chr "L"); Opt dot; Chr (chr "T"); Opt dot; Chr (chr "D"); Opt dot; WordBOrEnd];
    [WordB; Chr (chr "P"); Opt dot; Chr (chr "L"); Opt dot; Chr (chr "C"); Opt dot; WordBOrEnd] ].

Definition _SUFFIX_PATTERNS : list pattern := _SUFFIXES.

Definition space : pystr := str " ".

(** The loop of lines 34-35 over a list of patterns. *)
Definition strip_suffix_patterns (pats : list pattern) (pad : pystr) : pystr :=
  fold_left (fun pad pat => re_sub pat (fun _ => space) pad) pats pad.

(** Python values that can reach [normalise_company_name]. *)
Inductive pyval :=
| PyStr (s : pystr)
| PyNaN
| PyNone
| PyInt (z : Z)
| PyBool (b : bool).

Definition is_str (v : pyval) : bool :=
  match v with PyStr _ => true | _ => false end.

(** Line 31. *)
Definition unwrap_parens (s : pystr) : pystr :=
  re_sub PAREN_GROUP (fun g => space ++ g ++ space) s.

(** Lines 28-40 on a text, with the suffix list as a parameter. *)
Definition normalise_text (pats : list pattern) (name : pystr) (strip_suffixes : bool) : pystr :=
  let s := replace 0x2014%N (chr "-") (replace 0x2013%N (chr "-")
             (replace 0x2019%N (chr "'") (strip name))) in
  let s := upper (re_sub WS_RUN (fun _ => space) s) in
  let s := unwrap_parens s in
  let s :=
    if strip_suffixes then
      let pad := space ++ s ++ space in
      let pad := strip_suffix_patterns pats pad in
      strip pad
    else s in
  let s := strip_chars (str " .,-_[]{}") s in
  re_sub WS_RUN (fun _ => space) s.

Definition normalise_company_name (name : pyval) (strip_suffixes : bool) : pystr :=
  match name with
  | PyStr name => normalise_text _SUFFIX_PATTERNS name strip_suffixes
  | _ => []
  end.

End Normaliser.

(** ** Frames

    A [pandas.DataFrame] as the module uses it: row labels and an ordered
    list of named columns. [read_csv] (line 62) reads every column with
    [dtype=str], so a cell is a text or NaN (a missing value). *)

Inductive cell :=
| CStr (s : pystr)
| CNaN.

Global Instance cell_eq_dec : EqDecision cell.
Proof. solve_decision. Defined.

Record DataFrame := mkDataFrame {
  df_index : list Z;
  df_data : list (pystr * list cell)
}.

(** [df.columns] *)
Definition df_columns (f : DataFrame) : list pystr := map fst (df_data f).

(** [len(df)] *)
Definition df_len (f : DataFrame) : nat := length (df_index f).

(** The values of the column [col]. *)
Fixpoint get_col (col : pystr) (data : list (pystr * list cell)) : option (list cell) :=
  match data with
  | [] => None
  | (c, xs) :: rest => if decide (c = col) then Some xs else get_col col rest
  end.

(** Assignment to the column [col]: in place when the frame has it, as a
    new last column otherwise. *)
Fixpoint set_col (col : pystr) (vals : list cell) (data : list (pystr * list cell))
    : list (pystr * list cell) :=
  match data with
  | [] => [(col, vals)]
  | (c, xs) :: rest =>
      if decide (c = col) then (c, vals) :: rest
      else (c, xs) :: set_col col vals rest
  end.

(** [str(x)] of a cell, as [Series.astype(str)] applies it to a column
    of dtype object (what [read_csv] with [dtype=str] gives in pandas 1 and
    2): NaN becomes the text "nan". *)
Definition astype_str (x : cell) : pystr :=
  match x with
  | CStr s => s
  | CNaN => str "nan"
  end.

(** [Series.duplicated(keep="first")] negated: one pass with the keys seen
    so far; a key is kept when it has not been seen. *)
Fixpoint first_mask (seen : list cell) (keys : list cell) : list bool :=
  match keys with
  | [] => []
  | k :: rest =>
      if decide (k ∈ seen) then false :: first_mask seen rest
      else true :: first_mask (k :: seen) rest
  end.

(** Boolean indexing: the entries whose mask is true. *)
Fixpoint take_mask {A : Type} (mask : list bool) (xs : list A) : list A :=
  match mask, xs with
  | b :: mask', x :: xs' => if b then x :: take_mask mask' xs' else take_mask mask' xs'
  | _, _ => []
  end.

Definition frame_take (mask : list bool) (f : DataFrame) : DataFrame :=
  {| df_index := take_mask mask (df_index f);
     df_data := map (fun '(c, xs) => (c, take_mask mask xs)) (df_data f) |}.

(** The labels [0 .. n-1] of a [RangeIndex]. *)
Definition range_index (n : nat) : list Z := map Z.of_nat (seq 0 n).

(** ** The store

    Frames are objects: a variable holds a reference, [df.copy()] makes a
    new object and [out[c] = v] updates one in place. *)

Abbreviation loc := positive (only parsing).
Abbreviation store := (gmap positive DataFrame) (only parsing).

Inductive pyexn :=
| ValueError (msg : pystr)
| KeyError (key : pystr)
| Dangling (* a reference to no object; Python has none *).

Definition py (A : Type) : Type := store -> (pyexn + A) * store.

Global Instance py_ret : MRet py := fun A a h => (inr a, h).
Global Instance py_bind : MBind py := fun A B k m h =>
  match m h with
  | (inl e, h') => (inl e, h')
  | (inr a, h') => k a h'
  end.

Definition raise {A : Type} (e : pyexn) : py A := fun h => (inl e, h).

Definition read (l : loc) : py DataFrame := fun h =>
  match h !! l with
  | Some f => (inr f, h)
  | None => (inl Dangling, h)
  end.

Definition alloc (f : DataFrame) : py loc := fun h =>
  let l := fresh (dom h) in (inr l, <[l := f]> h).

Definition write (l : loc) (f : DataFrame) : py unit := fun h =>
  (inr tt, <[l := f]> h).

(** [df.columns] *)
Definition columns_of (df : loc) : py (list pystr) :=
  f ← read df; mret (df_columns f).

(** [df.copy()] *)
Definition df_copy (df : loc) : py loc :=
  f ← read df; alloc f.

(** [df[col]] *)
Definition getitem (df : loc) (col : pystr) : py (list cell) :=
  f ← read df;
  match get_col col (df_data f) with
  | Some xs => mret xs
  | None => raise (KeyError col)
  end.

(** [df[col] = vals], for a Series [vals] on the index of [df]. *)
Definition setitem (df : loc) (col : pystr) (vals : list cell) : py unit :=
  f ← read df;
  write df {| df_index := df_index f; df_data := set_col col vals (df_data f) |}.

(** [df.drop_duplicates(subset=[col])] *)
Definition drop_duplicates (df : loc) (col : pystr) : py loc :=
  f ← read df;
  match get_col col (df_data f) with
  | Some keys => alloc (frame_take (first_mask [] keys) f)
  | None => raise (KeyError col)
  end.

(** [df.reset_index(drop=True)] *)
Definition reset_index_drop (df : loc) : py loc :=
  f ← read df;
  alloc {| df_index := range_index (df_len f); df_data := df_data f |}.

Section Dedupe.

Context (U : unicode_db).

Definition NORM_NAME : pystr := str "_norm_name".
Definition COMPANY_NAME : pystr := str "company_name".

(** The value [add_normalised_column] stores for a cell. *)
Definition canonical (strip_suffixes : bool) (x : cell) : pystr :=
  normalise_company_name U (PyStr (astype_str x)) strip_suffixes.

Definition add_normalised_column (df : loc) (col : pystr) (strip_suffixes : bool) : py loc :=
  cols ← columns_of df;
  if negb (bool_decide (col ∈ cols)) then
    raise (ValueError (str "Missing required column: " ++ col))
  else
    out ← df_copy df;
    ser ← getitem out col;
    setitem out NORM_NAME
      (map (fun x => CStr (normalise_company_name U (PyStr x) strip_suffixes))
           (map astype_str ser));;
    mret out.

Definition dedupe_by_normalised_name (df : loc) : py loc :=
  cols ← columns_of df;
  df ← (if negb (bool_decide (NORM_NAME ∈ cols))
        then add_normalised_column df COMPANY_NAME true
        else mret df);
  d ← drop_duplicates df NORM_NAME;
  reset_index_drop d.

(** The two calls of [run] (lines 85-86), with the column as a parameter
    the way [add_normalised_column] has it; [run] leaves the default. *)
Definition dedupe (df : loc) (col : pystr) (strip_suffixes : bool) : py loc :=
  df ← add_normalised_column df col strip_suffixes;
  dedupe_by_normalised_name df.

Definition run_dedupe (df : loc) (keep_suffixes : bool) : py loc :=
  dedupe df COMPANY_NAME (negb keep_suffixes).

End Dedupe.

Arguments normalise_company_name : simpl never.
Arguments canonical : simpl never.

(** ** Files and the console

    [run] (lines 74-96) and its helpers reach the world outside through
    [os], [pandas] and [print]. Those calls are kept abstract: an
    environment gives, for each of them, what it returns or raises and the
    world it leaves. [os.path.exists], [os.path.dirname] and [os.getcwd]
    only look. [is_Exception] tells the exceptions that derive from
    [Exception], the ones [except Exception] catches. *)

Record env (world E : Type) := Env {
  os_path_exists : pystr → world → bool;
  os_path_dirname : pystr → pystr;
  os_getcwd : world → pystr;
  os_makedirs : pystr → world → (E + unit) * world;  (* exist_ok=True *)
  pd_read_csv : pystr → world → (E + DataFrame) * world;  (* encoding="utf-8", dtype=str *)
  df_to_csv : DataFrame → pystr → world → (E + unit) * world;  (* index=False, encoding="utf-8" *)
  df_to_excel : DataFrame → pystr → world → (E + unit) * world;  (* index=False *)
  py_print : pystr → world → (E + unit) * world;
  is_Exception : E → bool
}.

Arguments os_path_exists {world E}.
Arguments os_path_dirname {world E}.
Arguments os_getcwd {world E}.
Arguments os_makedirs {world E}.
Arguments pd_read_csv {world E}.
Arguments df_to_csv {world E}.
Arguments df_to_excel {world E}.
Arguments py_print {world E}.
Arguments is_Exception {world E}.

Inductive exn (E : Type) :=
| FileNotFoundError (msg : pystr)
| FrameError (e : pyexn)   (* raised by a frame operation *)
| LibraryError (e : E)     (* raised by a call of the environment *).

Arguments FileNotFoundError {E}.
Arguments FrameError {E}.
Arguments LibraryError {E}.

(** [p] is a prefix of [s]. *)
Fixpoint starts_with (p s : pystr) : bool :=
  match p, s with
  | [], _ => true
  | a :: p', c :: s' => (c =? a)%N && starts_with p' s'
  | _ :: _, [] => false
  end.

(** [s.replace(old, new)] for a non-empty [old]: every occurrence of
    [old], found from the left and without overlap, gives way to [new];
    [skip] counts what is left of the occurrence being replaced. *)
Fixpoint replace_from (old new : pystr) (skip : nat) (s : pystr) : pystr :=
  match s with
  | [] => []
  | c :: t =>
      match skip with
      | S k => replace_from old new k t
      | O =>
          if starts_with old s then new ++ replace_from old new (pred (length old)) t
          else c :: replace_from old new 0 t
      end
  end.

Definition str_replace (old new s : pystr) : pystr := replace_from old new 0 s.

(** [old in s]: the text [old] occurs in [s]. *)
Fixpoint occurs (old s : pystr) : bool :=
  match s with
  | [] => starts_with old []
  | _ :: t => starts_with old s || occurs old t
  end.

(** [str(n)] of an integer. *)
Definition int_str (z : Z) : pystr := str (NilZero.string_of_int (Z.to_int z)).

(** [len(df)] *)
Definition len (df : loc) : py nat :=
  f ← read df; mret (df_len f).

Fixpoint del_col (col : pystr) (data : list (pystr * list cell)) : list (pystr * list cell) :=
  match data with
  | [] => []
  | (c, xs) :: rest =>
      if decide (c = col) then del_col col rest else (c, xs) :: del_col col rest
  end.

(** [df.drop(columns=[col])] *)
Definition drop_columns (df : loc) (col : pystr) : py loc :=
  f ← read df;
  if bool_decide (col ∈ df_columns f) then
    alloc {| df_index := df_index f; df_data := del_col col (df_data f) |}
  else raise (KeyError (str "['" ++ col ++ str "'] not found in axis")).

(** The message of lines 77-79. *)
Definition not_found_message (in_path cwd : pystr) : pystr :=
  str "Input not found: " ++ in_path ++ [10%N] ++
  str "Working dir: " ++ cwd ++ [10%N] ++
  str "Tip: put your CSV under a 'Data' folder next to this script, or pass an absolute path.".

(** The two lines of lines 95-96. *)
Definition report_rows (n_in n_out : nat) : pystr :=
  str "Read " ++ int_str (Z.of_nat n_in) ++ str " rows " ++ [0x2192%N] ++ str " " ++
  int_str (Z.of_nat n_out) ++ str " unique (removed " ++
  int_str (Z.of_nat n_in - Z.of_nat n_out) ++ str ").".

Definition report_files (out_path : pystr) : pystr :=
  str "Wrote: " ++ out_path ++ str " and " ++ str_replace (str ".csv") (str ".xlsx") out_path.

Section Run.

Context (U : unicode_db) {world E : Type} (os : env world E).

(** A computation on the frames and the world. *)
Definition io (A : Type) : Type := store * world → (exn E + A) * (store * world).

Global Instance io_ret : MRet io := fun A a s => (inr a, s).
Global Instance io_bind : MBind io := fun A B k m s =>
  match m s with
  | (inl e, s') => (inl e, s')
  | (inr a, s') => k a s'
  end.

Definition throw {A : Type} (e : exn E) : io A := fun s => (inl e, s).

(** A frame operation, run on the store. *)
Definition lift {A : Type} (m : py A) : io A := fun s =>
  match m s.1 with
  | (inl e, h') => (inl (FrameError e), (h', s.2))
  | (inr a, h') => (inr a, (h', s.2))
  end.

(** A call that may change the world. *)
Definition call {A : Type} (f : world → (E + A) * world) : io A := fun s =>
  match f s.2 with
  | (inl e, w') => (inl (LibraryError e), (s.1, w'))
  | (inr a, w') => (inr a, (s.1, w'))
  end.

(** A call that only looks at the world. *)
Definition ask {A : Type} (f : world → A) : io A := fun s => (inr (f s.2), s).

(** What [except Exception] catches. *)
Definition caught (e : exn E) : bool :=
  match e with
  | LibraryError e => is_Exception os e
  | _ => true
  end.

(** [try: m except Exception: pass] *)
Definition try_pass (m : io unit) : io unit := fun s =>
  match m s with
  | (inl e, s') => if caught e then (inr tt, s') else (inl e, s')
  | (inr a, s') => (inr a, s')
  end.

Definition _ensure_parent (path : pystr) : io unit :=
  let parent := os_path_dirname os path in
  match parent with
  | [] => mret tt
  | _ :: _ =>
      ex ← ask (os_path_exists os parent);
      if negb ex then call (os_makedirs os parent) else mret tt
  end.

Definition read_csv (path : pystr) : io loc :=
  f ← call (pd_read_csv os path);
  lift (alloc f).

Definition write_outputs (df : loc) (out_csv : pystr) : io unit :=
  _ensure_parent out_csv;;
  f ← lift (read df);
  call (df_to_csv os f out_csv);;
  try_pass (call (df_to_excel os f (str_replace (str ".csv") (str ".xlsx") out_csv))).

(** Lines 94-96. *)
Definition report (verbose : bool) (n_in n_out : nat) (out_path : pystr) : io unit :=
  if verbose then
    call (py_print os (report_rows n_in n_out));;
    call (py_print os (report_files out_path))
  else mret tt.

Definition run (in_path out_path : pystr) (keep_suffixes keep_norm_col verbose : bool)
    : io unit :=
  ex ← ask (os_path_exists os in_path);
  if negb ex then
    cwd ← ask (os_getcwd os);
    throw (FileNotFoundError (not_found_message in_path cwd))
  else
    df ← read_csv in_path;
    n_in ← lift (len df);
    df ← lift (add_normalised_column U df COMPANY_NAME (negb keep_suffixes));
    df ← lift (dedupe_by_normalised_name U df);
    n_out ← lift (len df);
    cols ← lift (columns_of df);
    df ← (if negb keep_norm_col && bool_decide (NORM_NAME ∈ cols)
          then lift (drop_columns df NORM_NAME)
          else mret df);
    write_outputs df out_path;;
    report verbose n_in n_out out_path.

End Run.

Arguments io : clear implicits.

(** The exceptions of the environment, as opposed to those [run] and the
    frame operations raise themselves. *)
Definition from_library {E A : Type} (r : exn E + A) : Prop :=
  match r with
  | inl (LibraryError _) | inr _ => True
  | inl _ => False
  end.

Definition frame0 : DataFrame :=
  {| df_index := range_index 3;
     df_data := [(COMPANY_NAME, [CStr (str "Acme Ltd"); CStr (str "ACME LIMITED"); CStr (str "Beta Inc")]);
                 (str "city", [CStr (str "Leeds"); CNaN; CStr (str "York")])] |}.

Definition store0 : store := {[ 1%positive := frame0 ]}.

(** A table with an empty name cell (NaN, as [read_csv] gives it) and a
    name that is only a suffix. *)
Definition frame_nan : DataFrame :=
  {| df_index := range_index 2;
     df_data := [(COMPANY_NAME, [CNaN; CStr (str "Ltd")])] |}.

(** A table whose names all normalise to the empty text. *)
Definition frame_empty : DataFrame :=
  {| df_index := range_index 3;
     df_data := [(COMPANY_NAME, [CStr (str "Ltd"); CStr (str "  "); CStr (str "P.L.C.")])] |}.

(** A table that comes with its own [_norm_name] column and has no
    [company_name]. *)
Definition frame_keyed : DataFrame :=
  {| df_index := [7; 8; 9]%Z;
     df_data := [(str "id", [CStr (str "a"); CStr (str "b"); CStr (str "c")]);
                 (NORM_NAME, [CNaN; CStr (str "X"); CNaN])] |}.


(** A table without the name column. *)
Definition frame_cities : DataFrame :=
  {| df_index := range_index 1;
     df_data := [(str "city", [CStr (str "Leeds")])] |}.

Definition flat_world : list (pystr * DataFrame) :=
  [(str "in.csv", frame0); (str "cities.csv", frame_cities)].

(** A world for the examples: a flat directory of tables, no Excel
    writer installed. *)
Definition flat_env : env (list (pystr * DataFrame)) unit :=
  {| os_path_exists := fun p w => bool_decide (p ∈ map fst w);
     os_path_dirname := fun _ => [];
     os_getcwd := fun _ => str "/";
     os_makedirs := fun _ w => (inr tt, w);
     pd_read_csv := fun p w =>
       match list_find (fun pf => pf.1 = p) w with
       | Some (_, (_, f)) => (inr f, w)
       | None => (inl tt, w)
       end;
     df_to_csv := fun f p w => (inr tt, (p, f) :: w);
     df_to_excel := fun _ _ w => (inl tt, w);
     py_print := fun _ w => (inr tt, w);
     is_Exception := fun _ => true |}.

(** ** Vocabulary of the statements *)

(** Position [i] holds the first occurrence of its key. *)
Definition first_occurrence {K : Type} (keys : list K) (i : nat) : Prop :=
  ∃ k, keys !! i = Some k ∧ ∀ j, j < i → keys !! j ≠ Some k.

(** The entries of [xs] at the positions [kept], in the order of [kept]. *)
Fixpoint select {A : Type} (kept : list nat) (xs : list A) : list A :=
  match kept with
  | [] => []
  | i :: rest =>
      match xs !! i with
      | Some x => x :: select rest xs
      | None => select rest xs
      end
  end.

(** The positions at which a mask is true, in increasing order. *)
Fixpoint true_positions (mask : list bool) : list nat :=
  match mask with
  | [] => []
  | b :: rest => (if b then [0] else []) ++ map S (true_positions rest)
  end.

(** Every column has one value per row label. *)
Definition rectangular (f : DataFrame) : Prop :=
  Forall (fun cx => length (snd cx) = df_len f) (df_data f).

(** A frame as pandas builds it from a CSV file: the column labels are
    pairwise distinct ([read_csv] renames a repeated label) and every
    column has one value per row label. *)
Definition well_formed (f : DataFrame) : Prop :=
  NoDup (df_columns f) ∧ rectangular f.

(** What the statements below assume of the tables outside ASCII, each
    a fact of the Unicode character database: the upper-case mapping of a
    code point that is not whitespace yields no whitespace; what it yields
    is itself unchanged by upper-casing; the ASCII characters it yields are
    capital letters; and it yields none of the three punctuation marks of
    line 28 unless it is applied to that mark. *)
Record unicode_ok (U : unicode_db) : Prop := UnicodeOk {
  upper_space : ∀ c d, (128 ≤ c)%N → isspace c = false → d ∈ upper_hi U c →
    isspace d = false;
  upper_fixed : ∀ c d, (128 ≤ c)%N → d ∈ upper_hi U c → toupper U d = [d];
  upper_ascii : ∀ c d, (128 ≤ c)%N → d ∈ upper_hi U c → (d < 128)%N →
    ascii_isupper d = true;
  upper_marks : ∀ c d, (128 ≤ c)%N → d ∈ upper_hi U c →
    d = 0x2019%N ∨ d = 0x2013%N ∨ d = 0x2014%N → d = c
}.

(** The three replacements of line 28. *)
Definition ascii_marks (s : pystr) : pystr :=
  replace 0x2014%N (chr "-") (replace 0x2013%N (chr "-") (replace 0x2019%N (chr "'") s)).

(** Further facts of the Unicode character database about the upper-case
    mapping outside ASCII: it never yields the empty text, and it leaves a
    whitespace character and each of the three punctuation marks of line 28
    as they are. *)
Record unicode_case_ok (U : unicode_db) : Prop := UnicodeCaseOk {
  upper_nonempty : ∀ c, (128 ≤ c)%N → upper_hi U c ≠ [];
  upper_of_space : ∀ c, (128 ≤ c)%N → isspace c = true → upper_hi U c = [c];
  upper_of_mark : ∀ c, c = 0x2019%N ∨ c = 0x2013%N ∨ c = 0x2014%N → upper_hi U c = [c]
}.

(** One space for every run of whitespace: [in_run] tells that the
    character before was whitespace. *)
Fixpoint squeeze (in_run : bool) (s : pystr) : pystr :=
  match s with
  | [] => []
  | c :: t =>
      if isspace c then (if in_run then squeeze true t else 32%N :: squeeze true t)
      else c :: squeeze false t
  end.

(** The length of the run of whitespace at the head of a text. *)
Fixpoint run_len (s : pystr) : nat :=
  match s with
  | c :: t => if isspace c then S (run_len t) else 0
  | [] => 0
  end.




(** A pattern without [\b] and [$]. *)
Definition boundary_free (p : pattern) : bool :=
  forallb (fun a => match a with WordB | WordBOrEnd => false | _ => true end) p.

(** The character before the position reached after the characters [l]. *)
Definition prev_after (prev : option codepoint) (l : pystr) : option codepoint :=
  match last l with
  | Some c => Some c
  | None => prev
  end.

(** Whitespace is written as the space character only. *)
Definition plain (c : codepoint) : Prop := isspace c = true → c = 32%N.



(** * Vocabulary over the Unicode tables *)

Section Vocabulary.

Context (U : unicode_db).

(** ** The frame with the canonical names *)

(** The frame [add_normalised_column] builds from [f]. *)
Definition with_norm_name (f : DataFrame) (xs : list cell) (k : bool) : DataFrame :=
  {| df_index := df_index f;
     df_data := set_col NORM_NAME (map (fun x => CStr (canonical U k x)) xs) (df_data f) |}.

(** ** Characters that are their own upper case *)

(** Upper-casing leaves the character as it is. *)
Definition fixedc (c : codepoint) : Prop := toupper U c = [c].

(** After line 29 every whitespace character is a space and every
    character is its own upper case; the later steps keep both. *)
Definition settled (c : codepoint) : Prop := plain c ∧ fixedc c.

(** ** The parenthesised group *)

Definition lparen : codepoint := chr "(".

Definition rparen : codepoint := chr ")".

(** What is left of the pattern of line 30 after its leading [\s*]. *)
Definition AFTER_STAR : pattern :=
  [Chr lparen; PlusGrp (NotChr rparen); Chr rparen; Star Space].

(** ** Tokens *)

(** The length of the run of word characters at the head of a text. *)
Fixpoint word_len (s : pystr) : nat :=
  match s with
  | c :: t => if isword U c then S (word_len t) else 0
  | [] => 0
  end.

(** The text starts with a word character. *)
Definition is_wordtok (t : pystr) : bool :=
  match t with
  | c :: _ => isword U c
  | [] => false
  end.




(** Replace the word tokens listed in [ws] by a space. *)
Definition blank (ws : list pystr) (t : pystr) : pystr :=
  if bool_decide (t ∈ ws) then space else t.

(** ** Suffix words *)

(** The run of word characters at the head of a text. *)
Definition token_at (s : pystr) : pystr := take (word_len s) s.

(** What follows the literal [w] at the head of [s]. *)
Fixpoint after_prefix (w s : pystr) : option pystr :=
  match w, s with
  | [], _ => Some s
  | c :: w', d :: s' => if (d =? c)%N then after_prefix w' s' else None
  | _ :: _, [] => None
  end.

(** A match found [n] characters further on. *)
Definition advance_by (n : nat) (r : matched) : matched :=
  match r with Some (m, g) => Some (n + m, g) | None => None end.

(** The letters of a pattern. *)
Definition word_of (p : pattern) : pystr :=
  omap (fun a => match a with Chr c => Some c | _ => None end) p.




(** ** Suffix bodies *)

(** The spellings of three letters that [X\.?Y\.?Z] matches, the
    optional full stop at the end apart. *)
Definition dotted_bodies (a b c : codepoint) : list pystr :=
  [[a; dot; b; dot; c]; [a; dot; b; c]; [a; b; dot; c]; [a; b; c]].

Definition is_opt (a : atom) : bool :=
  match a with Opt _ => true | _ => false end.

(** The bodies of a suffix pattern. *)
Definition bodies (p : pattern) : list pystr :=
  match word_of p with
  | [a; b; c] => if existsb is_opt p then dotted_bodies a b c else [[a; b; c]]
  | w => [w]
  end.

(** A body of [B] at the head of [s], after a character that is not a
    word character and before one that is not either. *)
Definition hit (B : list pystr) (pw : bool) (s : pystr) : Prop :=
  pw = false ∧ ∃ b rest, b ∈ B ∧ s = b ++ rest ∧ is_wordtok rest = false.

(** No body of [B] anywhere in [s]. *)
Fixpoint quiet (B : list pystr) (pw : bool) (s : pystr) : Prop :=
  match s with
  | [] => True
  | c :: t => ¬ hit B pw s ∧ quiet B (isword U c) t
  end.

(** A body starts and ends with a word character and is made of word
    characters and full stops. *)
Definition body_ok (b : pystr) : Prop :=
  is_wordtok b = true ∧
  (∃ c, last b = Some c ∧ isword U c = true) ∧
  Forall (fun c => isword U c = true ∨ c = dot) b.

(** A match is a body of [B], or such a body and the full stop after it. *)
Definition match_shape (B : list pystr) (p : pattern) : Prop :=
  ∀ prev s n g, re_match U p prev s = Some (n, g) →
    isword_opt U prev = false ∧
    ∃ b rest, b ∈ B ∧ s = b ++ rest ∧ is_wordtok rest = false ∧
      (n = length b ∨ (n = S (length b) ∧ head rest = Some dot)).

(** Where there is a body of [B] the pattern matches. *)
Definition match_complete (B : list pystr) (p : pattern) : Prop :=
  ∀ prev s, hit B (isword_opt U prev) s → re_match U p prev s ≠ None.

(** The pattern [\bX\.?Y\.?Z\.?(?:\b|$)]. *)
Definition DOTTED (a b c : codepoint) : pattern :=
  [WordB; Chr a; Opt dot; Chr b; Opt dot; Chr c; Opt dot; WordBOrEnd].

Section Calm.

Context (p : pattern) (B : list pystr).

(** Where the scan finds no match of [p] there is no body of [B]. *)
Fixpoint calm (prev : option codepoint) (s : pystr) : Prop :=
  match s with
  | [] => True
  | c :: t =>
      (re_match U p prev s = None → ¬ hit B (isword_opt U prev) s) ∧ calm (Some c) t
  end.

End Calm.

(** ** The canonical form *)

Definition underscore : codepoint := chr "_".

(** The characters line 39 strips. *)
Definition PUNCT : pystr := str " .,-_[]{}".

(** None of the three punctuation marks line 28 replaces. *)
Definition unmarked (c : codepoint) : Prop :=
  c ≠ 0x2019%N ∧ c ≠ 0x2013%N ∧ c ≠ 0x2014%N.



(** ** Pattern length *)

(** The atoms that take at least one character. *)
Fixpoint min_len (p : pattern) : nat :=
  match p with
  | [] => 0
  | a :: p' =>
      match a with Chr _ | Plus _ | PlusGrp _ => 1 | _ => 0 end + min_len p'
  end.

End Vocabulary.

(** * Proof automation *)

Ltac py_unfold :=
  unfold columns_of, df_copy, getitem, setitem, drop_duplicates, reset_index_drop,
    read, alloc, write, raise, mbind, py_bind, mret, py_ret.

Ltac bool_to_prop :=
  repeat match goal with
  | H : _ && _ = true |- _ => apply andb_true_iff in H; destruct H
  | H : _ || _ = true |- _ => apply orb_true_iff in H; destruct H
  | H : (_ <=? _)%N = true |- _ => apply N.leb_le in H
  | H : (_ <? _)%N = true |- _ => apply N.ltb_lt in H
  | H : (_ =? _)%N = true |- _ => apply N.eqb_eq in H
  | H : (_ <=? _)%N = false |- _ => apply N.leb_gt in H
  | H : (_ <? _)%N = false |- _ => apply N.ltb_ge in H
  | H : (_ =? _)%N = false |- _ => apply N.eqb_neq in H
  | H : negb _ = true |- _ => apply negb_true_iff in H
  | H : negb _ = false |- _ => apply negb_false_iff in H
  end.

(** Decide a fact about character classes by the ranges involved. *)
Ltac chars :=
  unfold ascii_upper, isspace, ascii_isalnum, ascii_isdigit, ascii_isupper, ascii_islower in *;
  repeat match goal with
  | |- context [if ?b then _ else _] => let E := fresh in destruct b eqn:E
  | H : context [if ?b then _ else _] |- _ => let E := fresh in destruct b eqn:E
  end;
  repeat match goal with
  | |- _ = false => apply not_true_iff_false; intros ?
  | H : _ = false |- _ => apply not_true_iff_false in H
  end;
  rewrite ?orb_true_iff, ?andb_true_iff, ?N.leb_le, ?N.ltb_lt, ?N.eqb_eq in *;
  lia.

(** * Properties *)

(** ** Columns *)

Lemma get_col_is_Some col data :
  col ∈ map fst data ↔ is_Some (get_col col data).
Proof.
  induction data as [|[c xs] rest IH]; simpl.
  - split; [intros H; inversion H | intros [x Hx]; discriminate].
  - destruct (decide (c = col)) as [->|Hne].
    + split; [eauto | intros _; left].
    + rewrite <- IH. split.
      * intros H. inversion H; subst; [congruence | assumption].
      * intros H. right. assumption.
Qed.

Lemma get_col_set_col_eq col vals data :
  get_col col (set_col col vals data) = Some vals.
Proof.
  induction data as [|[c xs] rest IH]; simpl.
  - destruct (decide (col = col)); congruence.
  - destruct (decide (c = col)) as [->|Hne]; simpl.
    + destruct (decide (col = col)); congruence.
    + destruct (decide (c = col)); congruence.
Qed.

Lemma get_col_set_col_ne col c vals data :
  c ≠ col → get_col c (set_col col vals data) = get_col c data.
Proof.
  intros Hne. induction data as [|[c' xs] rest IH]; simpl.
  - destruct (decide (col = c)); congruence.
  - destruct (decide (c' = col)) as [->|Hne']; simpl.
    + destruct (decide (col = c)); congruence.
    + destruct (decide (c' = c)); congruence.
Qed.

Lemma set_col_columns_present col vals data :
  col ∈ map fst data → map fst (set_col col vals data) = map fst data.
Proof.
  induction data as [|[c xs] rest IH]; simpl; intros Hin.
  - inversion Hin.
  - destruct (decide (c = col)) as [->|Hne]; simpl; [reflexivity|].
    f_equal. apply IH. inversion Hin; subst; [congruence | assumption].
Qed.

Lemma set_col_columns_absent col vals data :
  col ∉ map fst data → map fst (set_col col vals data) = map fst data ++ [col].
Proof.
  induction data as [|[c xs] rest IH]; simpl; intros Hin; [reflexivity|].
  destruct (decide (c = col)) as [->|Hne]; simpl.
  - exfalso. apply Hin. left.
  - f_equal. apply IH. intros H. apply Hin. right. assumption.
Qed.

(** ** Running the frame operations *)

Section DedupeFacts.

Context (U : unicode_db).

Lemma add_normalised_column_run (h : store) df f col k xs :
  h !! df = Some f →
  get_col col (df_data f) = Some xs →
  add_normalised_column U df col k h =
    (inr (fresh (dom h)), <[fresh (dom h) := with_norm_name U f xs k]> h).
Proof.
  intros Hdf Hcol.
  assert (Hin : col ∈ df_columns f) by (apply get_col_is_Some; eauto).
  unfold add_normalised_column. py_unfold. rewrite Hdf. simpl.
  rewrite (bool_decide_eq_true_2 _ Hin). simpl. rewrite Hdf. simpl.
  rewrite lookup_insert_eq. simpl. rewrite Hcol. simpl.
  rewrite lookup_insert_eq. simpl. rewrite insert_insert_eq.
  unfold with_norm_name, canonical. rewrite map_map. reflexivity.
Qed.

Lemma add_normalised_column_missing (h : store) df f col k :
  h !! df = Some f →
  col ∉ df_columns f →
  add_normalised_column U df col k h =
    (inl (ValueError (str "Missing required column: " ++ col)), h).
Proof.
  intros Hdf Hcol.
  unfold add_normalised_column. py_unfold. rewrite Hdf. simpl.
  rewrite (bool_decide_eq_false_2 _ Hcol). reflexivity.
Qed.

Lemma dedupe_by_normalised_name_run (h : store) df f keys :
  h !! df = Some f →
  get_col NORM_NAME (df_data f) = Some keys →
  let g := frame_take (first_mask [] keys) f in
  let h1 := <[fresh (dom h) := g]> h in
  dedupe_by_normalised_name U df h =
    (inr (fresh (dom h1)),
     <[fresh (dom h1) := {| df_index := range_index (df_len g); df_data := df_data g |}]> h1).
Proof.
  intros Hdf Hcol g h1.
  assert (Hin : NORM_NAME ∈ df_columns f) by (apply get_col_is_Some; eauto).
  unfold dedupe_by_normalised_name. py_unfold. rewrite Hdf. simpl.
  rewrite (bool_decide_eq_true_2 _ Hin). simpl. rewrite Hdf. simpl.
  rewrite Hcol. simpl. rewrite lookup_insert_eq. reflexivity.
Qed.

End DedupeFacts.

(** ** First occurrences *)


Lemma first_mask_true seen keys i :
  first_mask seen keys !! i = Some true ↔
  ∃ k, keys !! i = Some k ∧ (k ∉ seen) ∧ (∀ j, j < i → keys !! j ≠ Some k).
Proof.
  revert seen i. induction keys as [|k0 rest IH]; intros seen i; simpl.
  - split; [intros H; destruct i; discriminate | intros (k & H & _); destruct i; discriminate].
  - destruct (decide (k0 ∈ seen)) as [Hin|Hnin]; destruct i as [|i]; simpl.
    + split; [discriminate|]. intros (k & Hk & Hs & _). congruence.
    + rewrite IH. split; intros (k & Hk & Hs & Hj); exists k; repeat split; auto.
      * intros [|j] Hlt; simpl; [congruence | apply Hj; lia].
      * intros j Hlt. apply (Hj (S j)). lia.
    + split; [|reflexivity]. intros _. exists k0. repeat split; auto. intros j Hj. lia.
    + rewrite IH. split; intros (k & Hk & Hs & Hj); exists k.
      * repeat split; auto.
        -- intros Hin. apply Hs. right. assumption.
        -- intros [|j] Hlt; simpl; [|apply Hj; lia].
           intros [= ->]. apply Hs. left.
      * repeat split; auto.
        -- intros Hin. inversion Hin; subst; [|contradiction].
           apply (Hj 0); [lia | reflexivity].
        -- intros j Hlt. apply (Hj (S j)). lia.
Qed.

Lemma first_mask_first_occurrence keys i :
  first_mask [] keys !! i = Some true ↔ first_occurrence keys i.
Proof.
  rewrite first_mask_true. unfold first_occurrence.
  split; intros (k & Hk & H); exists k.
  - tauto.
  - repeat split; [assumption | intros Hin; inversion Hin | tauto].
Qed.

Lemma elem_of_true_positions mask i :
  i ∈ true_positions mask ↔ mask !! i = Some true.
Proof.
  revert i. induction mask as [|b rest IH]; intros i; simpl.
  - split; [intros H; inversion H | destruct i; discriminate].
  - rewrite elem_of_app, list_elem_of_fmap. destruct i as [|i]; simpl.
    + split.
      * intros [H|(j & Hj & _)]; [|discriminate].
        destruct b; [reflexivity | inversion H].
      * intros [= ->]. left. left.
    + rewrite <- IH. split.
      * intros [H|(j & [= <-] & Hj)]; [|assumption].
        destruct b; inversion H; subst. inversion H2.
      * intros H. right. eauto.
Qed.

Lemma true_positions_sorted mask : StronglySorted lt (true_positions mask).
Proof.
  induction mask as [|b rest IH]; simpl; [constructor|].
  assert (Hs : StronglySorted lt (map S (true_positions rest))).
  { clear -IH. induction IH as [|x l Hl IHl Hx]; simpl; constructor; [assumption|].
    rewrite Forall_fmap. eapply Forall_impl; [exact Hx|]. simpl. intros; lia. }
  destruct b; simpl; [|assumption].
  constructor; [assumption|]. rewrite Forall_fmap. apply Forall_forall. simpl. intros; lia.
Qed.

Lemma select_app {A : Type} ps qs (xs : list A) :
  select (ps ++ qs) xs = select ps xs ++ select qs xs.
Proof.
  induction ps as [|p ps IH]; simpl; [reflexivity|].
  rewrite IH. destruct (xs !! p); reflexivity.
Qed.

Lemma select_map_S {A : Type} ps (x : A) xs : select (map S ps) (x :: xs) = select ps xs.
Proof.
  induction ps as [|p ps IH]; [reflexivity|].
  cbn [map select]. rewrite IH. reflexivity.
Qed.

Lemma select_nil {A : Type} ps : select ps ([] : list A) = [].
Proof. induction ps as [|p ps IH]; simpl; [reflexivity|]. rewrite IH. destruct p; reflexivity. Qed.

Lemma take_mask_select {A : Type} mask (xs : list A) :
  take_mask mask xs = select (true_positions mask) xs.
Proof.
  revert xs. induction mask as [|b rest IH]; intros xs; simpl; [destruct xs; reflexivity|].
  destruct xs as [|x xs].
  - rewrite select_nil. reflexivity.
  - rewrite select_app, select_map_S, <- IH. destruct b; reflexivity.
Qed.

Lemma select_map {A B : Type} (g : A → B) kept xs :
  select kept (map g xs) = map g (select kept xs).
Proof.
  induction kept as [|i kept IH]; simpl; [reflexivity|].
  rewrite IH, list_lookup_fmap. destruct (xs !! i); reflexivity.
Qed.

Lemma length_select_le {A : Type} kept (xs : list A) : length (select kept xs) ≤ length kept.
Proof.
  induction kept as [|i kept IH]; simpl; [lia|].
  destruct (xs !! i); simpl; lia.
Qed.

Lemma length_take_mask_le {A : Type} mask (xs : list A) : length (take_mask mask xs) ≤ length xs.
Proof.
  revert xs. induction mask as [|b rest IH]; intros [|x xs]; simpl; try lia.
  specialize (IH xs). destruct b; simpl; lia.
Qed.

Lemma length_take_mask_eq {A B : Type} mask (xs : list A) (ys : list B) :
  length xs = length ys → length (take_mask mask xs) = length (take_mask mask ys).
Proof.
  revert xs ys. induction mask as [|b rest IH]; intros [|x xs] [|y ys]; simpl; try lia.
  intros H. specialize (IH xs ys). destruct b; simpl; lia.
Qed.

(** Keys kept by [first_mask] are pairwise distinct. *)
Lemma take_first_mask_NoDup seen keys :
  NoDup (take_mask (first_mask seen keys) keys) ∧
  ∀ k, k ∈ take_mask (first_mask seen keys) keys → k ∉ seen.
Proof.
  revert seen. induction keys as [|k0 rest IH]; intros seen; simpl.
  - split; [constructor | intros k H; inversion H].
  - destruct (decide (k0 ∈ seen)) as [Hin|Hnin]; simpl; [apply IH|].
    destruct (IH (k0 :: seen)) as [Hnd Hs]. split.
    + constructor; [|assumption]. intros H. apply (Hs _ H). left.
    + intros k Hk. inversion Hk; subst; [assumption|].
      intros Hin. apply (Hs k); [assumption | right; assumption].
Qed.

Lemma get_col_In c data ys : get_col c data = Some ys → (c, ys) ∈ data.
Proof.
  induction data as [|[c' zs] rest IH]; simpl; [discriminate|].
  destruct (decide (c' = c)) as [->|Hne].
  - intros [= ->]. left.
  - intros H. right. auto.
Qed.

Lemma set_col_NoDup col vals data :
  NoDup (map fst data) → NoDup (map fst (set_col col vals data)).
Proof.
  intros H. destruct (decide (col ∈ map fst data)) as [Hin|Hin].
  - rewrite set_col_columns_present; assumption.
  - rewrite set_col_columns_absent by assumption.
    apply NoDup_app. split; [assumption|]. split; [|apply NoDup_singleton].
    intros x Hx Hx'. apply list_elem_of_singleton in Hx'. subst x. contradiction.
Qed.

Lemma set_col_Forall (P : pystr * list cell → Prop) col vals data :
  (∀ c, P (c, vals)) → Forall P data → Forall P (set_col col vals data).
Proof.
  intros Hv. induction 1 as [|[c xs] rest Hc Hrest IH]; simpl.
  - constructor; [apply Hv | constructor].
  - destruct (decide (c = col)); constructor; auto.
Qed.

(** ** The frame operations *)

Section DedupeClaims.

Context (U : unicode_db).

Lemma fresh_loc_None (h : store) : h !! fresh (dom h) = None.
Proof. apply not_elem_of_dom. apply is_fresh. Qed.

Lemma with_norm_name_well_formed f col xs k :
  well_formed f → get_col col (df_data f) = Some xs →
  well_formed (with_norm_name U f xs k).
Proof.
  intros [Hnd Hrect] Hcol. split.
  - apply set_col_NoDup. exact Hnd.
  - unfold rectangular, with_norm_name, df_len. cbn [df_data df_index].
    apply set_col_Forall; [|exact Hrect].
    intros c. cbn [snd]. rewrite length_map.
    apply get_col_In in Hcol. unfold rectangular in Hrect.
    rewrite Forall_forall in Hrect. exact (Hrect _ Hcol).
Qed.

Lemma frame_take_well_formed mask f :
  well_formed f →
  well_formed {| df_index := range_index (length (take_mask mask (df_index f)));
                 df_data := map (fun '(c, ys) => (c, take_mask mask ys)) (df_data f) |}.
Proof.
  intros [Hnd Hrect]. split.
  - unfold df_columns. cbn [df_data]. rewrite map_map.
    rewrite (map_ext _ fst); [exact Hnd | intros [c ys]; reflexivity].
  - unfold rectangular, df_len. cbn [df_data df_index].
    unfold range_index. rewrite length_map, length_seq.
    apply Forall_map. unfold rectangular in Hrect.
    eapply Forall_impl; [exact Hrect|]. intros [c ys] Hlen. cbn [snd] in *.
    apply length_take_mask_eq. exact Hlen.
Qed.

(** C10: on a well-formed frame that has the name column,
    [add_normalised_column] leaves every object of the store as it was, its
    argument included, and returns a new well-formed frame with the row
    labels of the argument, every column other than [_norm_name] unchanged,
    and a [_norm_name] column holding the canonical name of each row: in
    place of a [_norm_name] column the argument already had, as a new last
    column otherwise. It raises nothing either way. *)
Theorem add_normalised_column_frame (h : store) df f col k xs :
  h !! df = Some f →
  well_formed f →
  get_col col (df_data f) = Some xs →
  ∃ out g h',
    add_normalised_column U df col k h = (inr out, h') ∧
    h !! out = None ∧
    h' !! out = Some g ∧
    well_formed g ∧
    (∀ l, l ≠ out → h' !! l = h !! l) ∧
    h' !! df = Some f ∧
    df_index g = df_index f ∧
    (∀ c, c ≠ NORM_NAME → get_col c (df_data g) = get_col c (df_data f)) ∧
    get_col NORM_NAME (df_data g) = Some (map (fun x => CStr (canonical U k x)) xs) ∧
    df_columns g =
      (if bool_decide (NORM_NAME ∈ df_columns f) then df_columns f
       else df_columns f ++ [NORM_NAME]).
Proof.
  intros Hdf Hwf Hcol.
  exists (fresh (dom h)), (with_norm_name U f xs k), (<[fresh (dom h) := with_norm_name U f xs k]> h).
  pose proof (fresh_loc_None h) as Hfresh.
  split; [apply add_normalised_column_run; assumption|].
  split; [assumption|].
  split; [apply lookup_insert_eq|].
  split; [apply (with_norm_name_well_formed f col); assumption|].
  split; [intros l Hl; rewrite lookup_insert_ne; [reflexivity | congruence]|].
  split; [rewrite lookup_insert_ne; [assumption | congruence]|].
  split; [reflexivity|].
  split; [intros c Hc; apply get_col_set_col_ne; assumption|].
  split; [apply get_col_set_col_eq|].
  unfold df_columns, with_norm_name. simpl. case_bool_decide as Hin.
  - apply set_col_columns_present. assumption.
  - apply set_col_columns_absent. assumption.
Qed.

(** C4: when the name column is not among the columns of the frame,
    [add_normalised_column] raises its [ValueError] and so does the
    pipeline; the store is left as it was, so no frame is produced. The
    condition reads the columns only: the rows play no part. *)
Theorem missing_column_raises (h : store) df f col k :
  h !! df = Some f →
  col ∉ df_columns f →
  add_normalised_column U df col k h =
    (inl (ValueError (str "Missing required column: " ++ col)), h) ∧
  dedupe U df col k h =
    (inl (ValueError (str "Missing required column: " ++ col)), h) ∧
  (col = COMPANY_NAME → NORM_NAME ∉ df_columns f →
   dedupe_by_normalised_name U df h =
     (inl (ValueError (str "Missing required column: " ++ col)), h)).
Proof.
  intros Hdf Hcol.
  pose proof (add_normalised_column_missing U h df f col k Hdf Hcol) as Hadd.
  split; [assumption|]. split.
  - unfold dedupe, mbind, py_bind. rewrite Hadd. reflexivity.
  - intros -> Hnorm. unfold dedupe_by_normalised_name. py_unfold. rewrite Hdf. simpl.
    rewrite (bool_decide_eq_false_2 _ Hnorm). simpl.
    rewrite (add_normalised_column_missing U h df f COMPANY_NAME true Hdf Hcol).
    reflexivity.
Qed.

(** The pipeline on a frame that has the name column. *)
Lemma dedupe_run (h : store) df f col k xs :
  h !! df = Some f →
  get_col col (df_data f) = Some xs →
  let keys := map (fun x => CStr (canonical U k x)) xs in
  let mask := first_mask [] keys in
  ∃ out h',
    dedupe U df col k h = (inr out, h') ∧
    h' !! out =
      Some {| df_index := range_index (length (take_mask mask (df_index f)));
              df_data := map (fun '(c, ys) => (c, take_mask mask ys))
                           (df_data (with_norm_name U f xs k)) |} ∧
    h' !! df = Some f.
Proof.
  intros Hdf Hcol keys mask.
  unfold dedupe, mbind, py_bind.
  rewrite (add_normalised_column_run U h df f col k xs Hdf Hcol).
  set (l1 := fresh (dom h)). set (f1 := with_norm_name U f xs k).
  set (h1 := <[l1 := f1]> h).
  assert (H1 : h1 !! l1 = Some f1) by apply lookup_insert_eq.
  assert (Hk : get_col NORM_NAME (df_data f1) = Some keys) by apply get_col_set_col_eq.
  rewrite (dedupe_by_normalised_name_run U h1 l1 f1 keys H1 Hk).
  eexists _, _. split; [reflexivity|]. split.
  - rewrite lookup_insert_eq. reflexivity.
  - pose proof (fresh_loc_None h) as F0. fold l1 in F0.
    set (h2 := <[fresh (dom h1) := frame_take (first_mask [] keys) f1]> h1).
    pose proof (fresh_loc_None h1) as F1.
    pose proof (fresh_loc_None h2) as F2.
    assert (h1 !! df = Some f).
    { unfold h1. rewrite lookup_insert_ne; [assumption | congruence]. }
    assert (h2 !! df = Some f).
    { unfold h2. rewrite lookup_insert_ne; [assumption | congruence]. }
    rewrite lookup_insert_ne; [assumption | congruence].
Qed.

Lemma get_col_map_values (F : list cell → list cell) c data :
  get_col c (map (fun '(c, ys) => (c, F ys)) data) = F <$> get_col c data.
Proof.
  induction data as [|[c' ys] rest IH]; simpl; [reflexivity|].
  destruct (decide (c' = c)); [reflexivity | assumption].
Qed.

Lemma take_mask_map {A B : Type} (g : A → B) mask xs :
  take_mask mask (map g xs) = map g (take_mask mask xs).
Proof.
  revert xs. induction mask as [|b rest IH]; intros [|x xs]; simpl; try reflexivity.
  rewrite IH. destruct b; reflexivity.
Qed.

Lemma length_select_eq {A : Type} kept (xs : list A) :
  (∀ i, i ∈ kept → i < length xs) → length (select kept xs) = length kept.
Proof.
  induction kept as [|i kept IH]; simpl; intros H; [reflexivity|].
  destruct (lookup_lt_is_Some_2 xs i) as [x Hx]; [apply H; left|].
  rewrite Hx. simpl. rewrite IH; [reflexivity|]. intros j Hj. apply H. right. assumption.
Qed.

Lemma first_occurrence_map_inj {A B : Type} (g : A → B) (xs : list A) i :
  (∀ x y, g x = g y → x = y) →
  first_occurrence (map g xs) i ↔ first_occurrence xs i.
Proof.
  intros Hinj. unfold first_occurrence. split.
  - intros (k & Hk & Hj). rewrite list_lookup_fmap in Hk.
    destruct (xs !! i) as [x|] eqn:Hx; [|discriminate]. injection Hk as <-.
    exists x. split; [reflexivity|]. intros j Hlt Hxj.
    apply (Hj j Hlt). rewrite list_lookup_fmap, Hxj. reflexivity.
  - intros (x & Hx & Hj). exists (g x). split.
    + rewrite list_lookup_fmap, Hx. reflexivity.
    + intros j Hlt. rewrite list_lookup_fmap.
      destruct (xs !! j) as [y|] eqn:Hy; [|discriminate].
      intros [= Heq]. apply Hinj in Heq. subst y. apply (Hj j Hlt Hy).
Qed.


(** C6: on a well-formed frame that has the name column, the frame the
    pipeline returns has at most as many rows as the input, and the
    canonical names in its [_norm_name] column, one per row, are pairwise
    distinct; they are the canonical names of the name column of the
    output (when that column is not [_norm_name] itself). *)
Theorem dedupe_cardinality_distinct (h : store) df f col k xs :
  h !! df = Some f →
  well_formed f →
  get_col col (df_data f) = Some xs →
  ∃ out g h' names,
    dedupe U df col k h = (inr out, h') ∧
    h' !! out = Some g ∧
    df_len g ≤ df_len f ∧
    get_col NORM_NAME (df_data g) = Some (map CStr names) ∧
    length names = df_len g ∧
    NoDup names ∧
    (col ≠ NORM_NAME →
     ∃ ys, get_col col (df_data g) = Some ys ∧ names = map (canonical U k) ys).
Proof.
  intros Hdf Hwf Hcol.
  assert (Hlen : length xs = df_len f).
  { destruct Hwf as [_ Hrect]. apply get_col_In in Hcol. unfold rectangular in Hrect.
    rewrite Forall_forall in Hrect. exact (Hrect _ Hcol). }
  destruct (dedupe_run h df f col k xs Hdf Hcol) as (out & h' & Hrun & Hout & _).
  set (keys := map (fun x => CStr (canonical U k x)) xs) in *.
  set (mask := first_mask [] keys) in *.
  eexists out, _, h', (take_mask mask (map (canonical U k) xs)).
  split; [exact Hrun|]. split; [exact Hout|].
  cbn [df_data df_index df_len]. split; [|split; [|split; [|split]]].
  - unfold df_len. cbn [df_index]. unfold range_index.
    rewrite length_map, length_seq. apply length_take_mask_le.
  - rewrite get_col_map_values. unfold with_norm_name. cbn [df_data].
    rewrite get_col_set_col_eq. simpl. fold keys. fold mask.
    rewrite <- take_mask_map. unfold keys. rewrite map_map. reflexivity.
  - unfold df_len. cbn [df_index]. unfold range_index.
    rewrite length_map, length_seq. apply length_take_mask_eq.
    rewrite length_map. exact Hlen.
  - destruct (take_first_mask_NoDup [] keys) as [Hnd _]. fold mask in Hnd.
    unfold keys in Hnd. rewrite <- (map_map (canonical U k) CStr) in Hnd.
    rewrite take_mask_map in Hnd.
    apply (NoDup_fmap_1 CStr). exact Hnd.
  - intros Hne. exists (take_mask mask xs). split.
    + rewrite get_col_map_values. unfold with_norm_name. cbn [df_data].
      rewrite get_col_set_col_ne by assumption. rewrite Hcol. reflexivity.
    + apply take_mask_map.
Qed.

End DedupeClaims.

(** ** Instances on the table of the specification *)

Lemma add_normalised_column_frame_witness :
  ∃ out g h',
    add_normalised_column ascii_db 1%positive COMPANY_NAME true store0 = (inr out, h') ∧
    store0 !! out = None ∧
    h' !! out = Some g ∧
    well_formed g ∧
    (∀ l, l ≠ out → h' !! l = store0 !! l) ∧
    h' !! 1%positive = Some frame0 ∧
    df_index g = df_index frame0 ∧
    (∀ c, c ≠ NORM_NAME → get_col c (df_data g) = get_col c (df_data frame0)) ∧
    get_col NORM_NAME (df_data g) =
      Some (map (fun x => CStr (canonical ascii_db true x))
              [CStr (str "Acme Ltd"); CStr (str "ACME LIMITED"); CStr (str "Beta Inc")]) ∧
    df_columns g =
      (if bool_decide (NORM_NAME ∈ df_columns frame0) then df_columns frame0
       else df_columns frame0 ++ [NORM_NAME]).
Proof.
  apply (add_normalised_column_frame ascii_db store0 1%positive frame0 COMPANY_NAME true).
  - reflexivity.
  - split; [apply (bool_decide_unpack _); vm_compute; exact I | repeat constructor].
  - reflexivity.
Defined.

Lemma missing_column_raises_witness :
  add_normalised_column ascii_db 1%positive (str "missing_field") true store0 =
    (inl (ValueError (str "Missing required column: " ++ str "missing_field")), store0) ∧
  dedupe ascii_db 1%positive (str "missing_field") true store0 =
    (inl (ValueError (str "Missing required column: " ++ str "missing_field")), store0) ∧
  (str "missing_field" = COMPANY_NAME → NORM_NAME ∉ df_columns frame0 →
   dedupe_by_normalised_name ascii_db 1%positive store0 =
     (inl (ValueError (str "Missing required column: " ++ str "missing_field")), store0)).
Proof.
  apply (missing_column_raises ascii_db store0 1%positive frame0 (str "missing_field") true).
  - reflexivity.
  - intros H. apply list_elem_of_In in H. simpl in H.
    destruct H as [H|[H|[]]]; discriminate H.
Defined.


Lemma dedupe_cardinality_distinct_witness :
  ∃ out g h' names,
    dedupe ascii_db 1%positive COMPANY_NAME true store0 = (inr out, h') ∧
    h' !! out = Some g ∧
    df_len g ≤ df_len frame0 ∧
    get_col NORM_NAME (df_data g) = Some (map CStr names) ∧
    length names = df_len g ∧
    NoDup names ∧
    (COMPANY_NAME ≠ NORM_NAME →
     ∃ ys, get_col COMPANY_NAME (df_data g) = Some ys ∧
           names = map (canonical ascii_db true) ys).
Proof.
  apply (dedupe_cardinality_distinct ascii_db store0 1%positive frame0 COMPANY_NAME true
           [CStr (str "Acme Ltd"); CStr (str "ACME LIMITED"); CStr (str "Beta Inc")]).
  - reflexivity.
  - split; [apply (bool_decide_unpack _); vm_compute; exact I | repeat constructor].
  - reflexivity.
Defined.

(** The first-occurrence example of the specification: the "Acme Ltd" row,
    then the "Beta Inc" row. *)
Example dedupe_example :
  ∃ out h',
    run_dedupe ascii_db 1%positive false store0 = (inr out, h') ∧
    h' !! out =
      Some {| df_index := [0; 1]%Z;
              df_data := [(COMPANY_NAME, [CStr (str "Acme Ltd"); CStr (str "Beta Inc")]);
                          (str "city", [CStr (str "Leeds"); CStr (str "York")]);
                          (NORM_NAME, [CStr (str "ACME"); CStr (str "BETA")])] |}.
Proof. eexists _, _. split; vm_compute; reflexivity. Qed.

(** Names that normalise to the empty text collapse into the first of
    them. *)
Example empty_names_collapse (U : unicode_db) :
  ∃ out h',
    run_dedupe U 1%positive false {[ 1%positive := frame_empty ]} = (inr out, h') ∧
    h' !! out =
      Some {| df_index := [0]%Z;
              df_data := [(COMPANY_NAME, [CStr (str "Ltd")]);
                          (NORM_NAME, [CStr [] ])] |}.
Proof. eexists _, _. split; vm_compute; reflexivity. Qed.

(** C3, on the code: a NaN name cell reaches the normaliser as the text
    "nan" and gets the canonical name "NAN", whatever the Unicode tables;
    it does not collapse with a row whose name normalises to the empty
    text. *)
Theorem nan_cell_is_not_empty (U : unicode_db) :
  canonical U true CNaN = str "NAN" ∧
  canonical U false CNaN = str "NAN" ∧
  canonical U true (CStr (str "Ltd")) = [] ∧
  ∃ out h',
    run_dedupe U 1%positive false {[ 1%positive := frame_nan ]} = (inr out, h') ∧
    h' !! out =
      Some {| df_index := [0; 1]%Z;
              df_data := [(COMPANY_NAME, [CNaN; CStr (str "Ltd")]);
                          (NORM_NAME, [CStr (str "NAN"); CStr [] ])] |}.
Proof.
  repeat split; try (vm_compute; reflexivity).
  eexists _, _. split; vm_compute; reflexivity.
Qed.

(** ** Characters *)

Lemma isspace_32 : isspace 32%N = true.
Proof. reflexivity. Qed.

Lemma ascii_db_ok : unicode_ok ascii_db.
Proof.
  split; simpl.
  - intros c d _ Hc Hd. apply list_elem_of_In in Hd. destruct Hd as [<-|[]]. assumption.
  - intros c d Hc Hd. apply list_elem_of_In in Hd. destruct Hd as [<-|[]].
    unfold toupper. simpl. destruct (N.ltb_spec c 128); [lia | reflexivity].
  - intros c d Hc Hd. apply list_elem_of_In in Hd. destruct Hd as [<-|[]]. lia.
  - intros c d Hc Hd. apply list_elem_of_In in Hd. destruct Hd as [<-|[]]. reflexivity.
Qed.

(** ** Stripping *)

Lemma last_rev_head {A : Type} (l : list A) : last (rev l) = head l.
Proof. destruct l as [|x l]; simpl; [reflexivity | apply last_snoc]. Qed.

Section Strip.

Context (p : codepoint → bool).

Lemma lstrip_Forall (P : codepoint → Prop) s : Forall P s → Forall P (lstrip p s).
Proof.
  induction 1 as [|c t Hc Ht IH]; simpl; [constructor|].
  destruct (p c); [assumption | constructor; assumption].
Qed.

Lemma rstrip_Forall (P : codepoint → Prop) s : Forall P s → Forall P (rstrip p s).
Proof.
  intros H. unfold rstrip. apply Forall_rev, lstrip_Forall, Forall_rev. assumption.
Qed.

Lemma head_lstrip s c : head (lstrip p s) = Some c → p c = false.
Proof.
  induction s as [|d t IH]; simpl; [discriminate|].
  destruct (p d) eqn:Hd; [assumption|]. simpl. intros [= <-]. assumption.
Qed.

Lemma lstrip_app_stop l c r : p c = false → lstrip p (l ++ c :: r) = lstrip p l ++ c :: r.
Proof.
  intros Hc. induction l as [|d l IH]; simpl.
  - rewrite Hc. reflexivity.
  - destruct (p d); [assumption | reflexivity].
Qed.

Lemma lstrip_all l : Forall (fun c => p c = true) l → lstrip p l = [].
Proof. induction 1 as [|c l Hc _ IH]; simpl; [reflexivity|]. rewrite Hc. assumption. Qed.

Lemma lstrip_id s : (∀ c, head s = Some c → p c = false) → lstrip p s = s.
Proof.
  destruct s as [|c t]; simpl; [reflexivity|]. intros H. rewrite (H c eq_refl). reflexivity.
Qed.

Lemma rstrip_snoc s c : rstrip p (s ++ [c]) = if p c then rstrip p s else s ++ [c].
Proof.
  unfold rstrip. rewrite rev_app_distr. simpl. destruct (p c); [reflexivity|].
  simpl. rewrite rev_involutive. reflexivity.
Qed.

Lemma rstrip_cons_stop c t : p c = false → rstrip p (c :: t) = c :: rstrip p t.
Proof.
  intros Hc. unfold rstrip. simpl. rewrite <- (app_nil_r (rev t ++ [c])), <- app_assoc. simpl.
  rewrite lstrip_app_stop by assumption. rewrite rev_app_distr. reflexivity.
Qed.

Lemma last_rstrip s c : last (rstrip p s) = Some c → p c = false.
Proof.
  unfold rstrip. rewrite last_rev_head. apply head_lstrip.
Qed.

Lemma rstrip_id s : (∀ c, last s = Some c → p c = false) → rstrip p s = s.
Proof.
  intros H. unfold rstrip. rewrite lstrip_id; [apply rev_involutive|].
  intros c Hc. apply H. rewrite <- (rev_involutive s), last_rev_head. assumption.
Qed.

Lemma head_rstrip_lstrip s c : head (rstrip p (lstrip p s)) = Some c → p c = false.
Proof.
  destruct (lstrip p s) as [|d t] eqn:Hs.
  - unfold rstrip. simpl. discriminate.
  - assert (Hd : p d = false) by (apply (head_lstrip s); rewrite Hs; reflexivity).
    rewrite rstrip_cons_stop by assumption. simpl. intros [= <-]. assumption.
Qed.

End Strip.

(** ** The matcher *)

Section Matcher.

Context (U : unicode_db).


(** The capture group is made of characters of the subject. *)
Lemma greedy_group (P : codepoint → Prop) cap k cont :
  (∀ prev s n g, Forall P s → cont prev s = Some (n, g) → Forall P g) →
  ∀ s prev n g, Forall P s → greedy cap k cont prev s = Some (n, g) → Forall P g.
Proof.
  intros Hcont. induction s as [|c t IH]; intros prev n g Hs; simpl.
  - apply Hcont. assumption.
  - destruct (in_cls k c); [|apply Hcont; assumption].
    destruct (greedy cap k cont (Some c) t) as [[m g']|] eqn:Hg; [|apply Hcont; assumption].
    inversion Hs; subst. specialize (IH _ _ _ H2 Hg).
    destruct cap; simpl; intros [= <- <-]; [constructor|]; assumption.
Qed.

Lemma re_match_group (P : codepoint → Prop) p :
  ∀ prev s n g, Forall P s → re_match U p prev s = Some (n, g) → Forall P g.
Proof.
  induction p as [|a p IH]; intros prev s n g Hs; simpl.
  - intros [= <- <-]. constructor.
  - destruct a as [c|c|k|k|k| |].
    + destruct s as [|d t]; [discriminate|]. destruct (d =? c)%N; [|discriminate].
      inversion Hs; subst.
      destruct (re_match U p (Some d) t) as [[m g']|] eqn:Hm; [|discriminate].
      simpl. intros [= <- <-]. eapply IH; eassumption.
    + destruct s as [|d t]; [apply IH; assumption|].
      destruct (d =? c)%N; [|apply IH; assumption].
      destruct (re_match U p (Some d) t) as [[m g']|] eqn:Hm; [|apply IH; assumption].
      simpl. intros [= <- <-]. inversion Hs; subst. eapply IH; eassumption.
    + apply greedy_group; assumption.
    + destruct s as [|d t]; [discriminate|]. destruct (in_cls k d); [|discriminate].
      destruct (greedy false k (re_match U p) (Some d) t) as [[m g']|] eqn:Hm; [|discriminate].
      simpl. intros [= <- <-]. inversion Hs; subst.
      eapply greedy_group; [exact IH | |exact Hm]. assumption.
    + destruct s as [|d t]; [discriminate|]. destruct (in_cls k d); [|discriminate].
      destruct (greedy true k (re_match U p) (Some d) t) as [[m g']|] eqn:Hm; [|discriminate].
      simpl. intros [= <- <-]. inversion Hs; subst. constructor; [assumption|].
      eapply greedy_group; [exact IH | |exact Hm]. assumption.
    + destruct (word_boundary U prev s); [apply IH; assumption | discriminate].
    + destruct (word_boundary U prev s || at_end s); [apply IH; assumption | discriminate].
Qed.

(** What [re.sub] returns is made of characters of the subject and of
    the replacements. *)
Lemma sub_from_Forall (P : codepoint → Prop) p repl :
  (∀ g, Forall P g → Forall P (repl g)) →
  ∀ s prev skip, Forall P s → Forall P (sub_from U p repl prev skip s).
Proof.
  intros Hrepl. induction s as [|c t IH]; intros prev skip Hs; simpl; [constructor|].
  inversion Hs; subst.
  destruct skip; [|apply IH; assumption].
  destruct (re_match U p prev (c :: t)) as [[[|n] g]|] eqn:Hm.
  - constructor; [assumption | apply IH; assumption].
  - apply Forall_app. split; [|apply IH; assumption].
    apply Hrepl. eapply re_match_group; [exact Hs | exact Hm].
  - constructor; [assumption | apply IH; assumption].
Qed.

Lemma re_sub_Forall (P : codepoint → Prop) p repl s :
  (∀ g, Forall P g → Forall P (repl g)) → Forall P s → Forall P (re_sub U p repl s).
Proof. intros. apply sub_from_Forall; assumption. Qed.

Lemma strip_suffix_patterns_Forall (P : codepoint → Prop) pats s :
  P 32%N → Forall P s → Forall P (strip_suffix_patterns U pats s).
Proof.
  intros H32. unfold strip_suffix_patterns. revert s.
  induction pats as [|pat pats IH]; intros s Hs; simpl; [assumption|].
  apply IH. apply re_sub_Forall; [|assumption].
  intros _ _. repeat constructor. assumption.
Qed.

(** *** Whitespace runs *)

Lemma greedy_ws prev s :
  greedy false Space (re_match U []) prev s = Some (run_len s, []).
Proof.
  revert prev. induction s as [|c t IH]; intros prev; simpl; [reflexivity|].
  destruct (isspace c); [|reflexivity]. rewrite IH. reflexivity.
Qed.


Lemma re_match_ws prev c t :
  re_match U WS_RUN prev (c :: t) = if isspace c then Some (S (run_len t), []) else None.
Proof.
  unfold WS_RUN. cbn [re_match in_cls]. destruct (isspace c); [|reflexivity].
  rewrite greedy_ws. reflexivity.
Qed.

Lemma sub_ws_squeeze s :
  ∀ prev,
    sub_from U WS_RUN (fun _ => space) prev 0 s = squeeze false s ∧
    sub_from U WS_RUN (fun _ => space) prev (run_len s) s = squeeze true s.
Proof.
  induction s as [|c t IH]; intros prev; [split; reflexivity|].
  assert (H0 : sub_from U WS_RUN (fun _ => space) prev 0 (c :: t) = squeeze false (c :: t)).
  { cbn [sub_from]. rewrite re_match_ws. simpl. destruct (isspace c).
    - destruct (IH (Some c)) as [_ ->]. reflexivity.
    - destruct (IH (Some c)) as [-> _]. reflexivity. }
  split; [exact H0|].
  simpl run_len. destruct (isspace c) eqn:Hc.
  - cbn [sub_from]. destruct (IH (Some c)) as [_ ->]. simpl. rewrite Hc. reflexivity.
  - rewrite H0. simpl. rewrite Hc. reflexivity.
Qed.

(** [re.sub(r"\s+", " ", s)] leaves one space for every run of whitespace. *)
Lemma re_sub_ws s : re_sub U WS_RUN (fun _ => space) s = squeeze false s.
Proof. apply sub_ws_squeeze. Qed.

End Matcher.

(** ** One space per run *)

Lemma squeeze_Forall (P : codepoint → Prop) b s :
  P 32%N → Forall P s → Forall P (squeeze b s).
Proof.
  intros H32 Hs. revert b. induction Hs as [|c t Hc Ht IH]; intros b; simpl; [constructor|].
  destruct (isspace c); [destruct b|]; try constructor; auto.
Qed.

Lemma squeeze_plain b s : Forall plain (squeeze b s).
Proof.
  revert b. induction s as [|c t IH]; intros b; simpl; [constructor|].
  destruct (isspace c) eqn:Hc; [destruct b|]; try constructor; auto.
  - intros _. reflexivity.
  - intros H. congruence.
Qed.






(** ** Upper case *)

Section Upper.

Context (U : unicode_db) (HU : unicode_ok U).

Lemma toupper_fixed c d : d ∈ toupper U c → fixedc U d.
Proof.
  unfold fixedc, toupper. destruct (N.ltb_spec c 128) as [Hc|Hc].
  - intros Hd. apply list_elem_of_In in Hd. destruct Hd as [<-|[]].
    assert (ascii_upper c < 128)%N by chars.
    destruct (N.ltb_spec (ascii_upper c) 128); [|lia].
    f_equal. unfold ascii_upper at 1.
    destruct (ascii_islower (ascii_upper c)) eqn:E; [exfalso; chars | reflexivity].
  - intros Hd. apply (upper_fixed U HU c d Hc Hd).
Qed.

Lemma toupper_plain c d : plain c → d ∈ toupper U c → plain d.
Proof.
  unfold toupper, plain. destruct (N.ltb_spec c 128) as [Hc|Hc].
  - intros Hp Hd. apply list_elem_of_In in Hd. destruct Hd as [<-|[]].
    intros Hs. destruct (ascii_islower c) eqn:El.
    + exfalso. chars.
    + unfold ascii_upper in *. rewrite El in *. auto.
  - intros Hp Hd Hs. destruct (isspace c) eqn:Ec.
    + specialize (Hp eq_refl). lia.
    + rewrite (upper_space U HU c d Hc Ec Hd) in Hs. discriminate.
Qed.

Lemma upper_Forall (P Q : codepoint → Prop) s :
  (∀ c d, P c → d ∈ toupper U c → Q d) → Forall P s → Forall Q (upper U s).
Proof.
  intros H. induction 1 as [|c t Hc Ht IH]; simpl; [constructor|].
  apply Forall_app. split; [|exact IH].
  apply Forall_forall. intros d Hd. eapply H; eauto.
Qed.

Lemma upper_id s : Forall (fixedc U) s → upper U s = s.
Proof.
  induction 1 as [|c t Hc Ht IH]; simpl; [reflexivity|].
  rewrite Hc. simpl. f_equal. exact IH.
Qed.

Lemma fixedc_32 : fixedc U 32%N.
Proof. reflexivity. Qed.


End Upper.

(** ** The shape of a canonical name *)

Section Shape.

Context (U : unicode_db) (HU : unicode_ok U).

Lemma settled_32 : settled U 32%N.
Proof. split; [intros _; reflexivity | reflexivity]. Qed.

Lemma settled_space : Forall (settled U) space.
Proof. repeat constructor; apply settled_32. Qed.

Lemma upper_squeeze_settled s : Forall (settled U) (upper U (squeeze false s)).
Proof.
  apply (upper_Forall U plain (settled U)); [|apply squeeze_plain].
  intros c d Hc Hd. split; [eapply toupper_plain | eapply toupper_fixed]; eauto.
Qed.

Lemma settled_not_space c : settled U c → inb (str " .,-_[]{}") c = false → isspace c = false.
Proof.
  intros [Hp _] Hin. destruct (isspace c) eqn:E; [|reflexivity].
  rewrite (Hp E) in Hin. discriminate.
Qed.



End Shape.



(** ** The scan of [re.sub] *)

Section Scan.

Context (U : unicode_db).

Lemma prev_after_nil prev : prev_after prev [] = prev.
Proof. reflexivity. Qed.

Lemma prev_after_cons prev c l : prev_after prev (c :: l) = prev_after (Some c) l.
Proof.
  unfold prev_after. rewrite last_cons. destruct (last l); reflexivity.
Qed.

(** Skipping [k] characters of a match resumes the scan after them. *)
Lemma sub_from_skip p repl k : ∀ s prev,
  sub_from U p repl prev k s =
  sub_from U p repl (prev_after prev (take k s)) 0 (drop k s).
Proof.
  induction k as [|k IH]; intros s prev.
  - rewrite take_0, drop_0. reflexivity.
  - destruct s as [|c t]; [reflexivity|].
    cbn [sub_from take drop]. rewrite IH, prev_after_cons. reflexivity.
Qed.

Lemma greedy_prev cap k cont :
  (∀ prev prev' s, cont prev s = cont prev' s) →
  ∀ s prev prev', greedy cap k cont prev s = greedy cap k cont prev' s.
Proof.
  intros Hc. induction s as [|c t IH]; intros prev prev'; simpl; [apply Hc|].
  destruct (in_cls k c); [|apply Hc].
  destruct (greedy cap k cont (Some c) t); [reflexivity | apply Hc].
Qed.

(** A pattern without [\b] and [$] does not look at the character before
    the position. *)
Lemma re_match_prev p :
  boundary_free p = true → ∀ prev prev' s, re_match U p prev s = re_match U p prev' s.
Proof.
  induction p as [|a p IH]; intros Hp prev prev' s; [reflexivity|].
  simpl in Hp. apply andb_true_iff in Hp. destruct Hp as [Ha Hp]. specialize (IH Hp).
  destruct a as [c|c|k|k|k| |]; try discriminate; simpl.
  - reflexivity.
  - destruct s as [|d t]; [apply IH|]. destruct (d =? c)%N; [|apply IH].
    destruct (re_match U p (Some d) t); [reflexivity | apply IH].
  - apply greedy_prev. exact IH.
  - reflexivity.
  - reflexivity.
Qed.

Lemma sub_from_prev p repl :
  boundary_free p = true →
  ∀ s k prev prev', sub_from U p repl prev k s = sub_from U p repl prev' k s.
Proof.
  intros Hp. induction s as [|c t IH]; intros k prev prev'; [reflexivity|].
  cbn [sub_from]. destruct k; [|reflexivity].
  rewrite (re_match_prev p Hp prev prev'). reflexivity.
Qed.

(** The scan, one step at a time, for such a pattern. *)
Lemma re_sub_cons p repl c t :
  boundary_free p = true →
  re_sub U p repl (c :: t) =
  match re_match U p None (c :: t) with
  | Some (S k, g) => repl g ++ re_sub U p repl (drop k t)
  | _ => c :: re_sub U p repl t
  end.
Proof.
  intros Hp. unfold re_sub. cbn [sub_from].
  destruct (re_match U p None (c :: t)) as [[[|k] g]|].
  - f_equal. apply sub_from_prev. exact Hp.
  - f_equal. rewrite sub_from_skip. apply sub_from_prev. exact Hp.
  - f_equal. apply sub_from_prev. exact Hp.
Qed.


End Scan.

(** ** Parenthesised groups *)

Section Unwrap.

Context (U : unicode_db).

Lemma after_star_head prev s : head s ≠ Some lparen → re_match U AFTER_STAR prev s = None.
Proof.
  destruct s as [|d t]; [reflexivity|]. simpl. intros H.
  destruct (N.eqb_spec d lparen); [subst; contradiction | reflexivity].
Qed.

(** No match where the whitespace at the position is not followed by an
    opening parenthesis. *)
Lemma paren_no_match prev s :
  head (lstrip isspace s) ≠ Some lparen → re_match U PAREN_GROUP prev s = None.
Proof.
  change (re_match U PAREN_GROUP prev s)
    with (greedy false Space (re_match U AFTER_STAR) prev s).
  revert prev. induction s as [|c t IH]; intros prev H.
  - reflexivity.
  - cbn [greedy in_cls]. simpl in H. destruct (isspace c) eqn:Hc.
    + rewrite (IH (Some c) H). apply after_star_head. simpl.
      intros [= ->]. discriminate.
    + apply after_star_head. exact H.
Qed.






Lemma head_lstrip_elem p s c : head (lstrip p s) = Some c → c ∈ s.
Proof.
  induction s as [|d t IH]; simpl; [discriminate|].
  destruct (p d).
  - intros H. right. auto.
  - simpl. intros [= <-]. left.
Qed.


Lemma lstrip_app_keep p l r :
  forallb p l = false → lstrip p (l ++ r) = lstrip p l ++ r.
Proof.
  induction l as [|c l IH]; simpl; [discriminate|].
  destruct (p c); simpl; [exact IH | reflexivity].
Qed.

Lemma forallb_rev {A : Type} (p : A → bool) l : forallb p (rev l) = forallb p l.
Proof.
  induction l as [|x l IH]; simpl; [reflexivity|].
  rewrite forallb_app, IH. simpl. rewrite andb_true_r. apply andb_comm.
Qed.

Lemma rstrip_cons_keep p c t :
  forallb p (c :: t) = false → rstrip p (c :: t) = c :: rstrip p t.
Proof.
  simpl. destruct (p c) eqn:Hc; simpl; intros H.
  - unfold rstrip. simpl. rewrite lstrip_app_keep by (rewrite forallb_rev; exact H).
    rewrite rev_app_distr. reflexivity.
  - apply rstrip_cons_stop. exact Hc.
Qed.

Lemma rstrip_all p l : forallb p l = true → rstrip p l = [].
Proof.
  intros H. unfold rstrip. rewrite lstrip_all; [reflexivity|].
  apply Forall_forall. intros c Hc. rewrite <- forallb_rev in H.
  rewrite forallb_forall in H. apply H. apply list_elem_of_In. exact Hc.
Qed.

Lemma boundary_free_paren : boundary_free PAREN_GROUP = true.
Proof. reflexivity. Qed.

(** A text without an opening parenthesis is left as it is. *)
Lemma unwrap_plain s : Forall (fun c => c ≠ lparen) s → unwrap_parens U s = s.
Proof.
  unfold unwrap_parens. induction 1 as [|c t Hc Ht IH]; [reflexivity|].
  rewrite re_sub_cons by reflexivity.
  rewrite paren_no_match; [rewrite IH; reflexivity|].
  intros H. apply head_lstrip_elem in H.
  assert (Hall : Forall (fun c => c ≠ lparen) (c :: t)) by (constructor; assumption).
  rewrite Forall_forall in Hall. apply (Hall _ H). reflexivity.
Qed.




End Unwrap.




(** ** Words

    A text reads as a sequence of tokens: the maximal runs of word
    characters, and every other character on its own. *)

Section Words.

Context (U : unicode_db).






Lemma space_not_word : isword U 32%N = false.
Proof. reflexivity. Qed.


Lemma blank_blank ws w t :
  w ≠ space → blank [w] (blank ws t) = blank (w :: ws) t.
Proof.
  intros Hw. unfold blank. destruct (decide (t ∈ ws)) as [Hin|Hnin].
  - rewrite (bool_decide_eq_true_2 _ Hin).
    rewrite bool_decide_eq_false_2 by (rewrite list_elem_of_singleton; congruence).
    rewrite bool_decide_eq_true_2 by (right; exact Hin). reflexivity.
  - rewrite (bool_decide_eq_false_2 _ Hnin). destruct (decide (t = w)) as [->|Hne].
    + rewrite !bool_decide_eq_true_2 by left. reflexivity.
    + rewrite bool_decide_eq_false_2 by (rewrite list_elem_of_singleton; congruence).
      rewrite bool_decide_eq_false_2; [reflexivity|].
      rewrite elem_of_cons. intros [?|?]; contradiction.
Qed.

End Words.

(** ** Suffix patterns on texts without a full stop *)

Section SuffixWords.

Context (U : unicode_db).

Lemma lits_match w p prev s :
  re_match U (map Chr w ++ p) prev s =
  match after_prefix w s with
  | Some rest => advance_by (length w) (re_match U p (prev_after prev w) rest)
  | None => None
  end.
Proof.
  revert prev s. induction w as [|c w IH]; intros prev s.
  - cbn [map app after_prefix length]. rewrite prev_after_nil.
    destruct (re_match U p prev s) as [[m g]|]; reflexivity.
  - cbn [map app re_match after_prefix]. destruct s as [|d t]; [reflexivity|].
    destruct (N.eqb_spec d c) as [->|Hne]; [|reflexivity].
    rewrite IH, prev_after_cons. destruct (after_prefix w t) as [rest|]; [|reflexivity].
    destruct (re_match U p (prev_after (Some c) w) rest) as [[m g]|]; reflexivity.
Qed.

Lemma after_prefix_Some w s rest : after_prefix w s = Some rest ↔ s = w ++ rest.
Proof.
  revert s. induction w as [|c w IH]; intros s; simpl.
  - split; [intros [= ->]; reflexivity | intros ->; reflexivity].
  - destruct s as [|d t]; [split; discriminate|].
    destruct (N.eqb_spec d c) as [->|Hne].
    + rewrite IH. split; [intros ->; reflexivity | intros [= ->]; reflexivity].
    + split; [discriminate | intros [= -> _]; contradiction].
Qed.

Lemma word_len_app w rest :
  Forall (fun c => isword U c = true) w → is_wordtok U rest = false →
  word_len U (w ++ rest) = length w.
Proof.
  intros Hw Hr. induction Hw as [|c w Hc Hw IH]; simpl.
  - destruct rest as [|d r]; [reflexivity|]. simpl in Hr |- *. rewrite Hr. reflexivity.
  - rewrite Hc, IH. reflexivity.
Qed.


Lemma after_token s : is_wordtok U (drop (word_len U s) s) = false.
Proof.
  induction s as [|c t IH]; simpl; [reflexivity|].
  destruct (isword U c) eqn:Hc; simpl; [exact IH | exact Hc].
Qed.

Lemma token_at_drop s : token_at U s ++ drop (word_len U s) s = s.
Proof. apply take_drop. Qed.

Lemma length_token_at s : length (token_at U s) = word_len U s.
Proof.
  unfold token_at. induction s as [|c t IH]; simpl; [reflexivity|].
  destruct (isword U c); simpl; [rewrite IH|]; reflexivity.
Qed.

(** A literal between two [\b] matches where the token at the position
    is the literal, and nowhere else. *)
Lemma plain_match w prev s :
  w ≠ [] → Forall (fun c => isword U c = true) w →
  re_match U ([WordB] ++ map Chr w ++ [WordB]) prev s =
  if negb (isword_opt U prev) && bool_decide (token_at U s = w)
  then Some (length w, []) else None.
Proof.
  intros Hne Hw.
  change (re_match U ([WordB] ++ map Chr w ++ [WordB]) prev s)
    with (if word_boundary U prev s then re_match U (map Chr w ++ [WordB]) prev s else None).
  rewrite lits_match.
  assert (Hlast : isword_opt U (prev_after prev w) = true).
  { unfold prev_after. destruct (last w) as [c|] eqn:Hl.
    - simpl. apply last_Some_elem_of in Hl. rewrite Forall_forall in Hw. auto.
    - apply last_None in Hl. contradiction. }
  destruct (after_prefix w s) as [rest|] eqn:Hp.
  - apply after_prefix_Some in Hp. subst s.
    assert (Hhead : isword_opt U (head (w ++ rest)) = true).
    { destruct w as [|c w]; [contradiction|]. simpl. inversion Hw; subst. assumption. }
    unfold word_boundary. rewrite Hhead.
    cbn [re_match]. unfold word_boundary. rewrite Hlast.
    destruct (isword_opt U (head rest)) eqn:Hr.
    + simpl. rewrite bool_decide_eq_false_2; [destruct (isword_opt U prev); reflexivity|].
      intros Heq. pose proof (after_token (w ++ rest)) as Ha.
      pose proof (length_token_at (w ++ rest)) as Hlen. rewrite Heq in Hlen.
      rewrite <- Hlen, drop_app_length in Ha.
      destruct rest as [|d r]; simpl in Hr, Ha; congruence.
    + simpl. rewrite bool_decide_eq_true_2.
      * destruct (isword_opt U prev); simpl; [reflexivity|].
        rewrite Nat.add_0_r. reflexivity.
      * unfold token_at. rewrite word_len_app; [apply take_app_length | assumption |].
        destruct rest as [|d r]; [reflexivity | exact Hr].
  - rewrite bool_decide_eq_false_2; [rewrite andb_false_r; destruct (word_boundary U prev s); reflexivity|].
    intros Heq. pose proof (token_at_drop s) as Hs. rewrite Heq in Hs.
    symmetry in Hs. apply after_prefix_Some in Hs. congruence.
Qed.


















End SuffixWords.

(** ** The order of the suffix patterns *)

Section Order.

Context (U : unicode_db) (HU : unicode_ok U).


Lemma replace_Forall (P : codepoint → Prop) a b s :
  P b → Forall P s → Forall P (replace a b s).
Proof.
  intros Hb Hs. unfold replace. apply Forall_fmap. eapply Forall_impl; [exact Hs|].
  intros c Hc. simpl. destruct (c =? a)%N; assumption.
Qed.



End Order.



(** ** Where a suffix pattern can match

    With full stops in the text a dotted pattern reads more than one
    token. What decides a match is the body at the position (the letters
    of the pattern, with or without the full stops between them), the
    character before it and the character after it. *)

Section Hits.

Context (U : unicode_db).

(** *** The plain patterns *)

Lemma token_at_app w rest :
  Forall (fun c => isword U c = true) w → is_wordtok U rest = false →
  token_at U (w ++ rest) = w.
Proof.
  intros Hw Hr. unfold token_at. rewrite word_len_app by assumption. apply take_app_length.
Qed.

Lemma plain_shape w :
  w ≠ [] → Forall (fun c => isword U c = true) w →
  match_shape U [w] ([WordB] ++ map Chr w ++ [WordB]).
Proof.
  intros Hne Hw prev s n g. rewrite plain_match by assumption.
  destruct (isword_opt U prev); [discriminate|]. simpl.
  case_bool_decide as Heq; [|discriminate]. intros [= <- <-].
  split; [reflexivity|]. exists w, (drop (word_len U s) s).
  split; [left|]. split; [rewrite <- Heq at 1; symmetry; apply token_at_drop|].
  split; [apply after_token | left; reflexivity].
Qed.

Lemma plain_complete w :
  w ≠ [] → Forall (fun c => isword U c = true) w →
  match_complete U [w] ([WordB] ++ map Chr w ++ [WordB]).
Proof.
  intros Hne Hw prev s (Hpw & b & rest & Hb & -> & Hrest).
  apply list_elem_of_singleton in Hb. subst b.
  rewrite plain_match by assumption. rewrite Hpw. simpl.
  rewrite bool_decide_eq_true_2 by (apply token_at_app; assumption). discriminate.
Qed.

(** *** The dotted patterns *)

Lemma chr_inv c p prev s n g :
  re_match U (Chr c :: p) prev s = Some (n, g) →
  ∃ t m, s = c :: t ∧ n = S m ∧ re_match U p (Some c) t = Some (m, g).
Proof.
  cbn [re_match]. destruct s as [|d t]; [discriminate|].
  destruct (N.eqb_spec d c) as [->|]; [|discriminate].
  destruct (re_match U p (Some c) t) as [[m g']|] eqn:Hm; [|discriminate].
  simpl. intros [= <- <-]. exists t, m. auto.
Qed.

Lemma opt_inv c p prev s n g :
  re_match U (Opt c :: p) prev s = Some (n, g) →
  (∃ t m, s = c :: t ∧ n = S m ∧ re_match U p (Some c) t = Some (m, g)) ∨
  re_match U p prev s = Some (n, g).
Proof.
  cbn [re_match]. destruct s as [|d t]; [auto|].
  destruct (N.eqb_spec d c) as [->|]; [|auto].
  destruct (re_match U p (Some c) t) as [[m g']|] eqn:Hm; [|auto].
  simpl. intros [= <- <-]. left. exists t, m. auto.
Qed.

Lemma chr_complete c p prev t :
  re_match U p (Some c) t ≠ None → re_match U (Chr c :: p) prev (c :: t) ≠ None.
Proof.
  cbn [re_match]. rewrite N.eqb_refl.
  destruct (re_match U p (Some c) t) as [[m g]|]; [discriminate | contradiction].
Qed.

Lemma opt_complete_take c p prev t :
  re_match U p (Some c) t ≠ None → re_match U (Opt c :: p) prev (c :: t) ≠ None.
Proof.
  cbn [re_match]. rewrite N.eqb_refl.
  destruct (re_match U p (Some c) t) as [[m g]|]; [discriminate | contradiction].
Qed.

Lemma opt_complete_skip c p prev s :
  re_match U p prev s ≠ None → re_match U (Opt c :: p) prev s ≠ None.
Proof.
  cbn [re_match]. destruct s as [|d t]; [auto|].
  destruct (d =? c)%N; [|auto].
  destruct (re_match U p (Some d) t) as [[m g]|]; [discriminate | auto].
Qed.

Lemma wordb_inv p prev s n g :
  re_match U (WordB :: p) prev s = Some (n, g) →
  word_boundary U prev s = true ∧ re_match U p prev s = Some (n, g).
Proof.
  cbn [re_match]. destruct (word_boundary U prev s); [auto | discriminate].
Qed.

Lemma wordb_complete p prev s :
  word_boundary U prev s = true → re_match U p prev s ≠ None →
  re_match U (WordB :: p) prev s ≠ None.
Proof. cbn [re_match]. intros ->. auto. Qed.

Lemma dot_not_word : isword U dot = false.
Proof. reflexivity. Qed.

(** After the last letter: an optional full stop, then [\b] or [$]. *)
Lemma tail_inv c s n g :
  isword U c = true →
  re_match U [Opt dot; WordBOrEnd] (Some c) s = Some (n, g) →
  is_wordtok U s = false ∧ (n = 0 ∨ (n = 1 ∧ head s = Some dot)).
Proof.
  intros Hc H. apply opt_inv in H. destruct H as [(t & m & -> & -> & H)|H].
  - split; [apply dot_not_word|]. cbn [re_match] in H.
    destruct (word_boundary U (Some dot) t || at_end t); [|discriminate].
    injection H as <- <-. right. auto.
  - cbn [re_match] in H. unfold word_boundary in H. simpl in H. rewrite Hc in H.
    destruct s as [|d [|e r]]; simpl in *.
    + injection H as <- <-. auto.
    + destruct (isword U d) eqn:Hd; simpl in H.
      * destruct (N.eqb_spec d 10) as [->|]; [discriminate Hd | discriminate H].
      * injection H as <- <-. auto.
    + rewrite orb_false_r in H. destruct (isword U d); simpl in H; [discriminate|].
      injection H as <- <-. auto.
Qed.

Lemma tail_complete c s :
  isword U c = true → is_wordtok U s = false →
  re_match U [Opt dot; WordBOrEnd] (Some c) s ≠ None.
Proof.
  intros Hc Hs. apply opt_complete_skip. cbn [re_match]. unfold word_boundary. simpl.
  rewrite Hc. destruct s as [|d r]; simpl in *; [discriminate|]. rewrite Hs. discriminate.
Qed.

Lemma dotted_shape a b c :
  isword U a = true → isword U b = true → isword U c = true →
  match_shape U (dotted_bodies a b c) (DOTTED a b c).
Proof.
  intros Ha Hb Hc prev s n g H. unfold DOTTED in H.
  apply wordb_inv in H. destruct H as [Hwb H].
  apply chr_inv in H. destruct H as (s1 & n1 & -> & -> & H).
  unfold word_boundary in Hwb. simpl in Hwb. rewrite Ha in Hwb.
  split; [destruct (isword_opt U prev); [discriminate | reflexivity]|].
  assert (Hnd : ∀ x, isword U x = true → x ≠ dot).
  { intros x Hx ->. rewrite dot_not_word in Hx. discriminate. }
  unfold dotted_bodies.
  apply opt_inv in H. destruct H as [(s2 & n2 & -> & -> & H)|H];
    apply chr_inv in H; destruct H as (s3 & n3 & -> & -> & H);
    (apply opt_inv in H; destruct H as [(s4 & n4 & -> & -> & H)|H];
     apply chr_inv in H; destruct H as (s5 & n5 & -> & -> & H));
    destruct (tail_inv c _ _ _ Hc H) as [Hw Hn].
  - exists [a; dot; b; dot; c], s5. rewrite !elem_of_cons. repeat split; auto.
    simpl. destruct Hn as [->|[-> Hd]]; auto.
  - exists [a; dot; b; c], s5. rewrite !elem_of_cons. repeat split; auto.
    simpl. destruct Hn as [->|[-> Hd]]; auto.
  - exists [a; b; dot; c], s5. rewrite !elem_of_cons. repeat split; auto.
    simpl. destruct Hn as [->|[-> Hd]]; auto.
  - exists [a; b; c], s5. rewrite !elem_of_cons. repeat split; auto.
    simpl. destruct Hn as [->|[-> Hd]]; auto.
Qed.

Lemma dotted_complete a b c :
  isword U a = true → isword U b = true → isword U c = true →
  match_complete U (dotted_bodies a b c) (DOTTED a b c).
Proof.
  intros Ha Hb Hc prev s (Hpw & body & rest & Hbody & -> & Hrest).
  unfold DOTTED.
  assert (Hwb : ∀ r, word_boundary U prev (a :: r) = true).
  { intros r. unfold word_boundary. simpl. rewrite Hpw, Ha. reflexivity. }
  unfold dotted_bodies in Hbody. rewrite !elem_of_cons in Hbody.
  destruct Hbody as [->|[->|[->|[->|Hnil]]]]; [| | | |inversion Hnil];
    cbn [app]; (apply wordb_complete; [apply Hwb|]); apply chr_complete.
  - apply opt_complete_take, chr_complete, opt_complete_take, chr_complete.
    apply tail_complete; assumption.
  - apply opt_complete_take, chr_complete, opt_complete_skip, chr_complete.
    apply tail_complete; assumption.
  - apply opt_complete_skip, chr_complete, opt_complete_take, chr_complete.
    apply tail_complete; assumption.
  - apply opt_complete_skip, chr_complete, opt_complete_skip, chr_complete.
    apply tail_complete; assumption.
Qed.

Lemma dotted_bodies_ok a b c :
  isword U a = true → isword U b = true → isword U c = true →
  Forall (body_ok U) (dotted_bodies a b c).
Proof.
  intros Ha Hb Hc. unfold dotted_bodies.
  assert (Hbody : ∀ l, Forall (fun x => isword U x = true ∨ x = dot) (a :: l ++ [c]) →
                       body_ok U (a :: l ++ [c])).
  { intros l Hl. split; [exact Ha | split; [|exact Hl]].
    exists c. split; [|exact Hc].
    change (a :: l ++ [c]) with ((a :: l) ++ [c]). apply last_snoc. }
  repeat match goal with
  | |- Forall (body_ok U) (_ :: _) => constructor
  | |- Forall (body_ok U) [] => constructor
  end.
  - apply (Hbody [dot; b; dot]). cbn [app].
    constructor; [left; assumption|]. constructor; [right; reflexivity|].
    constructor; [left; assumption|]. constructor; [right; reflexivity|].
    constructor; [left; assumption|]. constructor.
  - apply (Hbody [dot; b]). cbn [app].
    constructor; [left; assumption|]. constructor; [right; reflexivity|].
    constructor; [left; assumption|].
    constructor; [left; assumption|]. constructor.
  - apply (Hbody [b; dot]). cbn [app].
    constructor; [left; assumption|].
    constructor; [left; assumption|]. constructor; [right; reflexivity|].
    constructor; [left; assumption|]. constructor.
  - apply (Hbody [b]). cbn [app].
    constructor; [left; assumption|].
    constructor; [left; assumption|].
    constructor; [left; assumption|]. constructor.
Qed.

Lemma word_body_ok b :
  b ≠ [] → Forall (fun c => isword U c = true) b → body_ok U b.
Proof.
  intros Hne Hb. destruct b as [|c b]; [contradiction|]. split; [|split].
  - inversion Hb; subst. assumption.
  - destruct (last (c :: b)) as [d|] eqn:Hl.
    + exists d. split; [reflexivity|]. apply last_Some_elem_of in Hl.
      rewrite Forall_forall in Hb. auto.
    + apply last_None in Hl. discriminate.
  - eapply Forall_impl; [exact Hb|]. auto.
Qed.

(** *** Every suffix pattern *)

Lemma suffix_bodies p :
  p ∈ _SUFFIX_PATTERNS →
  match_shape U (bodies p) p ∧ match_complete U (bodies p) p ∧ Forall (body_ok U) (bodies p).
Proof.
  intros Hp. unfold _SUFFIX_PATTERNS, _SUFFIXES in Hp.
  repeat (apply elem_of_cons in Hp as [->|Hp]);
    try (split; [apply plain_shape | split; [apply plain_complete |]];
         [discriminate | repeat constructor | discriminate | repeat constructor |];
         repeat constructor; apply word_body_ok; [discriminate | repeat constructor]);
    try (split; [apply dotted_shape | split; [apply dotted_complete | apply dotted_bodies_ok]];
         reflexivity).
  inversion Hp.
Qed.

End Hits.

(** ** One suffix removal and the bodies left in the text *)

Section ScanQuiet.

Context (U : unicode_db).
Context (p : pattern) (Bp : list pystr).
Context (Hshape : match_shape U Bp p) (Hbp : Forall (body_ok U) Bp).
Context (B : list pystr) (HB : Forall (body_ok U) B).

Lemma body_head b : body_ok U b → ∃ c b', b = c :: b' ∧ isword U c = true.
Proof.
  intros (Hh & _ & _). destruct b as [|c b']; [discriminate|]. eauto.
Qed.

Lemma body_no_space b : body_ok U b → Forall (fun c => c ≠ 32%N) b.
Proof.
  intros (_ & _ & Hall). eapply Forall_impl; [exact Hall|].
  intros c [Hc | Hc] Heq; subst; discriminate.
Qed.

Lemma body_prev_after b prev : body_ok U b → isword_opt U (prev_after prev b) = true.
Proof.
  intros (_ & (c & Hl & Hc) & _). unfold prev_after. rewrite Hl. exact Hc.
Qed.

Lemma match_head prev s n g :
  re_match U p prev s = Some (n, g) →
  isword_opt U prev = false ∧ is_wordtok U s = true ∧ n ≠ 0.
Proof.
  intros H. destruct (Hshape prev s n g H) as (Hprev & b & rest & Hb & -> & Hrest & Hn).
  rewrite Forall_forall in Hbp. destruct (body_head b (Hbp b Hb)) as (c & b' & -> & Hc).
  repeat split; [assumption | exact Hc |].
  destruct Hn as [->|[-> _]]; discriminate.
Qed.

Lemma match_end prev c t k g :
  re_match U p prev (c :: t) = Some (S k, g) →
  isword_opt U (prev_after (Some c) (take k t)) = true →
  is_wordtok U (drop k t) = false.
Proof.
  intros H Hlast.
  destruct (Hshape prev _ _ g H) as (Hprev & b & rest & Hb & Heq & Hrest & Hn).
  rewrite Forall_forall in Hbp. destruct (body_head b (Hbp b Hb)) as (c' & b' & -> & Hc).
  injection Heq as <- ->. destruct Hn as [Hn|[Hn Hd]].
  - simpl in Hn. injection Hn as ->. rewrite drop_app_length. exact Hrest.
  - simpl in Hn. injection Hn as ->. destruct rest as [|d r]; [discriminate|].
    injection Hd as ->. exfalso.
    replace (take (S (length b')) (b' ++ dot :: r)) with (b' ++ [dot]) in Hlast.
    + unfold prev_after in Hlast. rewrite last_snoc in Hlast. discriminate Hlast.
    + change (dot :: r) with ([dot] ++ r). rewrite app_assoc.
      rewrite take_app_length'; [reflexivity|]. rewrite length_app. simpl. lia.
Qed.

(** The text before a replacement is copied: what the result starts with,
    up to the first space, the subject starts with. *)
Lemma sub_prefix b : ∀ s prev rest',
  Forall (fun c => c ≠ 32%N) b →
  sub_from U p (fun _ => space) prev 0 s = b ++ rest' →
  ∃ rest, s = b ++ rest ∧
          rest' = sub_from U p (fun _ => space) (prev_after prev b) 0 rest.
Proof.
  induction b as [|x b IH]; intros s prev rest' Hb Hs.
  - exists s. split; [reflexivity | exact (eq_sym Hs)].
  - inversion Hb as [|? ? Hx Hb']; subst.
    destruct s as [|c t]; [discriminate|]. cbn [sub_from] in Hs.
    destruct (re_match U p prev (c :: t)) as [[[|k] g]|] eqn:Hm.
    + injection Hs as <- Hs. destruct (IH _ _ _ Hb' Hs) as (rest & -> & ->).
      exists rest. rewrite prev_after_cons. auto.
    + injection Hs as <- _. contradiction.
    + injection Hs as <- Hs. destruct (IH _ _ _ Hb' Hs) as (rest & -> & ->).
      exists rest. rewrite prev_after_cons. auto.
Qed.

Lemma sub_head_other prev s :
  is_wordtok U s = false →
  is_wordtok U (sub_from U p (fun _ => space) prev 0 s) = false.
Proof.
  destruct s as [|d r]; [reflexivity|]. intros Hd. cbn [sub_from].
  destruct (re_match U p prev (d :: r)) as [[[|k] g]|] eqn:Hm; try exact Hd.
  destruct (match_head _ _ _ _ Hm) as (_ & Hw & _). congruence.
Qed.

Lemma sub_after_word prev s :
  isword_opt U prev = true →
  is_wordtok U (sub_from U p (fun _ => space) prev 0 s) = false →
  is_wordtok U s = false.
Proof.
  intros Hprev. destruct s as [|d r]; [reflexivity|]. cbn [sub_from].
  destruct (re_match U p prev (d :: r)) as [[[|k] g]|] eqn:Hm; try (intros H; exact H).
  destruct (match_head _ _ _ _ Hm) as (Hp & _ & _). congruence.
Qed.

(** A body in the result was a body in the subject. *)
Lemma hit_reflect prev s :
  hit U B (isword_opt U prev) (sub_from U p (fun _ => space) prev 0 s) →
  hit U B (isword_opt U prev) s.
Proof.
  intros (Hpw & b & rest' & Hb & Heq & Hrest).
  rewrite Forall_forall in HB. pose proof (HB b Hb) as Hok.
  destruct (sub_prefix b s prev rest' (body_no_space b Hok) Heq) as (rest & -> & ->).
  split; [exact Hpw|]. exists b, rest. repeat split; [exact Hb|].
  eapply sub_after_word; [|exact Hrest]. apply body_prev_after. exact Hok.
Qed.

Lemma quiet_head_other pw pw' s :
  is_wordtok U s = false → quiet U B pw s → quiet U B pw' s.
Proof.
  destruct s as [|d t]; [auto|]. simpl. intros Hd [_ Ht]. split; [|exact Ht].
  intros (_ & b & rest & Hb & Heq & _).
  rewrite Forall_forall in HB. destruct (body_head b (HB b Hb)) as (c & b' & -> & Hc).
  injection Heq as ->. congruence.
Qed.

Lemma calm_drop k : ∀ s prev,
  calm U p B prev s → calm U p B (prev_after prev (take k s)) (drop k s).
Proof.
  induction k as [|k IH]; intros s prev Hs.
  - rewrite take_0, drop_0. exact Hs.
  - destruct s as [|c t]; [exact I|]. cbn [take drop]. rewrite prev_after_cons.
    apply IH. apply Hs.
Qed.

(** After the scan there is no body of [B] where there was none before,
    and none where the scan found no match. *)
Lemma scan_quiet n : ∀ s prev,
  length s ≤ n → calm U p B prev s →
  quiet U B (isword_opt U prev) (sub_from U p (fun _ => space) prev 0 s).
Proof.
  induction n as [|n IH]; intros s prev Hlen Hcalm.
  - destruct s; [exact I | simpl in Hlen; lia].
  - destruct s as [|c t]; [exact I|]. simpl in Hlen.
    pose proof (hit_reflect prev (c :: t)) as Hrefl.
    cbn [sub_from] in *. destruct Hcalm as [Hhere Hcalm].
    destruct (re_match U p prev (c :: t)) as [[[|k] g]|] eqn:Hm.
    + destruct (match_head _ _ _ _ Hm) as (_ & _ & Hn). contradiction.
    + rewrite sub_from_skip. split.
      * intros (_ & b & rest & Hb & Heq & _).
        rewrite Forall_forall in HB. destruct (body_head b (HB b Hb)) as (x & b' & -> & Hx).
        injection Heq as <- _. discriminate Hx.
      * change (isword U 32%N) with false.
        assert (Hq : quiet U B (isword_opt U (prev_after (Some c) (take k t)))
                       (sub_from U p (fun _ => space) (prev_after (Some c) (take k t)) 0
                          (drop k t))).
        { apply IH; [rewrite length_drop; lia | apply calm_drop; exact Hcalm]. }
        destruct (isword_opt U (prev_after (Some c) (take k t))) eqn:Hlast; [|exact Hq].
        eapply quiet_head_other; [|exact Hq].
        apply sub_head_other. eapply match_end; eassumption.
    + split; [|apply (IH t (Some c)); [lia | exact Hcalm]].
      intros Hhit. apply (Hhere eq_refl). apply Hrefl. exact Hhit.
Qed.

Lemma quiet_calm s : ∀ prev, quiet U B (isword_opt U prev) s → calm U p B prev s.
Proof.
  induction s as [|c t IH]; intros prev; [auto|]. simpl. intros [Hh Ht].
  split; [intros _; exact Hh | apply IH; exact Ht].
Qed.

(** The removal of [p] leaves no body of [B] where there was none. *)
Lemma re_sub_keeps_quiet s :
  quiet U B false s → quiet U B false (re_sub U p (fun _ => space) s).
Proof.
  intros Hq. apply (scan_quiet (length s) s None (le_n _)).
  apply quiet_calm. exact Hq.
Qed.

End ScanQuiet.

(** ** The suffix loop leaves no suffix behind *)

Section Stable.

Context (U : unicode_db).

Lemma complete_calm p B :
  match_complete U B p → ∀ s prev, calm U p B prev s.
Proof.
  intros Hc. induction s as [|c t IH]; intros prev; [exact I|]. split; [|apply IH].
  intros Hnone Hhit. apply (Hc prev (c :: t) Hhit). exact Hnone.
Qed.

(** The removal of a suffix pattern leaves none of its own bodies. *)
Lemma re_sub_makes_quiet p s :
  p ∈ _SUFFIX_PATTERNS → quiet U (bodies p) false (re_sub U p (fun _ => space) s).
Proof.
  intros Hp. destruct (suffix_bodies U p Hp) as (Hshape & Hcomplete & Hok).
  apply (scan_quiet U p (bodies p) Hshape Hok (bodies p) Hok (length s) s None (le_n _)).
  apply complete_calm. exact Hcomplete.
Qed.

Lemma re_sub_suffix_keeps_quiet p q s :
  p ∈ _SUFFIX_PATTERNS → q ∈ _SUFFIX_PATTERNS →
  quiet U (bodies q) false s → quiet U (bodies q) false (re_sub U p (fun _ => space) s).
Proof.
  intros Hp Hq. destruct (suffix_bodies U p Hp) as (Hshape & _ & Hok).
  destruct (suffix_bodies U q Hq) as (_ & _ & Hokq).
  apply (re_sub_keeps_quiet U p (bodies p) Hshape Hok (bodies q) Hokq).
Qed.

(** After the loop no pattern of the loop has a body left in the text. *)
Lemma strip_suffix_quiet pats : ∀ s q,
  Forall (fun p => p ∈ _SUFFIX_PATTERNS) pats →
  q ∈ _SUFFIX_PATTERNS →
  q ∈ pats ∨ quiet U (bodies q) false s →
  quiet U (bodies q) false (strip_suffix_patterns U pats s).
Proof.
  unfold strip_suffix_patterns.
  induction pats as [|p pats IH]; intros s q Hpats Hq Hcase.
  - destruct Hcase as [Hin|Hquiet]; [inversion Hin | exact Hquiet].
  - inversion Hpats as [|? ? Hp Hrest]; subst. cbn [fold_left].
    apply IH; [assumption | assumption |].
    destruct Hcase as [Hin|Hquiet].
    + apply elem_of_cons in Hin. destruct Hin as [->|Hin]; [|left; exact Hin].
      right. apply re_sub_makes_quiet. exact Hp.
    + right. apply re_sub_suffix_keeps_quiet; assumption.
Qed.



End Stable.

(** ** Trimming and squeezing keep a text free of bodies *)

Section Trim.

Context (U : unicode_db) (B : list pystr) (HB : Forall (body_ok U) B).

Lemma hit_head pw s : hit U B pw s → is_wordtok U s = true.
Proof.
  intros (_ & b & rest & Hb & -> & _). rewrite Forall_forall in HB.
  destruct (body_head U b (HB b Hb)) as (c & b' & -> & Hc). exact Hc.
Qed.

Lemma quiet_lstrip p s :
  (∀ c, c ∈ s → p c = true → isword U c = false) →
  quiet U B false s → quiet U B false (lstrip p s).
Proof.
  induction s as [|c t IH]; intros Hp Hq; [exact I|]. simpl lstrip.
  destruct (p c) eqn:Hc; [|exact Hq].
  apply IH; [intros d Hd; apply Hp; right; exact Hd|].
  destruct Hq as [_ Hq]. rewrite (Hp c) in Hq; [exact Hq | left | exact Hc].
Qed.

Lemma lstrip_split p s :
  ∃ y, s = y ++ lstrip p s ∧ Forall (fun c => p c = true ∧ c ∈ s) y.
Proof.
  induction s as [|c t IH]; [exists []; split; [reflexivity | constructor]|].
  simpl. destruct (p c) eqn:Hc.
  - destruct IH as (y & Heq & Hy). exists (c :: y). split; [simpl; f_equal; exact Heq|].
    constructor; [split; [exact Hc | left]|].
    eapply Forall_impl; [exact Hy|]. intros d [Hd Hin]. split; [exact Hd | right; exact Hin].
  - exists []. split; [reflexivity | constructor].
Qed.

Lemma rstrip_split p s :
  ∃ x, s = rstrip p s ++ x ∧ Forall (fun c => p c = true ∧ c ∈ s) x.
Proof.
  destruct (lstrip_split p (rev s)) as (y & Heq & Hy).
  exists (rev y). split.
  - unfold rstrip. rewrite <- rev_app_distr, <- Heq, rev_involutive. reflexivity.
  - apply Forall_rev. eapply Forall_impl; [exact Hy|]. intros c [Hc Hin].
    split; [exact Hc|]. apply list_elem_of_In. apply list_elem_of_In in Hin.
    apply in_rev. exact Hin.
Qed.

Lemma wordtok_app_other rest x :
  is_wordtok U rest = false → Forall (fun c => isword U c = false) x →
  is_wordtok U (rest ++ x) = false.
Proof.
  intros Hr Hx. destruct rest as [|d r]; [|exact Hr].
  destruct Hx as [|e x He _]; [reflexivity | exact He].
Qed.

Lemma quiet_app_l s x : ∀ pw,
  Forall (fun c => isword U c = false) x → quiet U B pw (s ++ x) → quiet U B pw s.
Proof.
  induction s as [|c t IH]; intros pw Hx Hq; [exact I|].
  cbn [app quiet] in Hq. destruct Hq as [Hh Hq]. split; [|eapply IH; eassumption].
  intros (Hpw & b & rest & Hb & Heq & Hrest). apply Hh.
  split; [exact Hpw|]. exists b, (rest ++ x). split; [exact Hb|]. split.
  - change (c :: t ++ x) with ((c :: t) ++ x). rewrite Heq, app_assoc. reflexivity.
  - apply wordtok_app_other; assumption.
Qed.

Lemma quiet_rstrip p s pw :
  (∀ c, c ∈ s → p c = true → isword U c = false) →
  quiet U B pw s → quiet U B pw (rstrip p s).
Proof.
  intros Hp Hq. destruct (rstrip_split p s) as (x & Heq & Hx).
  apply (quiet_app_l _ x); [|rewrite <- Heq; exact Hq].
  eapply Forall_impl; [exact Hx|]. intros c [Hc Hin]. apply Hp; assumption.
Qed.

Lemma squeeze_prefix b : ∀ s rest',
  Forall (fun c => c ≠ 32%N) b →
  squeeze false s = b ++ rest' →
  ∃ rest, s = b ++ rest ∧ rest' = squeeze false rest.
Proof.
  induction b as [|x b IH]; intros s rest' Hb Hs.
  - exists s. split; [reflexivity | exact (eq_sym Hs)].
  - inversion Hb as [|? ? Hx Hb']; subst. destruct s as [|c t]; [discriminate|].
    simpl in Hs. destruct (isspace c).
    + injection Hs as <- _. contradiction.
    + injection Hs as <- Hs. destruct (IH _ _ Hb' Hs) as (rest & -> & ->). eauto.
Qed.

Lemma squeeze_head_other s :
  Forall plain s → is_wordtok U (squeeze false s) = false → is_wordtok U s = false.
Proof.
  destruct s as [|d r]; [reflexivity|]. intros Hs. inversion Hs as [|? ? Hd _]; subst.
  simpl. destruct (isspace d) eqn:E; [|auto]. rewrite (Hd E). reflexivity.
Qed.

Lemma Forall_app_r {A : Type} (P : A → Prop) l1 l2 : Forall P (l1 ++ l2) → Forall P l2.
Proof. intros H. apply Forall_app in H. apply H. Qed.

Lemma quiet_squeeze s : ∀ flag pw,
  Forall plain s → (flag = true → pw = false) →
  quiet U B pw s → quiet U B pw (squeeze flag s).
Proof.
  induction s as [|c t IH]; intros flag pw Hs Hflag Hq; [exact I|].
  inversion Hs as [|? ? Hc Ht]; subst. destruct Hq as [Hh Hq]. simpl squeeze.
  destruct (isspace c) eqn:E.
  - assert (Hw : isword U c = false) by (rewrite (Hc E); reflexivity).
    rewrite Hw in Hq. destruct flag.
    + rewrite (Hflag eq_refl). apply IH; auto.
    + split; [intros Hhit; apply hit_head in Hhit; discriminate Hhit|].
      apply IH; auto.
  - split; [|apply IH; [assumption | discriminate | exact Hq]].
    intros (Hpw & b & rest' & Hb & Heq & Hrest). apply Hh.
    rewrite Forall_forall in HB. pose proof (HB b Hb) as Hok.
    assert (Hsq : squeeze false (c :: t) = b ++ rest') by (simpl; rewrite E; exact Heq).
    destruct (squeeze_prefix b _ _ (body_no_space U b Hok) Hsq) as (rest & Heq' & ->).
    split; [exact Hpw|]. exists b, rest. split; [exact Hb|]. split; [exact Heq'|].
    apply squeeze_head_other; [|exact Hrest].
    rewrite Heq' in Hs. apply Forall_app_r in Hs. exact Hs.
Qed.

Lemma app_prefix_no_space b : ∀ s rest',
  Forall (fun c => c ≠ 32%N) b →
  s ++ space = b ++ rest' →
  ∃ rest, s = b ++ rest ∧ rest' = rest ++ space.
Proof.
  induction b as [|x b IH]; intros s rest' Hb Hs.
  - exists s. split; [reflexivity | exact (eq_sym Hs)].
  - inversion Hb as [|? ? Hx Hb']; subst. destruct s as [|c t].
    + injection Hs as <- _. contradiction.
    + injection Hs as <- Hs. destruct (IH _ _ Hb' Hs) as (rest & -> & ->). eauto.
Qed.

Lemma quiet_snoc_space s : ∀ pw, quiet U B pw s → quiet U B pw (s ++ space).
Proof.
  induction s as [|c t IH]; intros pw Hq.
  - split; [|exact I]. intros Hhit. apply hit_head in Hhit. discriminate Hhit.
  - destruct Hq as [Hh Hq]. split; [|apply IH; exact Hq].
    intros (Hpw & b & rest' & Hb & Heq & Hrest). apply Hh.
    rewrite Forall_forall in HB. pose proof (HB b Hb) as Hok.
    destruct (app_prefix_no_space b (c :: t) rest' (body_no_space U b Hok) Heq)
      as (rest & Heq' & ->).
    split; [exact Hpw|]. exists b, rest. split; [exact Hb|]. split; [exact Heq'|].
    destruct rest as [|d r]; [reflexivity | exact Hrest].
Qed.

Lemma quiet_pad s : quiet U B false s → quiet U B false (space ++ s ++ space).
Proof.
  intros Hq. split; [intros Hhit; apply hit_head in Hhit; discriminate Hhit|].
  apply quiet_snoc_space. exact Hq.
Qed.

End Trim.

(** ** Normalising twice *)

Section Idempotence.

Context (U : unicode_db) (HU : unicode_ok U).

Lemma replace_id a b s : Forall (fun c => c ≠ a) s → replace a b s = s.
Proof.
  induction 1 as [|c t Hc Ht IH]; simpl; [reflexivity|].
  destruct (N.eqb_spec c a); [contradiction|]. f_equal. exact IH.
Qed.




Lemma head_squeeze_false s :
  (∀ c, head s = Some c → isspace c = false) → head (squeeze false s) = head s.
Proof.
  destruct s as [|c t]; [reflexivity|]. intros H. simpl. rewrite (H c eq_refl). reflexivity.
Qed.

Lemma squeeze_cons b c t :
  squeeze b (c :: t) =
  if isspace c then (if b then squeeze true t else 32%N :: squeeze true t)
  else c :: squeeze false t.
Proof. reflexivity. Qed.

Lemma last_squeeze_eq s : ∀ b,
  (∀ c, last s = Some c → isspace c = false) → last (squeeze b s) = last s.
Proof.
  induction s as [|d t IH]; intros b Hl; [reflexivity|].
  destruct t as [|e u].
  - simpl in *. rewrite (Hl d eq_refl). reflexivity.
  - rewrite last_cons_cons in Hl |- *.
    assert (Hsome : ∀ b', ∃ x, last (squeeze b' (e :: u)) = Some x).
    { intros b'. rewrite IH by exact Hl. destruct (last (e :: u)) as [x|] eqn:Hx; [eauto|].
      apply last_None in Hx. discriminate. }
    rewrite (squeeze_cons b d (e :: u)).
    destruct (isspace d); [destruct b|].
    + apply IH. exact Hl.
    + rewrite last_cons. destruct (Hsome true) as (x & Hx).
      rewrite Hx, <- Hx. apply IH. exact Hl.
    + rewrite last_cons. destruct (Hsome false) as (x & Hx).
      rewrite Hx, <- Hx. apply IH. exact Hl.
Qed.


Lemma punct_not_word c :
  c ≠ underscore → inb PUNCT c = true → isword U c = false.
Proof.
  intros Hu Hin. unfold inb, PUNCT in Hin. simpl in Hin.
  repeat (apply orb_true_iff in Hin; destruct Hin as [Hin|Hin];
          [apply N.eqb_eq in Hin; subst c; first [reflexivity | contradiction]|]).
  discriminate Hin.
Qed.







End Idempotence.



(** ** No empty match *)

Section NonEmpty.

Context (U : unicode_db).

Lemma greedy_min_len cap k cont m :
  (∀ prev s n g, cont prev s = Some (n, g) → m ≤ n) →
  ∀ s prev n g, greedy cap k cont prev s = Some (n, g) → m ≤ n.
Proof.
  intros Hcont. induction s as [|c t IH]; intros prev n g; simpl; [apply Hcont|].
  destruct (in_cls k c); [|apply Hcont].
  destruct (greedy cap k cont (Some c) t) as [[n' g']|] eqn:Hg; [|apply Hcont].
  specialize (IH _ _ _ Hg). destruct cap; simpl; intros [= <- <-]; lia.
Qed.

Lemma re_match_min_len p : ∀ prev s n g,
  re_match U p prev s = Some (n, g) → min_len p ≤ n.
Proof.
  induction p as [|a p IH]; intros prev s n g; [simpl; lia|].
  destruct a as [c|c|k|k|k| |]; cbn [min_len re_match Nat.add].
  - destruct s as [|d t]; [discriminate|]. destruct (d =? c)%N; [|discriminate].
    destruct (re_match U p (Some d) t) as [[n' g']|] eqn:Hm; [|discriminate].
    simpl. intros [= <- <-]. specialize (IH _ _ _ _ Hm). lia.
  - destruct s as [|d t]; [apply IH|]. destruct (d =? c)%N; [|apply IH].
    destruct (re_match U p (Some d) t) as [[n' g']|] eqn:Hm; [|apply IH].
    simpl. intros [= <- <-]. specialize (IH _ _ _ _ Hm). lia.
  - apply greedy_min_len. exact IH.
  - destruct s as [|d t]; [discriminate|]. destruct (in_cls k d); [|discriminate].
    destruct (greedy false k (re_match U p) (Some d) t) as [[n' g']|] eqn:Hm; [|discriminate].
    simpl. intros [= <- <-]. apply (greedy_min_len _ _ _ _ IH) in Hm. lia.
  - destruct s as [|d t]; [discriminate|]. destruct (in_cls k d); [|discriminate].
    destruct (greedy true k (re_match U p) (Some d) t) as [[n' g']|] eqn:Hm; [|discriminate].
    simpl. intros [= <- <-]. apply (greedy_min_len _ _ _ _ IH) in Hm. lia.
  - destruct (word_boundary U prev s); [apply IH | discriminate].
  - destruct (word_boundary U prev s || at_end s); [apply IH | discriminate].
Qed.

(** No pattern of the module matches the empty text. *)
Lemma re_match_nonempty p prev s n g :
  p ∈ WS_RUN :: PAREN_GROUP :: _SUFFIX_PATTERNS →
  re_match U p prev s = Some (n, g) → n ≠ 0.
Proof.
  intros Hp Hm. apply re_match_min_len in Hm.
  assert (1 ≤ min_len p); [|lia].
  unfold _SUFFIX_PATTERNS, _SUFFIXES in Hp.
  repeat (apply elem_of_cons in Hp as [->|Hp]); try (vm_compute; lia).
  inversion Hp.
Qed.

End NonEmpty.

(** * Further properties *)

(** ** Names with the same canonical name *)

Lemma ascii_db_case_ok : unicode_case_ok ascii_db.
Proof. split; simpl; intros; [discriminate | reflexivity | reflexivity]. Qed.

Lemma lstrip_map (p : codepoint → bool) (f : codepoint → codepoint) s :
  (∀ c, p (f c) = p c) → lstrip p (map f s) = map f (lstrip p s).
Proof.
  intros H. induction s as [|c t IH]; simpl; [reflexivity|].
  rewrite H. destruct (p c); [exact IH | reflexivity].
Qed.

Lemma rstrip_map (p : codepoint → bool) (f : codepoint → codepoint) s :
  (∀ c, p (f c) = p c) → rstrip p (map f s) = map f (rstrip p s).
Proof.
  intros H. unfold rstrip. rewrite <- List.map_rev, lstrip_map by exact H.
  rewrite List.map_rev. reflexivity.
Qed.

Lemma squeeze_map (f : codepoint → codepoint) b s :
  (∀ c, isspace (f c) = isspace c) → f 32%N = 32%N →
  squeeze b (map f s) = map f (squeeze b s).
Proof.
  intros H H32. revert b. induction s as [|c t IH]; intros b; simpl; [reflexivity|].
  rewrite H. destruct (isspace c), b; simpl; rewrite ?IH, ?H32; reflexivity.
Qed.

Lemma replace_isspace a b :
  isspace a = false → isspace b = false →
  ∀ c, isspace (if (c =? a)%N then b else c) = isspace c.
Proof.
  intros Ha Hb c. destruct (N.eqb_spec c a) as [->|_]; congruence.
Qed.

Lemma strip_replace a b s :
  isspace a = false → isspace b = false →
  strip (replace a b s) = replace a b (strip s).
Proof.
  intros Ha Hb. unfold strip, replace.
  rewrite lstrip_map, rstrip_map by (apply replace_isspace; assumption). reflexivity.
Qed.

Lemma squeeze_replace a b f s :
  isspace a = false → isspace b = false → a ≠ 32%N →
  squeeze f (replace a b s) = replace a b (squeeze f s).
Proof.
  intros Ha Hb Hne. unfold replace. apply squeeze_map.
  - apply replace_isspace; assumption.
  - destruct (N.eqb_spec 32 a); congruence.
Qed.

Lemma ascii_marks_strip s : strip (ascii_marks s) = ascii_marks (strip s).
Proof. unfold ascii_marks. rewrite !strip_replace by reflexivity. reflexivity. Qed.

Lemma ascii_marks_squeeze b s : squeeze b (ascii_marks s) = ascii_marks (squeeze b s).
Proof.
  unfold ascii_marks. rewrite !squeeze_replace by (reflexivity || discriminate). reflexivity.
Qed.

(** What the normaliser reads of a name: the text after line 29. *)
Lemma normalise_text_key U pats a b k :
  upper U (squeeze false (ascii_marks (strip a))) =
  upper U (squeeze false (ascii_marks (strip b))) →
  normalise_text U pats a k = normalise_text U pats b k.
Proof.
  intros H. unfold normalise_text. rewrite !re_sub_ws.
  change (replace 0x2014%N (chr "-") (replace 0x2013%N (chr "-")
            (replace 0x2019%N (chr "'") (strip a)))) with (ascii_marks (strip a)).
  change (replace 0x2014%N (chr "-") (replace 0x2013%N (chr "-")
            (replace 0x2019%N (chr "'") (strip b)))) with (ascii_marks (strip b)).
  rewrite H. reflexivity.
Qed.

(** X1: the typographic apostrophe and the en and em dashes count as
    their ASCII forms: two names that are the same once line 28 has
    replaced them have the same canonical name. *)
Theorem normalise_typographic_marks (U : unicode_db) (a b : pystr) (k : bool) :
  ascii_marks a = ascii_marks b →
  normalise_company_name U (PyStr a) k = normalise_company_name U (PyStr b) k.
Proof.
  intros H. unfold normalise_company_name. apply normalise_text_key.
  rewrite <- !ascii_marks_strip, H. reflexivity.
Qed.

Lemma normalise_typographic_marks_witness :
  normalise_company_name ascii_db
    (PyStr (str "O" ++ [0x2019%N] ++ str "Neil " ++ [0x2013%N] ++ str " Sons Ltd")) true =
  normalise_company_name ascii_db (PyStr (str "O'Neil - Sons Ltd")) true.
Proof.
  apply (normalise_typographic_marks ascii_db). reflexivity.
Defined.

(** *** Whitespace *)

Lemma forallb_isspace_squeeze b s :
  forallb isspace s = false → forallb isspace (squeeze b s) = false.
Proof.
  revert b. induction s as [|c t IH]; intros b; simpl; [discriminate|].
  destruct (isspace c) eqn:E; simpl.
  - intros H. destruct b; simpl; [apply IH; exact H|]. apply IH. exact H.
  - intros _. rewrite E. reflexivity.
Qed.

Lemma squeeze_all_space b s :
  forallb isspace s = true → forallb isspace (squeeze b s) = true.
Proof.
  revert b. induction s as [|c t IH]; intros b; simpl; [reflexivity|].
  destruct (isspace c) eqn:E; simpl; [|discriminate].
  intros H. destruct b; simpl; apply IH; exact H.
Qed.

Lemma squeeze_rstrip b s :
  squeeze b (rstrip isspace s) = rstrip isspace (squeeze b s).
Proof.
  revert b. induction s as [|c t IH]; intros b; [reflexivity|].
  destruct (forallb isspace (c :: t)) eqn:Hall.
  - rewrite (rstrip_all isspace _ Hall).
    rewrite (rstrip_all isspace _ (squeeze_all_space b _ Hall)). reflexivity.
  - rewrite (rstrip_cons_keep isspace c t Hall). rewrite !squeeze_cons.
    destruct (isspace c) eqn:E.
    + assert (Ht : forallb isspace t = false) by (simpl in Hall; rewrite E in Hall; exact Hall).
      destruct b.
      * apply IH.
      * rewrite IH. symmetry. apply rstrip_cons_keep.
        simpl. rewrite forallb_isspace_squeeze by exact Ht. reflexivity.
    + rewrite IH. symmetry. apply rstrip_cons_stop. exact E.
Qed.

Lemma squeeze_lstrip s : squeeze false (lstrip isspace s) = squeeze true s.
Proof.
  induction s as [|c t IH]; [reflexivity|].
  cbn [lstrip]. rewrite (squeeze_cons true). destruct (isspace c) eqn:E; [exact IH|].
  rewrite squeeze_cons, E. reflexivity.
Qed.

Lemma squeeze_strip s : squeeze false (strip s) = rstrip isspace (squeeze true s).
Proof. unfold strip. rewrite squeeze_rstrip, squeeze_lstrip. reflexivity. Qed.

Lemma squeeze_true_space l s :
  Forall (fun c => isspace c = true) l → squeeze true (l ++ s) = squeeze true s.
Proof.
  induction 1 as [|c l Hc Hl IH]; [reflexivity|].
  cbn [app]. rewrite squeeze_cons, Hc. exact IH.
Qed.

Lemma squeeze_run b ws s :
  ws ≠ [] → Forall (fun c => isspace c = true) ws →
  squeeze b (ws ++ s) = squeeze b (space ++ s).
Proof.
  intros Hne Hws. destruct Hws as [|c ws Hc Hws]; [congruence|].
  cbn [app]. rewrite squeeze_cons, Hc. change (space ++ s) with (32%N :: s).
  rewrite (squeeze_cons b 32%N). rewrite isspace_32.
  rewrite (squeeze_true_space ws s Hws). reflexivity.
Qed.

Lemma squeeze_inner_run b a ws s :
  ws ≠ [] → Forall (fun c => isspace c = true) ws →
  squeeze b (a ++ ws ++ s) = squeeze b (a ++ space ++ s).
Proof.
  intros Hne Hws. revert b. induction a as [|c a IH]; intros b.
  - exact (squeeze_run b ws s Hne Hws).
  - change ((c :: a) ++ ws ++ s) with (c :: (a ++ ws ++ s)).
    change ((c :: a) ++ space ++ s) with (c :: (a ++ space ++ s)).
    rewrite !squeeze_cons. rewrite !IH. reflexivity.
Qed.

Lemma rstrip_app_space s r :
  Forall (fun c => isspace c = true) r → rstrip isspace (s ++ r) = rstrip isspace s.
Proof.
  induction r as [|c r IH] using rev_ind; intros Hr.
  - rewrite app_nil_r. reflexivity.
  - apply Forall_app in Hr as [Hr Hc]. inversion Hc as [|? ? Hc' _]; subst.
    rewrite app_assoc, rstrip_snoc, Hc'. apply IH. exact Hr.
Qed.

(** X2: whitespace counts only as a separator: whitespace around a
    name is ignored, and a run of whitespace characters of any kind inside
    it reads as one space. *)
Theorem normalise_whitespace (U : unicode_db) (l a ws b r : pystr) (k : bool) :
  Forall (fun c => isspace c = true) l →
  Forall (fun c => isspace c = true) r →
  Forall (fun c => isspace c = true) ws →
  ws ≠ [] →
  normalise_company_name U (PyStr (l ++ a ++ ws ++ b ++ r)) k =
  normalise_company_name U (PyStr (a ++ space ++ b)) k.
Proof.
  intros Hl Hr Hws Hne. unfold normalise_company_name. apply normalise_text_key.
  rewrite !ascii_marks_squeeze. do 2 f_equal.
  rewrite !squeeze_strip.
  rewrite (squeeze_true_space l _ Hl).
  rewrite (squeeze_inner_run true a ws (b ++ r) Hne Hws).
  rewrite <- !squeeze_rstrip. f_equal.
  replace (a ++ space ++ b ++ r) with ((a ++ space ++ b) ++ r)
    by (rewrite <- !app_assoc; reflexivity).
  apply rstrip_app_space. exact Hr.
Qed.

Lemma normalise_whitespace_witness :
  normalise_company_name ascii_db
    (PyStr ([9%N; 32%N] ++ str "Acme" ++ [32%N; 9%N; 0xA0%N] ++ str "Ltd" ++ [10%N])) true =
  normalise_company_name ascii_db (PyStr (str "Acme" ++ space ++ str "Ltd")) true.
Proof.
  apply (normalise_whitespace ascii_db).
  - repeat constructor.
  - repeat constructor.
  - repeat constructor.
  - discriminate.
Defined.

(** *** Letter case *)

Section Case.

Context (U : unicode_db) (HU : unicode_ok U) (HC : unicode_case_ok U).

Lemma toupper_of_space c : isspace c = true → toupper U c = [c].
Proof.
  intros Hs. unfold toupper. destruct (N.ltb_spec c 128) as [Hc|Hc].
  - f_equal. unfold ascii_upper. destruct (ascii_islower c) eqn:E; [exfalso; chars | reflexivity].
  - apply (upper_of_space U HC); assumption.
Qed.

Lemma toupper_of_other c :
  isspace c = false →
  toupper U c ≠ [] ∧ Forall (fun d => isspace d = false) (toupper U c).
Proof.
  intros Hs. unfold toupper. destruct (N.ltb_spec c 128) as [Hc|Hc].
  - split; [discriminate|]. constructor; [|constructor].
    unfold ascii_upper. destruct (ascii_islower c) eqn:E; [chars | exact Hs].
  - split; [apply (upper_nonempty U HC); exact Hc|].
    apply Forall_forall. intros d Hd. apply (upper_space U HU c d Hc Hs Hd).
Qed.

Lemma upper_cons c t : upper U (c :: t) = toupper U c ++ upper U t.
Proof. reflexivity. Qed.

Lemma upper_app a b : upper U (a ++ b) = upper U a ++ upper U b.
Proof. apply flat_map_app. Qed.

Lemma lstrip_upper s : lstrip isspace (upper U s) = upper U (lstrip isspace s).
Proof.
  induction s as [|c t IH]; [reflexivity|].
  rewrite upper_cons. cbn [lstrip]. destruct (isspace c) eqn:E.
  - rewrite (toupper_of_space c E). cbn [app lstrip]. rewrite E. exact IH.
  - destruct (toupper_of_other c E) as [Hne Hall]. rewrite upper_cons.
    destruct (toupper U c) as [|d l]; [congruence|].
    inversion Hall as [|? ? Hd _]; subst. cbn [app lstrip]. rewrite Hd. reflexivity.
Qed.

Lemma rstrip_upper s : rstrip isspace (upper U s) = upper U (rstrip isspace s).
Proof.
  induction s as [|c s IH] using rev_ind; [reflexivity|].
  rewrite upper_app, rstrip_snoc. destruct (isspace c) eqn:E.
  - change (upper U [c]) with (toupper U c ++ []). rewrite (toupper_of_space c E).
    cbn [app]. rewrite rstrip_snoc, E. exact IH.
  - destruct (toupper_of_other c E) as [Hne Hall].
    rewrite upper_app. apply rstrip_id. intros d Hd.
    change (upper U [c]) with (toupper U c ++ []) in Hd. rewrite app_nil_r in Hd.
    rewrite last_app in Hd.
    destruct (last (toupper U c)) as [e|] eqn:El.
    + injection Hd as <-. rewrite Forall_forall in Hall. apply Hall.
      apply last_Some_elem_of. exact El.
    + apply last_None in El. congruence.
Qed.

Lemma strip_upper s : strip (upper U s) = upper U (strip s).
Proof. unfold strip. rewrite lstrip_upper, rstrip_upper. reflexivity. Qed.

Lemma squeeze_other_app l r b :
  l ≠ [] → Forall (fun d => isspace d = false) l →
  squeeze b (l ++ r) = l ++ squeeze false r.
Proof.
  intros Hne Hall. revert b. induction Hall as [|d l Hd Hl IH]; [congruence|].
  intros b. cbn [app]. rewrite squeeze_cons, Hd. f_equal.
  destruct l as [|e l]; [reflexivity|]. apply IH. discriminate.
Qed.

Lemma squeeze_upper b s : squeeze b (upper U s) = upper U (squeeze b s).
Proof.
  revert b. induction s as [|c t IH]; intros b; [reflexivity|].
  rewrite upper_cons, (squeeze_cons b c). destruct (isspace c) eqn:E.
  - rewrite (toupper_of_space c E). cbn [app]. rewrite squeeze_cons, E.
    destruct b; [apply IH|]. rewrite upper_cons.
    change (toupper U 32%N) with [32%N]. cbn [app]. f_equal. apply IH.
  - destruct (toupper_of_other c E) as [Hne Hall].
    rewrite (squeeze_other_app _ _ b Hne Hall), upper_cons, IH. reflexivity.
Qed.

Lemma toupper_ascii c : (c < 128)%N → toupper U c = [ascii_upper c] ∧ (ascii_upper c < 128)%N.
Proof.
  intros Hc. unfold toupper. destruct (N.ltb_spec c 128); [|lia].
  split; [reflexivity | chars].
Qed.

Lemma toupper_replace a b c :
  a = 0x2019%N ∨ a = 0x2013%N ∨ a = 0x2014%N →
  (b < 128)%N → ascii_islower b = false →
  replace a b (toupper U c) = toupper U (if (c =? a)%N then b else c).
Proof.
  intros Ha Hb Hlow. assert (Ha128 : (128 ≤ a)%N) by (destruct Ha as [-> | [-> | ->]]; lia).
  destruct (N.eqb_spec c a) as [->|Hne].
  - unfold toupper at 1. destruct (N.ltb_spec a 128); [lia|].
    rewrite (upper_of_mark U HC a Ha). unfold replace. cbn [map]. rewrite N.eqb_refl.
    destruct (toupper_ascii b Hb) as [-> _]. unfold ascii_upper. rewrite Hlow. reflexivity.
  - apply replace_id. apply Forall_forall. intros d Hd ->.
    unfold toupper in Hd. destruct (N.ltb_spec c 128) as [Hc|Hc].
    + apply list_elem_of_In in Hd. destruct Hd as [Hd|[]].
      assert (ascii_upper c < 128)%N by chars. lia.
    + apply Hne. symmetry. apply (upper_marks U HU c a Hc Hd Ha).
Qed.

Lemma replace_app a b x y : replace a b (x ++ y) = replace a b x ++ replace a b y.
Proof. apply map_app. Qed.

Lemma replace_upper a b s :
  a = 0x2019%N ∨ a = 0x2013%N ∨ a = 0x2014%N →
  (b < 128)%N → ascii_islower b = false →
  replace a b (upper U s) = upper U (replace a b s).
Proof.
  intros Ha Hb Hlow. induction s as [|c t IH]; [reflexivity|].
  change (replace a b (c :: t)) with ((if (c =? a)%N then b else c) :: replace a b t).
  rewrite !upper_cons, replace_app, IH, (toupper_replace a b c Ha Hb Hlow). reflexivity.
Qed.

Lemma ascii_marks_upper s : ascii_marks (upper U s) = upper U (ascii_marks s).
Proof.
  unfold ascii_marks.
  rewrite (replace_upper 0x2019%N); [|auto|reflexivity|reflexivity].
  rewrite (replace_upper 0x2013%N); [|auto|reflexivity|reflexivity].
  rewrite (replace_upper 0x2014%N); [|auto|reflexivity|reflexivity].
  reflexivity.
Qed.

Lemma upper_upper s : upper U (upper U s) = upper U s.
Proof.
  apply upper_id. apply (upper_Forall U (fun _ => True)).
  - intros c d _ Hd. apply (toupper_fixed U HU c d Hd).
  - apply Forall_forall. auto.
Qed.

Lemma normalise_text_upper pats s k :
  normalise_text U pats (upper U s) k = normalise_text U pats s k.
Proof.
  apply normalise_text_key.
  rewrite strip_upper, ascii_marks_upper, squeeze_upper. apply upper_upper.
Qed.

(** X3: letter case is ignored: two names with the same upper-case
    form have the same canonical name. *)
Theorem normalise_case_insensitive (a b : pystr) (k : bool) :
  upper U a = upper U b →
  normalise_company_name U (PyStr a) k = normalise_company_name U (PyStr b) k.
Proof.
  intros H. unfold normalise_company_name.
  rewrite <- (normalise_text_upper _ a), <- (normalise_text_upper _ b), H. reflexivity.
Qed.

End Case.

Lemma normalise_case_insensitive_witness :
  normalise_company_name ascii_db (PyStr (str "Acme Holdings plc")) true =
  normalise_company_name ascii_db (PyStr (str "ACME holdings PLC")) true.
Proof.
  apply (normalise_case_insensitive ascii_db ascii_db_ok ascii_db_case_ok). reflexivity.
Defined.

(** ** What a canonical name is made of *)

Section Stages.

Context (U : unicode_db).

(** The texts of lines 31 and 36 and the result. *)
Lemma normalise_text_stages pats name (k : bool) :
  ∃ s3 s4 s5 : pystr,
    s3 = upper U (squeeze false (ascii_marks (strip name))) ∧
    s4 = unwrap_parens U s3 ∧
    s5 = (if k then strip (strip_suffix_patterns U pats (space ++ s4 ++ space)) else s4) ∧
    normalise_text U pats name k = squeeze false (strip_chars PUNCT s5).
Proof.
  eexists _, _, _. split; [reflexivity|]. split; [reflexivity|]. split; [reflexivity|].
  unfold normalise_text. rewrite !re_sub_ws. reflexivity.
Qed.

Lemma unwrap_parens_Forall (P : codepoint → Prop) s :
  P 32%N → Forall P s → Forall P (unwrap_parens U s).
Proof.
  intros H32 Hs. apply re_sub_Forall; [|exact Hs]. intros g Hg.
  apply Forall_app. split; [repeat constructor; exact H32|].
  apply Forall_app. split; [exact Hg | repeat constructor; exact H32].
Qed.

Lemma stage5_Forall (P : codepoint → Prop) pats s4 (k : bool) :
  P 32%N → Forall P s4 →
  Forall P (if k then strip (strip_suffix_patterns U pats (space ++ s4 ++ space)) else s4).
Proof.
  intros H32 Hs. destruct k; [|exact Hs].
  apply rstrip_Forall, lstrip_Forall, strip_suffix_patterns_Forall; [exact H32|].
  apply Forall_app. split; [repeat constructor; exact H32|].
  apply Forall_app. split; [exact Hs | repeat constructor; exact H32].
Qed.

Lemma normalise_text_Forall (P : codepoint → Prop) pats name k :
  P 32%N → (∀ c d, P c → d ∈ toupper U c → P d) →
  Forall P (ascii_marks (strip name)) →
  Forall P (normalise_text U pats name k).
Proof.
  intros H32 Hup Hm.
  destruct (normalise_text_stages pats name k) as (s3 & s4 & s5 & -> & -> & -> & ->).
  apply squeeze_Forall; [exact H32|]. apply rstrip_Forall, lstrip_Forall.
  apply stage5_Forall; [exact H32|]. apply unwrap_parens_Forall; [exact H32|].
  apply (upper_Forall U P P); [exact Hup|]. apply squeeze_Forall; assumption.
Qed.

End Stages.

Lemma ascii_marks_unmarked s : Forall unmarked (ascii_marks s).
Proof.
  unfold ascii_marks, replace. rewrite !map_map. apply Forall_forall. intros d Hd.
  apply list_elem_of_In, in_map_iff in Hd. destruct Hd as (c & <- & _).
  destruct (N.eqb_spec c 0x2019) as [->|H1]; [repeat split; discriminate|].
  destruct (N.eqb_spec c 0x2013) as [->|H2]; [repeat split; discriminate|].
  destruct (N.eqb_spec c 0x2014) as [->|H3]; [repeat split; discriminate|].
  repeat split; assumption.
Qed.

Section Canonical.

Context (U : unicode_db) (HU : unicode_ok U).

Lemma toupper_unmarked c d : unmarked c → d ∈ toupper U c → unmarked d.
Proof.
  intros (M1 & M2 & M3) Hd. unfold toupper in Hd. destruct (N.ltb_spec c 128) as [Hc|Hc].
  - apply list_elem_of_In in Hd. destruct Hd as [<-|[]].
    assert (ascii_upper c < 128)%N by chars. repeat split; lia.
  - assert (Hm : ∀ m, m = 0x2019%N ∨ m = 0x2013%N ∨ m = 0x2014%N → d ≠ m).
    { intros m Hmark ->. pose proof (upper_marks U HU c m Hc Hd Hmark) as ->.
      destruct Hmark as [-> | [-> | ->]]; congruence. }
    repeat split; apply Hm; auto.
Qed.

(** X4: a canonical name holds no typographic apostrophe and no en or
    em dash: line 28 has replaced them and no later step brings one
    back. *)
Theorem normalise_no_typographic_marks (name : pyval) (k : bool) :
  Forall (fun c => c ≠ 0x2019%N ∧ c ≠ 0x2013%N ∧ c ≠ 0x2014%N)
    (normalise_company_name U name k).
Proof.
  destruct name as [name| | | |]; try constructor.
  unfold normalise_company_name.
  apply (normalise_text_Forall U unmarked).
  - repeat split; discriminate.
  - apply toupper_unmarked.
  - apply ascii_marks_unmarked.
Qed.

(** The text of line 38 before the last whitespace pass. *)
Lemma normalise_text_trimmed pats name k :
  ∃ s6,
    normalise_text U pats name k = squeeze false s6 ∧
    Forall (settled U) s6 ∧
    (∀ c, head s6 = Some c → inb PUNCT c = false) ∧
    (∀ c, last s6 = Some c → inb PUNCT c = false).
Proof.
  destruct (normalise_text_stages U pats name k) as (s3 & s4 & s5 & E3 & E4 & E5 & ->).
  exists (strip_chars PUNCT s5). split; [reflexivity|].
  assert (H3 : Forall (settled U) s3) by (rewrite E3; apply upper_squeeze_settled, HU).
  assert (H5 : Forall (settled U) s5).
  { rewrite E5. apply stage5_Forall; [apply settled_32|].
    rewrite E4. apply unwrap_parens_Forall; [apply settled_32 | exact H3]. }
  split; [apply rstrip_Forall, lstrip_Forall; exact H5|]. split.
  - intros c Hc. eapply head_rstrip_lstrip. exact Hc.
  - intros c Hc. eapply last_rstrip. exact Hc.
Qed.

(** X5: a canonical name neither starts nor ends with one of the
    characters that line 38 trims: space, full stop, comma, hyphen,
    underscore, square bracket, brace. *)
Theorem normalise_no_outer_punctuation (name : pyval) (k : bool) :
  let r := normalise_company_name U name k in
  (∀ c, head r = Some c → inb (str " .,-_[]{}") c = false) ∧
  (∀ c, last r = Some c → inb (str " .,-_[]{}") c = false).
Proof.
  destruct name as [name| | | |]; try (split; intros c; discriminate).
  cbv zeta. unfold normalise_company_name. change (str " .,-_[]{}") with PUNCT.
  destruct (normalise_text_trimmed _SUFFIX_PATTERNS name k) as (s6 & -> & S6 & Hh & Hl).
  assert (Hhs : ∀ c, head s6 = Some c → isspace c = false).
  { intros c Hc. apply (settled_not_space U); [|apply Hh; exact Hc].
    rewrite Forall_forall in S6. apply S6. apply head_Some_elem_of. exact Hc. }
  assert (Hls : ∀ c, last s6 = Some c → isspace c = false).
  { intros c Hc. apply (settled_not_space U); [|apply Hl; exact Hc].
    rewrite Forall_forall in S6. apply S6. apply last_Some_elem_of. exact Hc. }
  split.
  - rewrite head_squeeze_false by exact Hhs. exact Hh.
  - rewrite last_squeeze_eq by exact Hls. exact Hl.
Qed.


(** *** No suffix is left *)

Lemma toupper_no_underscore c d : c ≠ underscore → d ∈ toupper U c → d ≠ underscore.
Proof.
  intros Hc Hd ->. unfold toupper in Hd. destruct (N.ltb_spec c 128) as [H|H].
  - apply list_elem_of_In in Hd. destruct Hd as [Hd|[]].
    unfold underscore in *. simpl in *. chars.
  - pose proof (upper_ascii U HU c underscore H Hd) as Hup.
    assert (Hlt : (underscore < 128)%N) by (unfold underscore; simpl; lia).
    specialize (Hup Hlt). discriminate Hup.
Qed.

Lemma quiet_no_match p B :
  match_shape U B p → Forall (body_ok U) B →
  ∀ a s prev b,
    quiet U B (isword_opt U prev) s → s = a ++ b →
    re_match U p (prev_after prev a) b = None.
Proof.
  intros Hshape HB. induction a as [|c a IH]; intros s prev b Hq ->.
  - rewrite prev_after_nil. cbn [app] in Hq.
    destruct (re_match U p prev b) as [[n g]|] eqn:Hm; [|reflexivity].
    exfalso. destruct (Hshape prev b n g Hm) as (Hpw & body & rest & Hin & -> & Hrest & _).
    rewrite Forall_forall in HB.
    destruct (body_head U body (HB _ Hin)) as (c & b' & -> & _).
    cbn [app quiet] in Hq. destruct Hq as [Hnh _]. apply Hnh.
    split; [exact Hpw|]. exists (c :: b'), rest. auto.
  - rewrite prev_after_cons. cbn [app quiet] in Hq. destruct Hq as [_ Hq].
    apply (IH (a ++ b) (Some c) b Hq eq_refl).
Qed.

Lemma normalise_text_quiet name p :
  Forall (fun c => c ≠ underscore) name →
  p ∈ _SUFFIX_PATTERNS →
  quiet U (bodies p) false
    (space ++ normalise_text U _SUFFIX_PATTERNS name true ++ space).
Proof.
  intros Hname Hp.
  destruct (normalise_text_stages U _SUFFIX_PATTERNS name true)
    as (s3 & s4 & s5 & E3 & E4 & E5 & ->).
  set (NU := fun c : codepoint => c ≠ underscore).
  assert (N3 : Forall NU s3).
  { rewrite E3. apply (upper_Forall U NU NU); [apply toupper_no_underscore|].
    apply squeeze_Forall; [discriminate|].
    unfold ascii_marks. repeat (apply replace_Forall; [discriminate|]).
    apply rstrip_Forall, lstrip_Forall. exact Hname. }
  assert (S3 : Forall (settled U) s3) by (rewrite E3; apply upper_squeeze_settled, HU).
  assert (N4 : Forall NU s4) by (rewrite E4; apply unwrap_parens_Forall; [discriminate | exact N3]).
  assert (S4 : Forall (settled U) s4).
  { rewrite E4; apply unwrap_parens_Forall; [apply settled_32 | exact S3]. }
  set (pad := strip_suffix_patterns U _SUFFIX_PATTERNS (space ++ s4 ++ space)) in *.
  assert (Spad : Forall (settled U) pad).
  { apply strip_suffix_patterns_Forall; [apply settled_32|].
    apply Forall_app. split; [apply settled_space|].
    apply Forall_app. split; [exact S4 | apply settled_space]. }
  assert (N5 : Forall NU s5) by (rewrite E5; apply (stage5_Forall U NU _SUFFIX_PATTERNS s4 true); [discriminate | exact N4]).
  assert (S5 : Forall (settled U) s5).
  { rewrite E5. apply (stage5_Forall U (settled U) _SUFFIX_PATTERNS s4 true); [apply settled_32 | exact S4]. }
  destruct (suffix_bodies U p Hp) as (_ & _ & Hok).
  assert (Qpad : quiet U (bodies p) false pad).
  { apply strip_suffix_quiet; [apply Forall_forall; auto | exact Hp | left; exact Hp]. }
  assert (Hplain : ∀ s c, Forall (settled U) s → c ∈ s → isspace c = true → isword U c = false).
  { intros s c Hs Hc E. rewrite Forall_forall in Hs. destruct (Hs c Hc) as [Hpl _].
    rewrite (Hpl E). reflexivity. }
  assert (Hpunct : ∀ s c, Forall NU s → c ∈ s → inb PUNCT c = true → isword U c = false).
  { intros s c Hs Hc E. rewrite Forall_forall in Hs. apply punct_not_word; [|exact E].
    apply Hs. exact Hc. }
  assert (Q5 : quiet U (bodies p) false s5).
  { rewrite E5. unfold strip. apply quiet_rstrip.
    - intros c Hc. apply (Hplain (lstrip isspace pad)); [|exact Hc].
      apply lstrip_Forall. exact Spad.
    - apply quiet_lstrip; [|exact Qpad].
      intros c Hc. apply (Hplain pad); [exact Spad | exact Hc]. }
  apply (quiet_pad U _ Hok). apply (quiet_squeeze U _ Hok).
  - apply rstrip_Forall, lstrip_Forall. eapply Forall_impl; [exact S5|]. intros c [Hc _]. exact Hc.
  - discriminate.
  - unfold strip_chars. apply quiet_rstrip.
    + intros c Hc. apply (Hpunct (lstrip (inb PUNCT) s5)); [|exact Hc].
      apply lstrip_Forall. exact N5.
    + apply quiet_lstrip; [|exact Q5].
      intros c Hc. apply (Hpunct s5); [exact N5 | exact Hc].
Qed.

(** X6: with suffix stripping, the canonical name of a name without
    underscore holds no suffix any more: in the canonical name, padded with
    a space on each side the way line 33 pads, no pattern of the suffix
    list matches at any position. *)
Theorem normalise_leaves_no_suffix (name : pystr) (p : pattern) (a b : pystr) :
  Forall (fun c => c ≠ chr "_") name →
  p ∈ _SUFFIX_PATTERNS →
  space ++ normalise_company_name U (PyStr name) true ++ space = a ++ b →
  re_match U p (last a) b = None.
Proof.
  intros Hname Hp Hab. unfold normalise_company_name in Hab.
  destruct (suffix_bodies U p Hp) as (Hshape & _ & Hok).
  pose proof (quiet_no_match p (bodies p) Hshape Hok a _ None b
                (normalise_text_quiet name p Hname Hp) Hab) as H.
  unfold prev_after in H. destruct (last a); exact H.
Qed.

End Canonical.

(** *** Instances *)

Lemma normalise_no_typographic_marks_witness :
  Forall (fun c => c ≠ 0x2019%N ∧ c ≠ 0x2013%N ∧ c ≠ 0x2014%N)
    (normalise_company_name ascii_db
       (PyStr (str "O" ++ [0x2019%N] ++ str "Neil " ++ [0x2014%N] ++ str " Sons")) true).
Proof. apply (normalise_no_typographic_marks ascii_db ascii_db_ok). Defined.

Lemma normalise_no_outer_punctuation_witness :
  let r := normalise_company_name ascii_db (PyStr (str "-- [Acme, Ltd.] --")) true in
  (∀ c, head r = Some c → inb (str " .,-_[]{}") c = false) ∧
  (∀ c, last r = Some c → inb (str " .,-_[]{}") c = false).
Proof. apply (normalise_no_outer_punctuation ascii_db ascii_db_ok). Defined.

Lemma normalise_leaves_no_suffix_witness :
  re_match ascii_db ([WordB] ++ lit "LTD" ++ [WordB]) (last (str " ACME")) (str " HOLDINGS ") = None.
Proof.
  apply (normalise_leaves_no_suffix ascii_db ascii_db_ok (str "Acme Holdings Ltd")).
  - repeat constructor; discriminate.
  - apply list_elem_of_In. left. reflexivity.
  - vm_compute. reflexivity.
Defined.

(** ** Blank names *)

Section Blank.

Context (U : unicode_db).

Lemma punct_fixed c : inb PUNCT c = true → toupper U c = [c].
Proof.
  intros Hin. unfold inb, PUNCT in Hin. simpl in Hin.
  repeat (apply orb_true_iff in Hin; destruct Hin as [Hin|Hin];
          [apply N.eqb_eq in Hin; subst c; reflexivity|]).
  discriminate Hin.
Qed.

Lemma punct_facts c :
  inb PUNCT c = true →
  c ≠ lparen ∧ c ≠ 0x2019%N ∧ c ≠ 0x2013%N ∧ c ≠ 0x2014%N.
Proof.
  intros Hin. unfold inb, PUNCT in Hin. simpl in Hin.
  repeat (apply orb_true_iff in Hin; destruct Hin as [Hin|Hin];
          [apply N.eqb_eq in Hin; subst c; repeat split; discriminate|]).
  discriminate Hin.
Qed.

Lemma space_facts c :
  isspace c = true → c ≠ 0x2019%N ∧ c ≠ 0x2013%N ∧ c ≠ 0x2014%N.
Proof. intros H. repeat split; intros ->; discriminate H. Qed.

Lemma squeeze_blank b s :
  Forall (fun c => isspace c = true ∨ inb PUNCT c = true) s →
  Forall (fun c => inb PUNCT c = true) (squeeze b s).
Proof.
  intros H. revert b. induction H as [|c t Hc Ht IH]; intros b; [constructor|].
  rewrite squeeze_cons. destruct (isspace c) eqn:E.
  - destruct b; [apply IH|]. constructor; [reflexivity | apply IH].
  - constructor; [|apply IH]. destruct Hc as [Hc|Hc]; [congruence | exact Hc].
Qed.

(** X7: a name made only of whitespace and of the characters that
    line 38 trims has the empty canonical name, with or without suffix
    stripping. *)
Theorem normalise_blank_name (name : pystr) (k : bool) :
  Forall (fun c => isspace c = true ∨ inb (str " .,-_[]{}") c = true) name →
  normalise_company_name U (PyStr name) k = [].
Proof.
  change (str " .,-_[]{}") with PUNCT. intros Hname.
  unfold normalise_company_name.
  destruct (normalise_text_stages U _SUFFIX_PATTERNS name k) as (s3 & s4 & s5 & E3 & E4 & E5 & ->).
  set (B := fun c : codepoint => isspace c = true ∨ inb PUNCT c = true) in *.
  set (Q := fun c : codepoint => inb PUNCT c = true).
  assert (Hs : Forall B (strip name)) by (apply rstrip_Forall, lstrip_Forall; exact Hname).
  assert (Hm : ascii_marks (strip name) = strip name).
  { unfold ascii_marks.
    rewrite (replace_id 0x2019%N).
    2:{ eapply Forall_impl; [exact Hs|]. intros c [H|H];
        [apply space_facts in H | apply punct_facts in H]; tauto. }
    rewrite (replace_id 0x2013%N).
    2:{ eapply Forall_impl; [exact Hs|]. intros c [H|H];
        [apply space_facts in H | apply punct_facts in H]; tauto. }
    apply replace_id.
    eapply Forall_impl; [exact Hs|]. intros c [H|H];
      [apply space_facts in H | apply punct_facts in H]; tauto. }
  assert (Q3 : Forall Q s3).
  { rewrite E3, Hm. rewrite upper_id.
    - apply squeeze_blank. exact Hs.
    - eapply Forall_impl; [apply squeeze_blank; exact Hs|]. intros c Hc. apply punct_fixed. exact Hc. }
  assert (Q4 : Forall Q s4).
  { rewrite E4, unwrap_plain; [exact Q3|].
    eapply Forall_impl; [exact Q3|]. intros c Hc. apply punct_facts in Hc. tauto. }
  assert (Q5 : Forall Q s5).
  { rewrite E5. destruct k; [|exact Q4].
    apply rstrip_Forall, lstrip_Forall, strip_suffix_patterns_Forall; [reflexivity|].
    apply Forall_app. split; [repeat constructor|].
    apply Forall_app. split; [exact Q4 | repeat constructor]. }
  unfold strip_chars. rewrite (lstrip_all (inb PUNCT) s5 Q5). reflexivity.
Qed.

End Blank.

Lemma normalise_blank_name_witness :
  normalise_company_name ascii_db (PyStr (str " - [_] .,  ")) true = [].
Proof.
  apply (normalise_blank_name ascii_db).
  repeat constructor; (left; reflexivity) || (right; reflexivity).
Defined.

(** ** The frame operations again *)

Lemma insert_fresh_keeps (h : store) g l (f : DataFrame) :
  h !! l = Some f → <[fresh (dom h) := g]> h !! l = Some f.
Proof.
  intros Hl. rewrite lookup_insert_ne; [exact Hl|].
  intros <-. rewrite fresh_loc_None in Hl. discriminate.
Qed.

Lemma first_mask_NoDup seen keys :
  NoDup keys → (∀ k, k ∈ keys → k ∉ seen) →
  first_mask seen keys = repeat true (length keys).
Proof.
  revert seen. induction keys as [|k rest IH]; intros seen Hnd Hs; simpl; [reflexivity|].
  apply NoDup_cons in Hnd as [Hk Hnd].
  destruct (decide (k ∈ seen)) as [Hin|Hin].
  - exfalso. apply (Hs k); [left | exact Hin].
  - f_equal. apply IH; [exact Hnd|]. intros k' Hk' Hin'.
    apply elem_of_cons in Hin' as [->|Hin']; [contradiction|].
    apply (Hs k'); [right; exact Hk' | exact Hin'].
Qed.

Lemma take_mask_all {A : Type} (xs : list A) n :
  length xs ≤ n → take_mask (repeat true n) xs = xs.
Proof.
  revert n. induction xs as [|x xs IH]; intros [|n] H; simpl in *; try reflexivity; try lia.
  f_equal. apply IH. lia.
Qed.




Lemma length_range_index n : length (range_index n) = n.
Proof. unfold range_index. rewrite length_map, length_seq. reflexivity. Qed.

Lemma take_all_columns n (data : list (pystr * list cell)) :
  Forall (fun cx => length (snd cx) = n) data →
  map (fun '(c, ys) => (c, take_mask (repeat true n) ys)) data = data.
Proof.
  induction 1 as [|[c ys] rest Hc Hrest IH]; simpl; [reflexivity|].
  cbn [snd] in Hc. rewrite take_mask_all by lia. f_equal. exact IH.
Qed.

Lemma well_formed_col f c ys :
  well_formed f → get_col c (df_data f) = Some ys → length ys = df_len f.
Proof.
  intros [_ Hrect] Hc. apply get_col_In in Hc. unfold rectangular in Hrect.
  rewrite Forall_forall in Hrect. exact (Hrect _ Hc).
Qed.

Section DedupeMore.

Context (U : unicode_db).

Lemma dedupe_by_normalised_name_adds (h : store) df f xs :
  h !! df = Some f →
  NORM_NAME ∉ df_columns f →
  get_col COMPANY_NAME (df_data f) = Some xs →
  let f1 := with_norm_name U f xs true in
  let h1 := <[fresh (dom h) := f1]> h in
  let g := frame_take (first_mask [] (map (fun x => CStr (canonical U true x)) xs)) f1 in
  let h2 := <[fresh (dom h1) := g]> h1 in
  dedupe_by_normalised_name U df h =
    (inr (fresh (dom h2)),
     <[fresh (dom h2) := {| df_index := range_index (df_len g); df_data := df_data g |}]> h2).
Proof.
  intros Hdf Hno Hcol. cbv zeta.
  unfold dedupe_by_normalised_name. unfold columns_of at 1. unfold mbind at 1 2, py_bind.
  unfold mbind at 1, py_bind, read at 1. rewrite Hdf. unfold mret, py_ret.
  rewrite (bool_decide_eq_false_2 _ Hno). cbn [negb].
  rewrite (add_normalised_column_run U h df f COMPANY_NAME true xs Hdf Hcol).
  py_unfold. rewrite lookup_insert_eq. simpl.
  rewrite get_col_set_col_eq. simpl. rewrite lookup_insert_eq. reflexivity.
Qed.

(** The outcome of [dedupe_by_normalised_name] on a frame of the store. *)
Lemma dedupe_by_normalised_name_cases (h : store) df :
  (h !! df = None ∧ dedupe_by_normalised_name U df h = (inl Dangling, h)) ∨
  (∃ f, h !! df = Some f ∧
     ((∃ keys, get_col NORM_NAME (df_data f) = Some keys) ∨
      ((NORM_NAME ∉ df_columns f) ∧ ∃ xs, get_col COMPANY_NAME (df_data f) = Some xs) ∨
      ((NORM_NAME ∉ df_columns f) ∧ (COMPANY_NAME ∉ df_columns f)))).
Proof.
  destruct (h !! df) as [f|] eqn:Hdf.
  - right. exists f. split; [reflexivity|].
    destruct (decide (NORM_NAME ∈ df_columns f)) as [Hin|Hin].
    + left. apply get_col_is_Some in Hin. destruct Hin as [keys Hk]. eauto.
    + right. destruct (decide (COMPANY_NAME ∈ df_columns f)) as [Hc|Hc].
      * left. split; [exact Hin|]. apply get_col_is_Some in Hc. destruct Hc as [xs Hx]. eauto.
      * right. split; assumption.
  - left. split; [reflexivity|].
    unfold dedupe_by_normalised_name. py_unfold. rewrite Hdf. reflexivity.
Qed.

(** X8: [dedupe_by_normalised_name] never changes or removes a frame
    that is already there, its argument included, whether it returns or
    raises: it only makes new ones. *)
Theorem dedupe_by_normalised_name_keeps_store (h : store) df l f :
  h !! l = Some f →
  (dedupe_by_normalised_name U df h).2 !! l = Some f.
Proof.
  intros Hl.
  destruct (dedupe_by_normalised_name_cases h df) as [[_ ->]|(f0 & Hdf & [H|[H|H]])].
  - exact Hl.
  - destruct H as [keys Hk].
    rewrite (dedupe_by_normalised_name_run U h df f0 keys Hdf Hk). cbn [snd].
    apply insert_fresh_keeps, insert_fresh_keeps. exact Hl.
  - destruct H as (Hno & xs & Hx).
    rewrite (dedupe_by_normalised_name_adds h df f0 xs Hdf Hno Hx). cbn [snd].
    apply insert_fresh_keeps, insert_fresh_keeps, insert_fresh_keeps. exact Hl.
  - destruct H as (Hno & Hc).
    unfold dedupe_by_normalised_name. py_unfold. rewrite Hdf. simpl.
    rewrite (bool_decide_eq_false_2 _ Hno). simpl.
    rewrite (add_normalised_column_missing U h df f0 COMPANY_NAME true Hdf Hc).
    exact Hl.
Qed.

(** A frame with pairwise distinct keys and the labels of a
    [RangeIndex] comes back as it is. *)
Lemma dedupe_by_normalised_name_fixed (h : store) df g keys :
  h !! df = Some g →
  well_formed g →
  get_col NORM_NAME (df_data g) = Some keys →
  NoDup keys →
  df_index g = range_index (df_len g) →
  ∃ out h',
    dedupe_by_normalised_name U df h = (inr out, h') ∧
    h' !! out = Some g ∧ h' !! df = Some g.
Proof.
  intros Hdf Hwf Hk Hnd Hidx.
  rewrite (dedupe_by_normalised_name_run U h df g keys Hdf Hk).
  eexists _, _. split; [reflexivity|].
  assert (Hmask : first_mask [] keys = repeat true (df_len g)).
  { rewrite first_mask_NoDup; [|exact Hnd|intros k _ H; inversion H].
    f_equal. apply (well_formed_col g NORM_NAME); assumption. }
  assert (Htake : frame_take (first_mask [] keys) g = g).
  { rewrite Hmask. destruct g as [idx data]. unfold frame_take. cbn [df_index df_data] in *.
    unfold df_len in *. cbn [df_index] in *. f_equal.
    - apply take_mask_all. lia.
    - destruct Hwf as [_ Hrect]. apply take_all_columns. exact Hrect. }
  rewrite Htake. split.
  - rewrite lookup_insert_eq. f_equal. destruct g as [idx data].
    cbn [df_index df_data df_len] in *. unfold df_len in *. cbn [df_index] in *.
    f_equal. symmetry. exact Hidx.
  - apply insert_fresh_keeps, insert_fresh_keeps. exact Hdf.
Qed.

Lemma reindexed_take_well_formed mask f :
  well_formed f →
  let g := frame_take mask f in
  let g' := {| df_index := range_index (df_len g); df_data := df_data g |} in
  well_formed g' ∧ df_index g' = range_index (df_len g').
Proof.
  intros Hwf g g'. split.
  - exact (frame_take_well_formed mask f Hwf).
  - unfold g', df_len. cbn [df_index]. rewrite length_range_index. reflexivity.
Qed.

(** X9: applying [dedupe_by_normalised_name] to its own result gives a
    frame with the same content: the first result has pairwise distinct
    canonical names and the row labels [0 .. n-1], so nothing more is
    removed. *)
Theorem dedupe_by_normalised_name_idempotent (h : store) df f :
  h !! df = Some f →
  well_formed f →
  NORM_NAME ∈ df_columns f ∨ COMPANY_NAME ∈ df_columns f →
  ∃ out g h1 out2 h2,
    dedupe_by_normalised_name U df h = (inr out, h1) ∧
    h1 !! out = Some g ∧
    dedupe_by_normalised_name U out h1 = (inr out2, h2) ∧
    h2 !! out2 = Some g ∧
    h2 !! out = Some g.
Proof.
  intros Hdf Hwf Hcols.
  assert (Hmain : ∀ (h0 : store) d f0 keys,
    h0 !! d = Some f0 → well_formed f0 → get_col NORM_NAME (df_data f0) = Some keys →
    ∃ out g h1 out2 h2,
      dedupe_by_normalised_name U d h0 = (inr out, h1) ∧
      h1 !! out = Some g ∧
      (∀ l x, h0 !! l = Some x → h1 !! l = Some x) ∧
      dedupe_by_normalised_name U out h1 = (inr out2, h2) ∧
      h2 !! out2 = Some g ∧ h2 !! out = Some g).
  { intros h0 d f0 keys Hd Hw Hk.
    pose proof (dedupe_by_normalised_name_run U h0 d f0 keys Hd Hk) as Hrun.
    cbv zeta in Hrun.
    set (g := frame_take (first_mask [] keys) f0) in *.
    set (h1 := <[fresh (dom h0) := g]> h0) in *.
    set (g' := {| df_index := range_index (df_len g); df_data := df_data g |}) in *.
    set (h2 := <[fresh (dom h1) := g']> h1) in *.
    destruct (reindexed_take_well_formed (first_mask [] keys) f0 Hw) as [Hw' Hidx].
    fold g in Hw', Hidx. fold g' in Hw', Hidx.
    assert (Hk' : get_col NORM_NAME (df_data g') =
                  Some (take_mask (first_mask [] keys) keys)).
    { unfold g', g, frame_take. cbn [df_data]. rewrite get_col_map_values, Hk. reflexivity. }
    destruct (dedupe_by_normalised_name_fixed h2 (fresh (dom h1)) g' _
                (lookup_insert_eq _ _ _) Hw' Hk'
                (proj1 (take_first_mask_NoDup [] keys)) Hidx)
      as (out2 & h3 & Hrun2 & Hout2 & Hkeep).
    exists (fresh (dom h1)), g', h2, out2, h3.
    split; [exact Hrun|]. split; [apply lookup_insert_eq|].
    split; [intros l x Hl; apply insert_fresh_keeps, insert_fresh_keeps; exact Hl|].
    split; [exact Hrun2|]. split; [exact Hout2 | exact Hkeep]. }
  destruct (decide (NORM_NAME ∈ df_columns f)) as [Hin|Hin].
  - apply get_col_is_Some in Hin. destruct Hin as [keys Hk].
    destruct (Hmain h df f keys Hdf Hwf Hk) as (out & g & h1 & out2 & h2 & H1 & H2 & _ & H3 & H4 & H5).
    exists out, g, h1, out2, h2. auto.
  - destruct Hcols as [Hc|Hc]; [contradiction|].
    apply get_col_is_Some in Hc. destruct Hc as [xs Hx].
    pose proof (dedupe_by_normalised_name_adds h df f xs Hdf Hin Hx) as Hrun.
    cbv zeta in Hrun.
    set (f1 := with_norm_name U f xs true) in *.
    set (h1 := <[fresh (dom h) := f1]> h) in *.
    set (keys := map (fun x => CStr (canonical U true x)) xs) in *.
    assert (Hw1 : well_formed f1) by (apply (with_norm_name_well_formed U f COMPANY_NAME); assumption).
    assert (Hk1 : get_col NORM_NAME (df_data f1) = Some keys) by apply get_col_set_col_eq.
    pose proof (dedupe_by_normalised_name_run U h1 (fresh (dom h)) f1 keys
                  (lookup_insert_eq _ _ _) Hk1) as Hrun1.
    cbv zeta in Hrun1.
    destruct (Hmain h1 (fresh (dom h)) f1 keys (lookup_insert_eq _ _ _) Hw1 Hk1)
      as (out & g & h2 & out2 & h3 & H1 & H2 & _ & H3 & H4 & H5).
    exists out, g, h2, out2, h3.
    split; [|auto]. rewrite Hrun. rewrite Hrun1 in H1. exact H1.
Qed.


(** X12: when the canonical names of the input are pairwise distinct
    the pipeline removes nothing: the result has every row of the input,
    in the input order, with the [_norm_name] column and the labels
    [0 .. n-1]. *)
Theorem dedupe_distinct_names_unchanged (h : store) df f col k xs :
  h !! df = Some f →
  well_formed f →
  get_col col (df_data f) = Some xs →
  NoDup (map (canonical U k) xs) →
  ∃ out h',
    dedupe U df col k h = (inr out, h') ∧
    h' !! out =
      Some {| df_index := range_index (df_len f);
              df_data := df_data (with_norm_name U f xs k) |}.
Proof.
  intros Hdf Hwf Hcol Hnd.
  destruct (dedupe_run U h df f col k xs Hdf Hcol) as (out & h' & Hrun & Hout & _).
  set (keys := map (fun x => CStr (canonical U k x)) xs) in *.
  exists out, h'. split; [exact Hrun|]. rewrite Hout.
  assert (Hlen : length xs = df_len f) by (apply (well_formed_col f col); assumption).
  assert (Hmask : first_mask [] keys = repeat true (df_len f)).
  { rewrite first_mask_NoDup.
    - unfold keys. rewrite length_map, Hlen. reflexivity.
    - unfold keys. rewrite <- (map_map (canonical U k) CStr).
      assert (Hinj : Inj eq eq CStr) by (intros a b [= ->]; reflexivity).
      apply (NoDup_fmap_2 CStr). exact Hnd.
    - intros x _ H. inversion H. }
  rewrite Hmask. f_equal. f_equal.
  - rewrite take_mask_all; [reflexivity | unfold df_len; lia].
  - pose proof (with_norm_name_well_formed U f col xs k Hwf Hcol) as [_ Hrect].
    unfold rectangular in Hrect. unfold df_len in Hrect at 1.
    change (df_index (with_norm_name U f xs k)) with (df_index f) in Hrect.
    fold (df_len f) in Hrect.
    apply take_all_columns. exact Hrect.
Qed.

End DedupeMore.

(** X10: a frame that already has a [_norm_name] column is
    deduplicated on the values of that column as they are: nothing is
    normalised (the result is the same whatever the Unicode tables, and a
    [company_name] column is not needed), NaN cells count as one value,
    and every column is cut down to the first occurrences. *)
Theorem dedupe_by_existing_norm_name (h : store) df f keys :
  h !! df = Some f →
  well_formed f →
  get_col NORM_NAME (df_data f) = Some keys →
  ∃ out g h' kept,
    (∀ U, dedupe_by_normalised_name U df h = (inr out, h')) ∧
    h' !! out = Some g ∧
    StronglySorted lt kept ∧
    (∀ i, i ∈ kept ↔ first_occurrence keys i) ∧
    (∀ c ys, get_col c (df_data f) = Some ys →
       get_col c (df_data g) = Some (select kept ys)) ∧
    df_columns g = df_columns f ∧
    df_index g = range_index (length kept).
Proof.
  intros Hdf Hwf Hk.
  set (mask := first_mask [] keys).
  assert (Hkept : ∀ i, i ∈ true_positions mask ↔ first_occurrence keys i).
  { intros i. rewrite elem_of_true_positions. apply first_mask_first_occurrence. }
  eexists _, _, _, (true_positions mask).
  split; [intros U; apply (dedupe_by_normalised_name_run U h df f keys Hdf Hk)|].
  split; [apply lookup_insert_eq|].
  split; [apply true_positions_sorted|].
  split; [exact Hkept|].
  cbn [df_data df_index]. split; [|split].
  - intros c ys Hys. unfold frame_take. cbn [df_data].
    rewrite get_col_map_values, Hys. simpl. rewrite take_mask_select. reflexivity.
  - unfold df_columns, frame_take. cbn [df_data]. rewrite map_map.
    apply map_ext. intros [c ys]. reflexivity.
  - f_equal. unfold df_len, frame_take. cbn [df_index].
    rewrite take_mask_select. apply length_select_eq.
    intros i Hi. apply Hkept in Hi. destruct Hi as (x & Hx & _).
    apply lookup_lt_Some in Hx.
    rewrite (well_formed_col f NORM_NAME keys Hwf Hk) in Hx. exact Hx.
Qed.

(** ** Rows added at the end *)

Section Append.

Context (U : unicode_db).


End Append.

(** *** Instances *)

Lemma dedupe_by_normalised_name_keeps_store_witness :
  (dedupe_by_normalised_name ascii_db 1%positive store0).2 !! 1%positive = Some frame0.
Proof.
  apply (dedupe_by_normalised_name_keeps_store ascii_db store0 1%positive 1%positive frame0).
  reflexivity.
Defined.

Lemma dedupe_by_normalised_name_idempotent_witness :
  ∃ out g h1 out2 h2,
    dedupe_by_normalised_name ascii_db 1%positive store0 = (inr out, h1) ∧
    h1 !! out = Some g ∧
    dedupe_by_normalised_name ascii_db out h1 = (inr out2, h2) ∧
    h2 !! out2 = Some g ∧
    h2 !! out = Some g.
Proof.
  apply (dedupe_by_normalised_name_idempotent ascii_db store0 1%positive frame0).
  - reflexivity.
  - split; [apply (bool_decide_unpack _); vm_compute; exact I | repeat constructor].
  - right. apply (bool_decide_unpack _). vm_compute. exact I.
Defined.

Lemma dedupe_by_existing_norm_name_witness :
  ∃ out g h' kept,
    (∀ U, dedupe_by_normalised_name U 1%positive {[ 1%positive := frame_keyed ]} =
          (inr out, h')) ∧
    h' !! out = Some g ∧
    StronglySorted lt kept ∧
    (∀ i, i ∈ kept ↔ first_occurrence [CNaN; CStr (str "X"); CNaN] i) ∧
    (∀ c ys, get_col c (df_data frame_keyed) = Some ys →
       get_col c (df_data g) = Some (select kept ys)) ∧
    df_columns g = df_columns frame_keyed ∧
    df_index g = range_index (length kept).
Proof.
  apply (dedupe_by_existing_norm_name {[ 1%positive := frame_keyed ]} 1%positive frame_keyed).
  - reflexivity.
  - split; [apply (bool_decide_unpack _); vm_compute; exact I | repeat constructor].
  - reflexivity.
Defined.


Lemma dedupe_distinct_names_unchanged_witness :
  ∃ out h',
    dedupe ascii_db 1%positive COMPANY_NAME false store0 = (inr out, h') ∧
    h' !! out =
      Some {| df_index := range_index (df_len frame0);
              df_data := df_data (with_norm_name ascii_db frame0
                [CStr (str "Acme Ltd"); CStr (str "ACME LIMITED"); CStr (str "Beta Inc")]
                false) |}.
Proof.
  apply (dedupe_distinct_names_unchanged ascii_db store0 1%positive frame0 COMPANY_NAME false).
  - reflexivity.
  - split; [apply (bool_decide_unpack _); vm_compute; exact I | repeat constructor].
  - reflexivity.
  - apply (bool_decide_unpack _). vm_compute. exact I.
Defined.


(** *** Adding the column twice *)


Section Twice.

Context (U : unicode_db).


End Twice.


(** ** The path of the Excel file *)

Lemma starts_with_app p rest : starts_with p (p ++ rest) = true.
Proof.
  induction p as [|a p IH]; [reflexivity|]. simpl. rewrite N.eqb_refl. exact IH.
Qed.

Lemma starts_with_split p s : starts_with p s = true → ∃ rest, s = p ++ rest.
Proof.
  revert s. induction p as [|a p IH]; intros s H.
  - exists s. reflexivity.
  - destruct s as [|c s]; [discriminate|]. simpl in H.
    apply andb_true_iff in H as [Hc H]. apply N.eqb_eq in Hc. subst c.
    destruct (IH s H) as [rest ->]. exists rest. reflexivity.
Qed.

(** A path cannot start with [.csv] only thanks to the [.csv] after it. *)
Lemma starts_with_csv_app c t :
  starts_with (str ".csv") ((c :: t) ++ str ".csv") = starts_with (str ".csv") (c :: t).
Proof.
  destruct t as [|c2 [|c3 [|c4 t]]]; cbn.
  - destruct (N.eqb_spec c 46); [|reflexivity]. reflexivity.
  - destruct (N.eqb_spec c 46); [|reflexivity].
    destruct (N.eqb_spec c2 99); [|reflexivity]. subst. reflexivity.
  - destruct (N.eqb_spec c 46); [|reflexivity].
    destruct (N.eqb_spec c2 99); [|reflexivity].
    destruct (N.eqb_spec c3 115); [|reflexivity]. subst. reflexivity.
  - reflexivity.
Qed.

Lemma starts_with_length p s : starts_with p s = true → length p ≤ length s.
Proof.
  intros H. destruct (starts_with_split p s H) as [rest ->]. rewrite length_app. lia.
Qed.

Lemma replace_from_csv_app s : ∀ k,
  k ≤ length s →
  replace_from (str ".csv") (str ".xlsx") k (s ++ str ".csv") =
  replace_from (str ".csv") (str ".xlsx") k s ++ str ".xlsx".
Proof.
  induction s as [|c t IH]; intros k Hk.
  - assert (k = 0) by (simpl in Hk; lia). subst k. reflexivity.
  - destruct k as [|k].
    + change (replace_from (str ".csv") (str ".xlsx") 0 ((c :: t) ++ str ".csv"))
        with (if starts_with (str ".csv") ((c :: t) ++ str ".csv")
              then str ".xlsx" ++ replace_from (str ".csv") (str ".xlsx") 3 (t ++ str ".csv")
              else c :: replace_from (str ".csv") (str ".xlsx") 0 (t ++ str ".csv")).
      change (replace_from (str ".csv") (str ".xlsx") 0 (c :: t))
        with (if starts_with (str ".csv") (c :: t)
              then str ".xlsx" ++ replace_from (str ".csv") (str ".xlsx") 3 t
              else c :: replace_from (str ".csv") (str ".xlsx") 0 t).
      rewrite starts_with_csv_app.
      destruct (starts_with (str ".csv") (c :: t)) eqn:Hs.
      * apply starts_with_length in Hs. simpl in Hs.
        rewrite IH by lia. rewrite <- app_assoc. reflexivity.
      * rewrite IH by lia. reflexivity.
    + simpl in Hk. cbn [app replace_from]. apply IH. lia.
Qed.

(** X18: for an output path that ends in [.csv] the path of the Excel
    file ends in [.xlsx]; what comes before the ending is rewritten the
    same way, so a [.csv] inside a directory name is replaced too. *)
Theorem xlsx_path_of_csv_path (stem : pystr) :
  str_replace (str ".csv") (str ".xlsx") (stem ++ str ".csv") =
  str_replace (str ".csv") (str ".xlsx") stem ++ str ".xlsx".
Proof. unfold str_replace. apply replace_from_csv_app. lia. Qed.

Lemma replace_from_absent old new s :
  (∀ a b, s ≠ a ++ old ++ b) → replace_from old new 0 s = s.
Proof.
  induction s as [|c t IH]; intros H; [reflexivity|].
  cbn [replace_from]. destruct (starts_with old (c :: t)) eqn:Hs.
  - exfalso. destruct (starts_with_split _ _ Hs) as [rest Hrest].
    apply (H [] rest). exact Hrest.
  - f_equal. apply IH. intros a b ->. apply (H (c :: a) b). reflexivity.
Qed.

Lemma occurs_false old s :
  occurs old s = false → ∀ a b, s ≠ a ++ old ++ b.
Proof.
  intros H a. revert s H. induction a as [|c a IH]; intros s H b ->.
  - cbn [app] in H. destruct (old ++ b) as [|c t] eqn:E.
    + simpl in H. destruct old; [discriminate | discriminate].
    + cbn [occurs] in H. apply orb_false_iff in H as [H _].
      rewrite <- E, starts_with_app in H. discriminate.
  - cbn [app occurs] in H. apply orb_false_iff in H as [_ H].
    exact (IH _ H b eq_refl).
Qed.

(** X19: a path in which [.csv] does not occur (in this very spelling)
    is left as it is, so that [to_excel] is given the path of the CSV file
    itself. *)
Theorem xlsx_path_without_csv (path : pystr) :
  occurs (str ".csv") path = false →
  str_replace (str ".csv") (str ".xlsx") path = path.
Proof. intros H. apply replace_from_absent. apply occurs_false. exact H. Qed.

Lemma xlsx_path_without_csv_witness :
  str_replace (str ".csv") (str ".xlsx") (str "Data/OUT.CSV") = str "Data/OUT.CSV".
Proof. apply xlsx_path_without_csv. reflexivity. Defined.

(** ** The run *)

Lemma get_col_del_col_ne col c data :
  c ≠ col → get_col c (del_col col data) = get_col c data.
Proof.
  intros Hne. induction data as [|[c' ys] rest IH]; simpl; [reflexivity|].
  destruct (decide (c' = col)) as [->|Hc]; simpl.
  - destruct (decide (col = c)); [congruence | exact IH].
  - destruct (decide (c' = c)); [reflexivity | exact IH].
Qed.

Lemma get_col_del_col_eq col data : get_col col (del_col col data) = None.
Proof.
  induction data as [|[c' ys] rest IH]; simpl; [reflexivity|].
  destruct (decide (c' = col)) as [->|Hc]; simpl; [exact IH|].
  destruct (decide (c' = col)); [congruence | exact IH].
Qed.

Lemma columns_del_col col data :
  map fst (del_col col data) = List.filter (fun c => negb (bool_decide (c = col))) (map fst data).
Proof.
  induction data as [|[c' ys] rest IH]; simpl; [reflexivity|].
  destruct (decide (c' = col)) as [->|Hc]; simpl.
  - rewrite bool_decide_eq_true_2 by reflexivity. exact IH.
  - rewrite bool_decide_eq_false_2 by exact Hc. simpl. f_equal. exact IH.
Qed.

Lemma filter_set_col col vals data :
  List.filter (fun c => negb (bool_decide (c = col))) (map fst (set_col col vals data)) =
  List.filter (fun c => negb (bool_decide (c = col))) (map fst data).
Proof.
  induction data as [|[c' ys] rest IH]; simpl.
  - rewrite bool_decide_eq_true_2 by reflexivity. reflexivity.
  - destruct (decide (c' = col)) as [->|Hc]; simpl.
    + reflexivity.
    + rewrite bool_decide_eq_false_2 by exact Hc. simpl. f_equal. exact IH.
Qed.

Section RunFacts.

Context (U : unicode_db) {world E : Type} (os : env world E).

Lemma bind_ok {A B : Type} (m : io world E A) (k : A → io world E B) s a s' :
  m s = (inr a, s') → (m ≫= k) s = k a s'.
Proof. intros H. unfold mbind, io_bind. rewrite H. reflexivity. Qed.

Lemma bind_err {A B : Type} (m : io world E A) (k : A → io world E B) s e s' :
  m s = (inl e, s') → (m ≫= k) s = (inl e, s').
Proof. intros H. unfold mbind, io_bind. rewrite H. reflexivity. Qed.

Lemma lift_ok {A : Type} (m : py A) (h : store) (w : world) a h' :
  m h = (inr a, h') → lift (E := E) m (h, w) = (inr a, (h', w)).
Proof. intros H. unfold lift. cbn [fst snd]. rewrite H. reflexivity. Qed.

Lemma lift_err {A : Type} (m : py A) (h : store) (w : world) e h' :
  m h = (inl e, h') → lift (E := E) m (h, w) = (inl (FrameError e), (h', w)).
Proof. intros H. unfold lift. cbn [fst snd]. rewrite H. reflexivity. Qed.

Lemma call_ok {A : Type} (f : world → (E + A) * world) (h : store) w a w' :
  f w = (inr a, w') → call f (h, w) = (inr a, (h, w')).
Proof. intros H. unfold call. cbn [fst snd]. rewrite H. reflexivity. Qed.

Lemma call_err {A : Type} (f : world → (E + A) * world) (h : store) w e w' :
  f w = (inl e, w') → call f (h, w) = (inl (LibraryError e), (h, w')).
Proof. intros H. unfold call. cbn [fst snd]. rewrite H. reflexivity. Qed.

Lemma read_csv_ok path (h : store) w f w1 :
  pd_read_csv os path w = (inr f, w1) →
  read_csv os path (h, w) = (inr (fresh (dom h)), (<[fresh (dom h) := f]> h, w1)).
Proof.
  intros H. unfold read_csv. rewrite (bind_ok _ _ _ _ _ (call_ok _ h _ _ _ H)).
  apply lift_ok. reflexivity.
Qed.

(** X14: when the input path does not exist [run] raises
    [FileNotFoundError] with the path and the working directory in the
    message, before it reads or writes anything: frames and world are
    as they were. *)
Theorem run_input_not_found in_path out_path ks kn v (h : store) (w : world) :
  os_path_exists os in_path w = false →
  run U os in_path out_path ks kn v (h, w) =
    (inl (FileNotFoundError (not_found_message in_path (os_getcwd os w))), (h, w)).
Proof.
  intros H. unfold run. rewrite (bind_ok _ _ (h, w) false (h, w)).
  - reflexivity.
  - unfold ask. cbn [snd]. rewrite H. reflexivity.
Qed.

Lemma run_after_read in_path out_path ks kn v (h : store) (w : world) f w1 :
  os_path_exists os in_path w = true →
  pd_read_csv os in_path w = (inr f, w1) →
  run U os in_path out_path ks kn v (h, w) =
    (df ← lift (add_normalised_column U (fresh (dom h)) COMPANY_NAME (negb ks));
     df ← lift (dedupe_by_normalised_name U df);
     n_out ← lift (len df);
     cols ← lift (columns_of df);
     df ← (if negb kn && bool_decide (NORM_NAME ∈ cols)
           then lift (drop_columns df NORM_NAME)
           else mret df);
     write_outputs os df out_path;;
     report os v (df_len f) n_out out_path) (<[fresh (dom h) := f]> h, w1).
Proof.
  intros Hex Hread. unfold run. rewrite (bind_ok _ _ (h, w) true (h, w)).
  2:{ unfold ask. cbn [snd]. rewrite Hex. reflexivity. }
  cbn [negb]. rewrite (bind_ok _ _ _ _ _ (read_csv_ok in_path h w f w1 Hread)).
  rewrite (bind_ok _ _ _ (df_len f) (<[fresh (dom h) := f]> h, w1)).
  - reflexivity.
  - apply lift_ok. unfold len. py_unfold. rewrite lookup_insert_eq. reflexivity.
Qed.

(** X15: when the table read has no [company_name] column [run] raises
    the [ValueError] of line 46 and nothing is written or printed: the
    world is the one [read_csv] left, and the store only has the table
    read in addition. *)
Theorem run_missing_column in_path out_path ks kn v (h : store) (w : world) f w1 :
  os_path_exists os in_path w = true →
  pd_read_csv os in_path w = (inr f, w1) →
  COMPANY_NAME ∉ df_columns f →
  run U os in_path out_path ks kn v (h, w) =
    (inl (FrameError (ValueError (str "Missing required column: company_name"))),
     (<[fresh (dom h) := f]> h, w1)).
Proof.
  intros Hex Hread Hno. rewrite (run_after_read _ _ _ _ _ _ _ _ _ Hex Hread).
  apply bind_err. apply lift_err.
  apply (add_normalised_column_missing U _ _ f); [apply lookup_insert_eq | exact Hno].
Qed.

(** What [run] hands to [write_outputs]. *)
Lemma run_reaches_write in_path out_path ks (kn : bool) v (h : store) (w : world) f w1 xs :
  os_path_exists os in_path w = true →
  pd_read_csv os in_path w = (inr f, w1) →
  get_col COMPANY_NAME (df_data f) = Some xs →
  let f1 := with_norm_name U f xs (negb ks) in
  let mask := first_mask [] (map (fun x => CStr (canonical U (negb ks) x)) xs) in
  let g3 := {| df_index := range_index (df_len (frame_take mask f1));
               df_data := df_data (frame_take mask f1) |} in
  let g := if kn then g3
           else {| df_index := df_index g3; df_data := del_col NORM_NAME (df_data g3) |} in
  ∃ out h1,
    run U os in_path out_path ks kn v (h, w) =
      (write_outputs os out out_path;;
       report os v (df_len f) (df_len g3) out_path) (h1, w1) ∧
    h1 !! out = Some g ∧
    (∀ l x, h !! l = Some x → h1 !! l = Some x).
Proof.
  intros Hex Hread Hcol f1 mask g3 g.
  rewrite (run_after_read _ _ _ _ _ _ _ _ _ Hex Hread).
  set (k := negb ks) in *.
  set (l0 := fresh (dom h)). set (h0 := <[l0 := f]> h).
  assert (H0 : h0 !! l0 = Some f) by apply lookup_insert_eq.
  set (keys := map (fun x => CStr (canonical U k x)) xs) in *.
  rewrite (bind_ok _ _ _ _ _
             (lift_ok _ _ w1 _ _ (add_normalised_column_run U h0 l0 f COMPANY_NAME k xs H0 Hcol))).
  fold f1. set (l1 := fresh (dom h0)). set (h1 := <[l1 := f1]> h0).
  assert (H1 : h1 !! l1 = Some f1) by apply lookup_insert_eq.
  assert (Hk1 : get_col NORM_NAME (df_data f1) = Some keys) by apply get_col_set_col_eq.
  pose proof (dedupe_by_normalised_name_run U h1 l1 f1 keys H1 Hk1) as Hrun.
  cbv zeta in Hrun. fold mask in Hrun. fold g3 in Hrun.
  set (h2 := <[fresh (dom h1) := frame_take mask f1]> h1) in *.
  set (l3 := fresh (dom h2)) in *.
  set (h3 := <[l3 := g3]> h2) in *.
  rewrite (bind_ok _ _ _ _ _ (lift_ok _ _ w1 _ _ Hrun)).
  assert (H3 : h3 !! l3 = Some g3) by apply lookup_insert_eq.
  rewrite (bind_ok _ _ _ (df_len g3) (h3, w1)).
  2:{ apply lift_ok. unfold len. py_unfold. rewrite H3. reflexivity. }
  rewrite (bind_ok _ _ _ (df_columns g3) (h3, w1)).
  2:{ apply lift_ok. unfold columns_of. py_unfold. rewrite H3. reflexivity. }
  assert (Hin : NORM_NAME ∈ df_columns g3).
  { apply get_col_is_Some. unfold g3, frame_take. cbn [df_data].
    rewrite get_col_map_values, Hk1. eauto. }
  rewrite (bool_decide_eq_true_2 _ Hin), andb_true_r.
  assert (Hkeep0 : ∀ l x, h !! l = Some x → h3 !! l = Some x).
  { intros l x Hl. unfold h3, l3, h2, h1, l1, h0, l0.
    repeat apply insert_fresh_keeps. exact Hl. }
  unfold g. destruct kn; cbn [negb].
  - exists l3, h3. rewrite (bind_ok _ _ _ l3 (h3, w1)) by reflexivity.
    split; [reflexivity|]. split; [exact H3 | exact Hkeep0].
  - set (g4 := {| df_index := df_index g3; df_data := del_col NORM_NAME (df_data g3) |}).
    exists (fresh (dom h3)), (<[fresh (dom h3) := g4]> h3).
    rewrite (bind_ok _ _ _ (fresh (dom h3)) (<[fresh (dom h3) := g4]> h3, w1)).
    2:{ apply lift_ok. unfold drop_columns. py_unfold. rewrite H3. simpl.
        rewrite (bool_decide_eq_true_2 _ Hin). reflexivity. }
    split; [reflexivity|]. split; [apply lookup_insert_eq|].
    intros l x Hl. apply insert_fresh_keeps, Hkeep0. exact Hl.
Qed.

(** X16: on a well-formed table with a [company_name] column [run]
    hands to [write_outputs] a new frame with the rows at the first
    occurrences of the canonical names, in input order, relabelled
    [0 .. n-1]; its columns are those of the input, without [_norm_name]
    unless [keep_norm_col] is set (a [_norm_name] column of the input is
    lost either way); the report counts the rows read and the rows kept;
    no frame that was there before is touched. *)
Theorem run_writes_first_occurrences in_path out_path ks kn v
    (h : store) (w : world) f w1 xs :
  os_path_exists os in_path w = true →
  pd_read_csv os in_path w = (inr f, w1) →
  well_formed f →
  get_col COMPANY_NAME (df_data f) = Some xs →
  ∃ out g h1 kept,
    run U os in_path out_path ks kn v (h, w) =
      (write_outputs os out out_path;;
       report os v (df_len f) (length kept) out_path) (h1, w1) ∧
    h1 !! out = Some g ∧
    (∀ l x, h !! l = Some x → h1 !! l = Some x) ∧
    StronglySorted lt kept ∧
    (∀ i, i ∈ kept ↔ first_occurrence (map (canonical U (negb ks)) xs) i) ∧
    (∀ c ys, c ≠ NORM_NAME → get_col c (df_data f) = Some ys →
       get_col c (df_data g) = Some (select kept ys)) ∧
    get_col NORM_NAME (df_data g) =
      (if kn then Some (map CStr (select kept (map (canonical U (negb ks)) xs))) else None) ∧
    df_columns g =
      (if kn then df_columns (with_norm_name U f xs (negb ks))
       else List.filter (fun c => negb (bool_decide (c = NORM_NAME))) (df_columns f)) ∧
    df_index g = range_index (length kept).
Proof.
  intros Hex Hread Hwf Hcol.
  destruct (run_reaches_write in_path out_path ks kn v h w f w1 xs Hex Hread Hcol)
    as (out & h1 & Hrun & Hout & Hkeep).
  set (k := negb ks) in *.
  set (f1 := with_norm_name U f xs k) in *.
  set (keys := map (fun x => CStr (canonical U k x)) xs) in *.
  set (mask := first_mask [] keys) in *.
  set (g2 := frame_take mask f1) in *.
  set (g3 := {| df_index := range_index (df_len g2); df_data := df_data g2 |}) in *.
  assert (Hk1 : get_col NORM_NAME (df_data f1) = Some keys) by apply get_col_set_col_eq.
  assert (Hkept : ∀ i, i ∈ true_positions mask ↔ first_occurrence (map (canonical U k) xs) i).
  { intros i. rewrite elem_of_true_positions. unfold mask.
    rewrite first_mask_first_occurrence. unfold keys.
    rewrite <- (map_map (canonical U k) CStr).
    apply first_occurrence_map_inj. intros x y [= ->]. reflexivity. }
  assert (Hlen : length xs = df_len f) by (apply (well_formed_col f COMPANY_NAME); assumption).
  assert (Hn : df_len g2 = length (true_positions mask)).
  { unfold g2, frame_take, df_len. cbn [df_index]. rewrite take_mask_select.
    apply length_select_eq. intros i Hi. apply Hkept in Hi. destruct Hi as (x & Hx & _).
    apply lookup_lt_Some in Hx. rewrite length_map in Hx. unfold df_len in Hlen.
    change (df_index f1) with (df_index f). lia. }
  assert (Hn3 : df_len g3 = length (true_positions mask)).
  { unfold g3, df_len at 1. cbn [df_index]. rewrite length_range_index. exact Hn. }
  assert (Hcols3 : ∀ c ys, c ≠ NORM_NAME → get_col c (df_data f) = Some ys →
                   get_col c (df_data g3) = Some (select (true_positions mask) ys)).
  { intros c ys Hc Hys. unfold g3, g2, frame_take. cbn [df_data].
    rewrite get_col_map_values. unfold f1, with_norm_name. cbn [df_data].
    rewrite get_col_set_col_ne by assumption. rewrite Hys. simpl.
    rewrite take_mask_select. reflexivity. }
  assert (Hnorm3 : get_col NORM_NAME (df_data g3) =
                   Some (map CStr (select (true_positions mask) (map (canonical U k) xs)))).
  { unfold g3, g2, frame_take. cbn [df_data]. rewrite get_col_map_values, Hk1. simpl.
    rewrite take_mask_select. unfold keys. rewrite <- select_map, map_map. reflexivity. }
  assert (Hidx3 : df_index g3 = range_index (length (true_positions mask))).
  { unfold g3. cbn [df_index]. rewrite Hn. reflexivity. }
  assert (Hc3 : df_columns g3 = df_columns f1).
  { unfold df_columns, g3, g2, frame_take. cbn [df_data]. rewrite map_map.
    apply map_ext. intros [c ys]. reflexivity. }
  rewrite Hn3 in Hrun.
  eexists out, _, h1, (true_positions mask).
  split; [exact Hrun|]. split; [exact Hout|]. split; [exact Hkeep|].
  split; [apply true_positions_sorted|]. split; [exact Hkept|].
  destruct kn.
  - split; [exact Hcols3|]. split; [exact Hnorm3|]. split; [exact Hc3 | exact Hidx3].
  - cbn [df_data df_index]. split; [|split; [|split]].
    + intros c ys Hc Hys. rewrite get_col_del_col_ne by exact Hc. apply Hcols3; assumption.
    + apply get_col_del_col_eq.
    + unfold df_columns. cbn [df_data]. rewrite columns_del_col.
      fold (df_columns g3). rewrite Hc3. unfold df_columns, f1, with_norm_name.
      cbn [df_data]. apply filter_set_col.
    + exact Hidx3.
Qed.

(** X17: once the parent directory is there, [write_outputs] fails
    when [to_csv] fails, and then [to_excel] is not called; after the CSV
    is written an [Exception] from [to_excel] is swallowed and
    [write_outputs] returns normally, while anything else it raises gets
    through. The store is never touched. *)
Theorem write_outputs_failures df out_csv (h : store) (w w1 : world) f :
  h !! df = Some f →
  _ensure_parent os out_csv (h, w) = (inr tt, (h, w1)) →
  let xlsx := str_replace (str ".csv") (str ".xlsx") out_csv in
  match df_to_csv os f out_csv w1 with
  | (inl e, w2) =>
      write_outputs os df out_csv (h, w) = (inl (LibraryError e), (h, w2))
  | (inr _, w2) =>
      match df_to_excel os f xlsx w2 with
      | (inl e, w3) =>
          write_outputs os df out_csv (h, w) =
            if is_Exception os e then (inr tt, (h, w3)) else (inl (LibraryError e), (h, w3))
      | (inr _, w3) => write_outputs os df out_csv (h, w) = (inr tt, (h, w3))
      end
  end.
Proof.
  intros Hdf Hens xlsx. unfold write_outputs.
  rewrite (bind_ok _ _ _ _ _ Hens).
  rewrite (bind_ok _ _ _ f (h, w1)).
  2:{ apply lift_ok. unfold read. rewrite Hdf. reflexivity. }
  destruct (df_to_csv os f out_csv w1) as [[e|[]] w2] eqn:Hcsv.
  - apply bind_err. apply call_err. exact Hcsv.
  - rewrite (bind_ok _ _ _ _ _ (call_ok _ h _ _ _ Hcsv)).
    fold xlsx. unfold try_pass.
    destruct (df_to_excel os f xlsx w2) as [[e|[]] w3] eqn:Hx.
    + rewrite (call_err _ h _ _ _ Hx). cbn [caught]. reflexivity.
    + rewrite (call_ok _ h _ _ _ Hx). reflexivity.
Qed.

End RunFacts.

(** *** Instances *)

Lemma run_input_not_found_witness :
  run ascii_db flat_env (str "missing.csv") (str "out.csv") false false true (∅, flat_world) =
    (inl (FileNotFoundError (not_found_message (str "missing.csv") (str "/"))), (∅, flat_world)).
Proof.
  apply (run_input_not_found ascii_db flat_env). reflexivity.
Defined.

Lemma run_missing_column_witness :
  run ascii_db flat_env (str "cities.csv") (str "out.csv") false false true (∅, flat_world) =
    (inl (FrameError (ValueError (str "Missing required column: company_name"))),
     (<[fresh (dom (∅ : gmap positive DataFrame)) := frame_cities]> ∅, flat_world)).
Proof.
  apply (run_missing_column ascii_db flat_env).
  - reflexivity.
  - reflexivity.
  - intros H. apply list_elem_of_In in H. simpl in H. destruct H as [H|[]]. discriminate H.
Defined.

Lemma run_writes_first_occurrences_witness :
  ∃ out g h1 kept,
    run ascii_db flat_env (str "in.csv") (str "out.csv") false false true (∅, flat_world) =
      (write_outputs flat_env out (str "out.csv");;
       report flat_env true (df_len frame0) (length kept) (str "out.csv")) (h1, flat_world) ∧
    h1 !! out = Some g ∧
    (∀ l x, (∅ : gmap positive DataFrame) !! l = Some x → h1 !! l = Some x) ∧
    StronglySorted lt kept ∧
    (∀ i, i ∈ kept ↔
       first_occurrence
         (map (canonical ascii_db (negb false))
            [CStr (str "Acme Ltd"); CStr (str "ACME LIMITED"); CStr (str "Beta Inc")]) i) ∧
    (∀ c ys, c ≠ NORM_NAME → get_col c (df_data frame0) = Some ys →
       get_col c (df_data g) = Some (select kept ys)) ∧
    get_col NORM_NAME (df_data g) =
      (if false
       then Some (map CStr (select kept (map (canonical ascii_db (negb false))
              [CStr (str "Acme Ltd"); CStr (str "ACME LIMITED"); CStr (str "Beta Inc")])))
       else None) ∧
    df_columns g =
      (if false
       then df_columns (with_norm_name ascii_db frame0
              [CStr (str "Acme Ltd"); CStr (str "ACME LIMITED"); CStr (str "Beta Inc")]
              (negb false))
       else List.filter (fun c => negb (bool_decide (c = NORM_NAME))) (df_columns frame0)) ∧
    df_index g = range_index (length kept).
Proof.
  apply (run_writes_first_occurrences ascii_db flat_env (str "in.csv") (str "out.csv")
           false false true ∅ flat_world frame0 flat_world).
  - reflexivity.
  - reflexivity.
  - split; [apply (bool_decide_unpack _); vm_compute; exact I | repeat constructor].
  - reflexivity.
Defined.

Lemma write_outputs_failures_witness :
  write_outputs flat_env 1%positive (str "out.csv") (store0, flat_world) =
    (inr tt, (store0, (str "out.csv", frame0) :: flat_world)).
Proof.
  exact (write_outputs_failures flat_env 1%positive (str "out.csv") store0
           flat_world flat_world frame0 eq_refl eq_refl).
Defined.

(** *** What can fail *)

Section RunFailures.

Context (U : unicode_db) {world E : Type} (os : env world E).

Lemma ensure_parent_result path (h : store) (w : world) r s :
  _ensure_parent os path (h, w) = (r, s) → s.1 = h ∧ from_library r.
Proof.
  unfold _ensure_parent. destruct (os_path_dirname os path) as [|c t].
  - intros [= <- <-]. split; [reflexivity | exact I].
  - rewrite (bind_ok _ _ (h, w) (os_path_exists os (c :: t) w) (h, w)) by reflexivity.
    destruct (os_path_exists os (c :: t) w); cbn [negb].
    + intros [= <- <-]. split; [reflexivity | exact I].
    + destruct (os_makedirs os (c :: t) w) as [[e|[]] w'] eqn:Hm.
      * rewrite (call_err _ h _ _ _ Hm). intros [= <- <-]. split; [reflexivity | exact I].
      * rewrite (call_ok _ h _ _ _ Hm). intros [= <- <-]. split; [reflexivity | exact I].
Qed.

Lemma write_outputs_result df out_csv (h : store) (w : world) f r s :
  h !! df = Some f →
  write_outputs os df out_csv (h, w) = (r, s) → s.1 = h ∧ from_library r.
Proof.
  intros Hdf. unfold write_outputs.
  destruct (_ensure_parent os out_csv (h, w)) as [[e|[]] [h' w1]] eqn:Hens;
    destruct (ensure_parent_result _ _ _ _ _ Hens) as [Hs Hr]; cbn [fst] in Hs; subst h'.
  - rewrite (bind_err _ _ _ _ _ Hens). intros [= <- <-]. split; [reflexivity | exact Hr].
  - rewrite (bind_ok _ _ _ _ _ Hens).
    rewrite (bind_ok _ _ _ f (h, w1)).
    2:{ apply lift_ok. unfold read. rewrite Hdf. reflexivity. }
    destruct (df_to_csv os f out_csv w1) as [[e|[]] w2] eqn:Hcsv.
    + rewrite (bind_err _ _ _ _ _ (call_err _ h _ _ _ Hcsv)).
      intros [= <- <-]. split; [reflexivity | exact I].
    + rewrite (bind_ok _ _ _ _ _ (call_ok _ h _ _ _ Hcsv)). unfold try_pass.
      destruct (df_to_excel os f (str_replace (str ".csv") (str ".xlsx") out_csv) w2)
        as [[e|[]] w3] eqn:Hx.
      * rewrite (call_err _ h _ _ _ Hx). cbn [caught].
        destruct (is_Exception os e); intros [= <- <-]; split; reflexivity || exact I.
      * rewrite (call_ok _ h _ _ _ Hx). intros [= <- <-]. split; [reflexivity | exact I].
Qed.

Lemma report_result v n_in n_out out_path (h : store) (w : world) r s :
  report os v n_in n_out out_path (h, w) = (r, s) → s.1 = h ∧ from_library r.
Proof.
  unfold report. destruct v.
  - destruct (py_print os (report_rows n_in n_out) w) as [[e|[]] w1] eqn:H1.
    + rewrite (bind_err _ _ _ _ _ (call_err _ h _ _ _ H1)).
      intros [= <- <-]. split; [reflexivity | exact I].
    + rewrite (bind_ok _ _ _ _ _ (call_ok _ h _ _ _ H1)).
      destruct (py_print os (report_files out_path) w1) as [[e|[]] w2] eqn:H2.
      * rewrite (call_err _ h _ _ _ H2). intros [= <- <-]. split; [reflexivity | exact I].
      * rewrite (call_ok _ h _ _ _ H2). intros [= <- <-]. split; [reflexivity | exact I].
  - intros [= <- <-]. split; [reflexivity | exact I].
Qed.

(** X21: once the table is read and has the [company_name] column,
    nothing [run] does on the frames can fail: an
    exception of [run] is then an exception of the environment, from
    making the directory, writing the CSV, an Excel failure that is not an
    [Exception], or printing. *)
Theorem run_fails_outside_only in_path out_path ks kn v
    (h : store) (w : world) f w1 xs :
  os_path_exists os in_path w = true →
  pd_read_csv os in_path w = (inr f, w1) →
  get_col COMPANY_NAME (df_data f) = Some xs →
  from_library (run U os in_path out_path ks kn v (h, w)).1.
Proof.
  intros Hex Hread Hcol.
  destruct (run_reaches_write U os in_path out_path ks kn v h w f w1 xs Hex Hread Hcol)
    as (out & h1 & -> & Hout & _).
  destruct (write_outputs os out out_path (h1, w1)) as [[e|[]] [h2 w2]] eqn:Hw;
    destruct (write_outputs_result _ _ _ _ _ _ _ Hout Hw) as [Hs Hr]; cbn [fst] in Hs; subst h2.
  - rewrite (bind_err _ _ _ _ _ Hw). exact Hr.
  - rewrite (bind_ok _ _ _ _ _ Hw).
    match goal with |- from_library (?m (h1, w2)).1 => destruct (m (h1, w2)) as [r s] eqn:Hrep end.
    exact (proj2 (report_result _ _ _ _ _ _ _ _ Hrep)).
Qed.

End RunFailures.

Lemma run_fails_outside_only_witness :
  from_library
    (run ascii_db flat_env (str "in.csv") (str "out.csv") false false true (∅, flat_world)).1.
Proof.
  apply (run_fails_outside_only ascii_db flat_env (str "in.csv") (str "out.csv")
           false false true ∅ flat_world frame0 flat_world
           [CStr (str "Acme Ltd"); CStr (str "ACME LIMITED"); CStr (str "Beta Inc")]).
  - reflexivity.
  - reflexivity.
  - reflexivity.
Defined.
